(** * Standings engine of the Commander tournament tracker (app.py)

    A shallow embedding of the scoring rule [points_for_position] and of the
    standings view [index] of [app.py], followed by the properties of the
    engine that the specification states.

    Python integers are [Z]; nullable columns are [option]; the dictionaries
    keyed by player id that are only looked up ([totals], [played_rounds],
    [rests_by_player]) are [gmap Z _]; the sets of round numbers are
    [gset Z]; the dictionary [per_player], whose key order is observed, is
    an association list in insertion order.  A Python exception is a value
    of type [exn] carried by the [result] monad. *)

From Stdlib Require Import ZArith String Ascii Lia.
From stdpp Require Import base gmap sets list strings sorting.

Local Open Scope Z_scope.

(** ** Records of the store (the four SQLAlchemy models) *)

Module Player.
Record t := mk { id : Z; name : string; active : bool }.
End Player.

Module RoundInfo.
Record t := mk { number : Z; bye_player_id : option Z }.
End RoundInfo.

Module GameResult.
Record t := mk { player_id : Z; position : option Z }.
End GameResult.

Module Game.
(** [results] is the relationship [Game.results]; the columns [id],
    [banned_card] and [created_at] are never read by the engine.  The
    engine only tests [sweep] for truth, so a null flag is [false]. *)
Record t := mk {
  round_number : Z;
  table_no : Z;
  sweep : bool;
  save_player_id : option Z;
  results : list GameResult.t
}.
End Game.

Record Store := {
  players : list Player.t;
  round_infos : list RoundInfo.t;
  games : list Game.t
}.

(** ** Exceptions *)

Inductive exn := KeyError (k : Z) | IndexError.

Inductive result (A : Type) :=
  | Ok (a : A)
  | Raise (e : exn).
Arguments Ok {A} a.
Arguments Raise {A} e.

Global Instance result_bind : MBind result := λ A B k m,
  match m with
  | Ok a => k a
  | Raise e => Raise e
  end.

Fixpoint foldM {A S} (f : S → A → result S) (l : list A) (s : S) : result S :=
  match l with
  | [] => Ok s
  | x :: l' => s' ← f s x; foldM f l' s'
  end.

(** Subscript of a dictionary: [d[k]] raises [KeyError] on a missing key. *)
Definition subscript {V} (d : gmap Z V) (k : Z) : result V :=
  match d !! k with
  | Some v => Ok v
  | None => Raise (KeyError k)
  end.

(** Subscript of a list by a non-negative index: [l[i]]. *)
Definition list_item {V} (l : list V) (i : nat) : result V :=
  match l !! i with
  | Some v => Ok v
  | None => Raise IndexError
  end.

(** Truth value of a nullable integer column ([if g.save_player_id]). *)
Definition truthy (o : option Z) : bool :=
  match o with
  | Some z => negb (z =? 0)
  | None => false
  end.

(** ** Stable sorting

    [list.sort], [sorted] and SQL's [ORDER BY] are modelled by a stable
    insertion sort; [reverse=True] keeps the original order of equal keys. *)

Section stable_sort.
Context {A : Type} (le : A → A → bool).

Fixpoint insert_sorted (x : A) (l : list A) : list A :=
  match l with
  | [] => [x]
  | y :: l' => if le x y then x :: l else y :: insert_sorted x l'
  end.

Definition stable_sort (l : list A) : list A := foldr insert_sorted [] l.
End stable_sort.

Definition sorted {A K} (kle : K → K → bool) (key : A → K) (reverse : bool)
    (l : list A) : list A :=
  stable_sort (fun x y => if reverse then kle (key y) (key x)
                          else kle (key x) (key y)) l.

(** Order of two consecutive elements after a stable sort by [le] of a list
    ordered by [R]: [le] orders them, and [R] does when [le] cannot tell
    them apart. *)
Definition lex {A} (le : A → A → bool) (R : relation A) (x y : A) : Prop :=
  le x y = true ∧ (le y x = true → R x y).

(** Order of Python tuples of integers: the first differing component decides. *)
Definition pair_leb (a b : Z * Z) : bool :=
  if a.1 =? b.1 then a.2 <=? b.2 else a.1 <? b.1.

Definition Key : Type := Z * Z * Z * Z.

Definition key_leb (a b : Key) : bool :=
  let '(a1, a2, a3, a4) := a in
  let '(b1, b2, b3, b4) := b in
  if a1 =? b1 then
    if a2 =? b2 then
      if a3 =? b3 then a4 <=? b4 else a3 <? b3
    else a2 <? b2
  else a1 <? b1.

Definition key_eqb (a b : Key) : bool :=
  let '(a1, a2, a3, a4) := a in
  let '(b1, b2, b3, b4) := b in
  (a1 =? b1) && (a2 =? b2) && (a3 =? b3) && (a4 =? b4).

(** ** Scoring rule *)

Definition points_for_position (position : option Z) (sweep : bool) : Z :=
  match position with
  | None => 0
  | Some position =>
      if sweep then (if position =? 1 then 3 else 0)
      else if position =? 1 then 3
      else if position =? 2 then 2
      else if position =? 3 then 1
      else 0
  end.

(** ** Rows built by [index] *)

Inductive Status := CLASIFICADO | ELIMINADO.

Global Instance Status_eq_dec : EqDecision Status.
Proof. solve_decision. Defined.

Module Totals.
Record t := mk {
  name : string; points : Z; wins : Z; seconds : Z; thirds : Z; saves : Z
}.
End Totals.

Module PerPlayer.
(** [status] is written by the verdict loop for every key before it is
    read; until then the field holds [None]. *)
Record t := mk {
  name : string; points : Z; wins : Z; seconds : Z; thirds : Z; saves : Z;
  played : Z; rests : Z; planned_to_play : Z; remaining : Z;
  lb : Z; ub : Z;
  status : option Status
}.
End PerPlayer.

Module Row.
(** [pos] is written by the ranking loop for every row; until then the
    field holds 0. *)
Record t := mk {
  id : Z; name : string; points : Z; wins : Z; seconds : Z; thirds : Z;
  saves : Z; status : option Status; pos : Z
}.
End Row.

Module Participation.
Record t := mk {
  name : string; played : Z; remaining : Z; rests : Z; planned_to_play : Z
}.
End Participation.

(** The values [index] hands to [render_template]; [is_admin] comes from
    the session and is left out. *)
Record IndexContext := {
  table : list Row.t;
  participation : list Participation.t;
  total_rounds : Z
}.

(** Insertion-ordered dictionary: assignment [d[k] = v]. *)
Fixpoint dict_set {V} (d : list (Z * V)) (k : Z) (v : V) : list (Z * V) :=
  match d with
  | [] => [(k, v)]
  | (k', v') :: d' =>
      if decide (k' = k) then (k, v) :: d' else (k', v') :: dict_set d' k v
  end.

Fixpoint dict_get {V} (d : list (Z * V)) (k : Z) : result V :=
  match d with
  | [] => Raise (KeyError k)
  | (k', v') :: d' => if decide (k' = k) then Ok v' else dict_get d' k
  end.

(** ** The view [index] *)

(** [Player.query.filter_by(active=True).order_by(Player.name.asc()).all()] *)
Definition active_players (s : Store) : list Player.t :=
  sorted String.leb Player.name false (filter (λ p, Player.active p = true) (players s)).

(** [Game.query.order_by(Game.round_number.asc(), Game.table_no.asc()).all()] *)
Definition ordered_games (s : Store) : list Game.t :=
  sorted pair_leb (λ g, (Game.round_number g, Game.table_no g)) false (games s).

Definition init_totals (ps : list Player.t) : gmap Z Totals.t :=
  foldl (λ d p, <[Player.id p := Totals.mk (Player.name p) 0 0 0 0 0]> d) ∅ ps.

(** Loop over [RoundInfo.query.all()] (lines 203-206). *)
Definition round_step (st : gset Z * gmap Z Z) (ri : RoundInfo.t) : gset Z * gmap Z Z :=
  let '(all_rounds, rests_by_player) := st in
  let all_rounds := all_rounds ∪ {[ RoundInfo.number ri ]} in
  if truthy (RoundInfo.bye_player_id ri) then
    match RoundInfo.bye_player_id ri with
    | Some b => (all_rounds, <[b := default 0 (rests_by_player !! b) + 1]> rests_by_player)
    | None => (all_rounds, rests_by_player)
    end
  else (all_rounds, rests_by_player).

Definition add_save (t : Totals.t) : Totals.t :=
  Totals.mk (Totals.name t) (Totals.points t + 1) (Totals.wins t)
            (Totals.seconds t) (Totals.thirds t) (Totals.saves t + 1).

Definition add_result (t : Totals.t) (position : option Z) (pts : Z) : Totals.t :=
  let w := if decide (position = Some 1) then 1 else 0 in
  let s := if decide (position = Some 1) then 0
           else if decide (position = Some 2) then 1 else 0 in
  let th := if decide (position = Some 1) then 0
            else if decide (position = Some 2) then 0
            else if decide (position = Some 3) then 1 else 0 in
  Totals.mk (Totals.name t) (Totals.points t + pts) (Totals.wins t + w)
            (Totals.seconds t + s) (Totals.thirds t + th) (Totals.saves t).

Definition has_winner (g : Game.t) : bool :=
  existsb (λ r, bool_decide (GameResult.position r = Some 1)) (Game.results g)
  || Game.sweep g.

(** Body of [for r in g.results] (lines 222-233). *)
Definition result_step (g : Game.t)
    (st : gmap Z Totals.t * gmap Z (gset Z)) (r : GameResult.t)
    : result (gmap Z Totals.t * gmap Z (gset Z)) :=
  let '(totals, played_rounds) := st in
  let pts := points_for_position (GameResult.position r) (Game.sweep g) in
  t ← subscript totals (GameResult.player_id r);
  let totals := <[GameResult.player_id r := add_result t (GameResult.position r) pts]> totals in
  if has_winner g then
    Ok (totals,
        <[GameResult.player_id r :=
            default ∅ (played_rounds !! GameResult.player_id r) ∪ {[ Game.round_number g ]}]>
          played_rounds)
  else Ok (totals, played_rounds).

Definition apply_save (totals : gmap Z Totals.t) (g : Game.t) : gmap Z Totals.t :=
  match Game.save_player_id g with
  | Some sp =>
      if truthy (Some sp) then
        match totals !! sp with
        | Some t => <[sp := add_save t]> totals
        | None => totals
        end
      else totals
  | None => totals
  end.

(** Body of [for g in games] (lines 210-233). *)
Definition game_step (st : gmap Z Totals.t * gmap Z (gset Z) * gset Z) (g : Game.t)
    : result (gmap Z Totals.t * gmap Z (gset Z) * gset Z) :=
  let '(totals, played_rounds, all_rounds) := st in
  let all_rounds := all_rounds ∪ {[ Game.round_number g ]} in
  let totals := apply_save totals g in
  '(totals, played_rounds) ← foldM (result_step g) (Game.results g) (totals, played_rounds);
  Ok (totals, played_rounds, all_rounds).

(** Body of [for p in players] (lines 239-260). *)
Definition player_step (totals : gmap Z Totals.t) (played_rounds : gmap Z (gset Z))
    (rests_by_player : gmap Z Z) (total_rounds : Z)
    (per_player : list (Z * PerPlayer.t)) (p : Player.t)
    : result (list (Z * PerPlayer.t)) :=
  let played := Z.of_nat (size (default ∅ (played_rounds !! Player.id p))) in
  let rests := default 0 (rests_by_player !! Player.id p) in
  let planned_to_play := Z.max (total_rounds - rests) 0 in
  let remaining := Z.max (planned_to_play - played) 0 in
  t ← subscript totals (Player.id p);
  let lb := Totals.points t in
  let ub := lb + 4 * remaining in
  Ok (dict_set per_player (Player.id p)
        (PerPlayer.mk (Player.name p) (Totals.points t) (Totals.wins t)
           (Totals.seconds t) (Totals.thirds t) (Totals.saves t)
           played rests planned_to_play remaining lb ub None)).

Definition set_status (me : PerPlayer.t) (st : option Status) : PerPlayer.t :=
  PerPlayer.mk (PerPlayer.name me) (PerPlayer.points me) (PerPlayer.wins me)
    (PerPlayer.seconds me) (PerPlayer.thirds me) (PerPlayer.saves me)
    (PerPlayer.played me) (PerPlayer.rests me) (PerPlayer.planned_to_play me)
    (PerPlayer.remaining me) (PerPlayer.lb me) (PerPlayer.ub me) st.

(** [[per_player[q][f] for q in ids if q != pid]] *)
Definition rivals (per_player : list (Z * PerPlayer.t)) (pid : Z) : list PerPlayer.t :=
  snd <$> filter (λ e, e.1 ≠ pid) per_player.

Definition decide_status (me_lb me_ub fourth_best_rival_LB fourth_best_rival_UB : Z)
    : option Status :=
  if fourth_best_rival_UB <? me_lb then Some CLASIFICADO
  else if me_ub <? fourth_best_rival_LB then Some ELIMINADO
  else None.

(** Body of [for pid in ids] (lines 264-281). *)
Definition verdict_step (per_player : list (Z * PerPlayer.t)) (pid : Z)
    : result (list (Z * PerPlayer.t)) :=
  me ← dict_get per_player pid;
  let rival_LBs := sorted Z.leb id true (PerPlayer.lb <$> rivals per_player pid) in
  let rival_UBs := sorted Z.leb id true (PerPlayer.ub <$> rivals per_player pid) in
  fourth_best_rival_LB ← list_item rival_LBs 3;
  fourth_best_rival_UB ← list_item rival_UBs 3;
  let status := decide_status (PerPlayer.lb me) (PerPlayer.ub me)
                  fourth_best_rival_LB fourth_best_rival_UB in
  Ok (dict_set per_player pid (set_status me status)).

(** The accumulators as they stand after the loop over the games (line 234). *)
Definition tally (s : Store)
    : result (gmap Z Totals.t * gmap Z (gset Z) * gset Z * gmap Z Z) :=
  let players := active_players s in
  let totals := init_totals players in
  let '(all_rounds, rests_by_player) := foldl round_step (∅, ∅) (round_infos s) in
  '(totals, played_rounds, all_rounds) ←
     foldM game_step (ordered_games s) (totals, ∅, all_rounds);
  Ok (totals, played_rounds, all_rounds, rests_by_player).

(** The dictionary [per_player] as it stands after line 281, with
    [total_rounds]. *)
Definition standings (s : Store) : result (list (Z * PerPlayer.t) * Z) :=
  '(totals, played_rounds, all_rounds, rests_by_player) ← tally s;
  let total_rounds := Z.of_nat (size all_rounds) in
  per_player ← foldM (player_step totals played_rounds rests_by_player total_rounds)
                  (active_players s) [];
  let ids := fst <$> per_player in
  per_player ← foldM verdict_step ids per_player;
  Ok (per_player, total_rounds).

Definition row_key (t : Row.t) : Key :=
  (Row.points t, Row.wins t, Row.seconds t, Row.thirds t).

Definition set_pos (t : Row.t) (pos : Z) : Row.t :=
  Row.mk (Row.id t) (Row.name t) (Row.points t) (Row.wins t) (Row.seconds t)
         (Row.thirds t) (Row.saves t) (Row.status t) pos.

(** Ranking loop (lines 301-308); [i] is the counter of [enumerate]. *)
Fixpoint assign_pos (i : Z) (last_key : option Key) (current_pos : Z)
    (table : list Row.t) : list Row.t :=
  match table with
  | [] => []
  | t :: table' =>
      let key := row_key t in
      let fresh := match last_key with
                   | Some k => negb (key_eqb key k)
                   | None => true
                   end in
      let current_pos := if fresh then i else current_pos in
      let last_key := if fresh then Some key else last_key in
      set_pos t current_pos :: assign_pos (i + 1) last_key current_pos table'
  end.

Definition make_row (e : Z * PerPlayer.t) : Row.t :=
  Row.mk e.1 (PerPlayer.name e.2) (PerPlayer.points e.2) (PerPlayer.wins e.2)
         (PerPlayer.seconds e.2) (PerPlayer.thirds e.2) (PerPlayer.saves e.2)
         (PerPlayer.status e.2) 0.

Definition make_table (per_player : list (Z * PerPlayer.t)) : list Row.t :=
  let table := make_row <$> per_player in
  let table := sorted String.leb Row.name false table in
  let table := sorted key_leb row_key true table in
  assign_pos 1 None 0 table.

Definition make_participation (per_player : list (Z * PerPlayer.t))
    : list Participation.t :=
  sorted String.leb Participation.name false
    ((λ e, Participation.mk (PerPlayer.name e.2) (PerPlayer.played e.2)
             (PerPlayer.remaining e.2) (PerPlayer.rests e.2)
             (PerPlayer.planned_to_play e.2)) <$> per_player).

Definition index (s : Store) : result IndexContext :=
  '(per_player, total_rounds) ← standings s;
  Ok {| table := make_table per_player;
        participation := make_participation per_player;
        total_rounds := total_rounds |}.

(** ** Vocabulary of the specification *)

(** Ids of the active players. *)
Definition active_ids (s : Store) : gset Z :=
  list_to_set (Player.id <$> filter (λ p, Player.active p = true) (players s)).

Definition participates (pid : Z) (g : Game.t) : Prop :=
  pid ∈ GameResult.player_id <$> Game.results g.

Global Instance participates_dec pid g : Decision (participates pid g).
Proof. unfold participates. apply _. Defined.

(** A table is played when it has a resolved winner. *)
Definition played_table (g : Game.t) : Prop :=
  (∃ r, r ∈ Game.results g ∧ GameResult.position r = Some 1) ∨ Game.sweep g = true.

(** Rounds credited to a player: the rounds of the played tables the player
    sat at. *)
Definition credited_rounds (s : Store) (pid : Z) : gset Z :=
  list_to_set (Game.round_number <$>
    filter (λ g, has_winner g = true ∧ participates pid g) (games s)).

(** Number of rounds whose designated bye is the player. *)
Definition designated_byes (s : Store) (pid : Z) : Z :=
  Z.of_nat (length (filter (λ ri, RoundInfo.bye_player_id ri = Some pid) (round_infos s))).

(** Round numbers appearing in the round records or in the tables. *)
Definition planned_rounds (s : Store) : gset Z :=
  list_to_set (RoundInfo.number <$> round_infos s)
  ∪ list_to_set (Game.round_number <$> games s).

(** [v] is the element of rank [k] (from 0) of [l] in descending order: at
    most [k] elements are strictly above it and more than [k] are at least
    [v]. *)
Definition kth_highest (k : nat) (l : list Z) (v : Z) : Prop :=
  v ∈ l
  ∧ (length (filter (λ x : Z, (v < x)%Z) l) ≤ k)%nat
  ∧ (k < length (filter (λ x : Z, (v ≤ x)%Z) l))%nat.

(** Strict lexicographic order of the medal keys. *)
Definition key_lt (a b : Key) : Prop :=
  let '(a1, a2, a3, a4) := a in
  let '(b1, b2, b3, b4) := b in
  a1 < b1 ∨ (a1 = b1 ∧ (a2 < b2 ∨ (a2 = b2 ∧ (a3 < b3 ∨ (a3 = b3 ∧ a4 < b4))))).

Global Instance key_lt_dec a b : Decision (key_lt a b).
Proof. destruct a as [[[??]?]?], b as [[[??]?]?]. simpl. apply _. Defined.

(** Order of two consecutive rows of the standings table. *)
Definition row_before (r1 r2 : Row.t) : Prop :=
  key_lt (row_key r2) (row_key r1)
  ∨ (row_key r1 = row_key r2 ∧ String.leb (Row.name r1) (Row.name r2) = true).

(** Standard competition rank of a key among the rows: one more than the
    number of rows with a strictly better key. *)
Definition competition_rank (table : list Row.t) (k : Key) : Z :=
  1 + Z.of_nat (length (filter (λ r, key_lt k (row_key r)) table)).

(** Descending order of the medal keys, and ascending order of the names. *)
Definition key_desc (r1 r2 : Row.t) : Prop := ¬ key_lt (row_key r1) (row_key r2).

Definition name_le (r1 r2 : Row.t) : Prop :=
  String.leb (Row.name r1) (Row.name r2) = true.

(** The table before the ranking loop. *)
Definition sorted_rows (per_player : list (Z * PerPlayer.t)) : list Row.t :=
  sorted key_leb row_key true (sorted String.leb Row.name false (make_row <$> per_player)).

Definition Zsum {A} (f : A → Z) (l : list A) : Z := foldr (λ x acc, f x + acc) 0 l.

(** Points a player scores at a table through finish positions. *)
Definition score_at (pid : Z) (g : Game.t) : Z :=
  Zsum (λ r, if decide (GameResult.player_id r = pid)
             then points_for_position (GameResult.position r) (Game.sweep g) else 0)
       (Game.results g).

(** Save bonus a player receives at a table. *)
Definition save_at (pid : Z) (g : Game.t) : Z :=
  if decide (Game.save_player_id g = Some pid) then 1 else 0.

(** Keys of an insertion-ordered dictionary. *)
Definition keys {V} (d : list (Z * V)) : list Z := fst <$> d.

(** The rows with the verdicts forgotten. *)
Definition erase (per_player : list (Z * PerPlayer.t)) : list (Z * PerPlayer.t) :=
  (λ e, (e.1, set_status e.2 None)) <$> per_player.

(** What the loop over the players stores for the key [pid]. *)
Definition row_for (T : gmap Z Totals.t) (P : gmap Z (gset Z)) (R : gmap Z Z)
    (tr : Z) (pid : Z) (me : PerPlayer.t) : Prop :=
  ∃ t, T !! pid = Some t
    ∧ PerPlayer.points me = Totals.points t
    ∧ PerPlayer.saves me = Totals.saves t
    ∧ PerPlayer.played me = Z.of_nat (size (default ∅ (P !! pid)))
    ∧ PerPlayer.rests me = default 0 (R !! pid)
    ∧ PerPlayer.planned_to_play me = Z.max (tr - PerPlayer.rests me) 0
    ∧ PerPlayer.remaining me
      = Z.max (PerPlayer.planned_to_play me - PerPlayer.played me) 0
    ∧ PerPlayer.lb me = PerPlayer.points me
    ∧ PerPlayer.ub me = PerPlayer.lb me + 4 * PerPlayer.remaining me.

(** The verdict of the row [me] of [pid] is the one the bounds of its rivals
    in [per_player] give. *)
Definition verdict_of (per_player : list (Z * PerPlayer.t)) (pid : Z)
    (me : PerPlayer.t) : Prop :=
  ∃ fourth_best_rival_LB fourth_best_rival_UB,
    sorted Z.leb id true (PerPlayer.lb <$> rivals per_player pid) !! 3%nat
      = Some fourth_best_rival_LB
    ∧ sorted Z.leb id true (PerPlayer.ub <$> rivals per_player pid) !! 3%nat
      = Some fourth_best_rival_UB
    ∧ PerPlayer.status me
      = decide_status (PerPlayer.lb me) (PerPlayer.ub me)
          fourth_best_rival_LB fourth_best_rival_UB.

(** The round credited to [pid] by the results [rs] of the table [g], and
    the points they give to [pid]. *)
Definition credit (g : Game.t) (rs : list GameResult.t) (pid : Z) : gset Z :=
  if decide (has_winner g = true ∧ pid ∈ GameResult.player_id <$> rs)
  then {[Game.round_number g]} else ∅.

Definition score_in (g : Game.t) (rs : list GameResult.t) (pid : Z) : Z :=
  Zsum (λ r, if decide (GameResult.player_id r = pid)
             then points_for_position (GameResult.position r) (Game.sweep g) else 0) rs.

(** Every result of every table refers to a player id of [D]. *)
Definition results_within (D : gset Z) (gs : list Game.t) : Prop :=
  Forall (λ g, Forall (λ r, GameResult.player_id r ∈ D) (Game.results g)) gs.

(** A table with its save designation removed. *)
Definition without_save (g : Game.t) : Game.t :=
  Game.mk (Game.round_number g) (Game.table_no g) (Game.sweep g) None (Game.results g).

Definition drop_inactive_save (D : gset Z) (g : Game.t) : Game.t :=
  match Game.save_player_id g with
  | Some sp => if decide (sp ∈ D) then g else without_save g
  | None => g
  end.

(** The store with the save designations of non-active players removed. *)
Definition drop_inactive_saves (s : Store) : Store :=
  {| players := players s;
     round_infos := round_infos s;
     games := drop_inactive_save (active_ids s) <$> games s |}.

(** ** Sample stores *)

Section samples.
Local Open Scope string_scope.

(** Five active players and an inactive one, who is the save designation of
    a table; rounds 1 to 4, the table of round 4 not yet resolved. *)
Definition demo : Store := {|
  players :=
    [ Player.mk 1 "Eve" true; Player.mk 2 "Bob" true; Player.mk 3 "Cat" true;
      Player.mk 4 "Dan" true; Player.mk 5 "Ann" true; Player.mk 6 "Zed" false ];
  round_infos :=
    [ RoundInfo.mk 1 (Some 5); RoundInfo.mk 2 None; RoundInfo.mk 3 (Some 5) ];
  games :=
    [ Game.mk 2 1 true (Some 6)
        [ GameResult.mk 1 (Some 1); GameResult.mk 2 None;
          GameResult.mk 3 None; GameResult.mk 5 None ];
      Game.mk 1 1 false (Some 2)
        [ GameResult.mk 1 (Some 1); GameResult.mk 2 (Some 2);
          GameResult.mk 3 (Some 3); GameResult.mk 4 None ];
      Game.mk 3 1 false None
        [ GameResult.mk 1 (Some 1); GameResult.mk 2 (Some 2);
          GameResult.mk 3 (Some 3); GameResult.mk 4 None ];
      Game.mk 4 1 false None
        [ GameResult.mk 1 None; GameResult.mk 2 None;
          GameResult.mk 3 None; GameResult.mk 4 None ] ]
|}.

(** Four active players and no round. *)
Definition four_players : Store := {|
  players :=
    [ Player.mk 1 "Eve" true; Player.mk 2 "Bob" true; Player.mk 3 "Cat" true;
      Player.mk 4 "Dan" true ];
  round_infos := [];
  games := []
|}.

(** Five active players and a deactivated one who finished second at the
    table of round 1. *)
Definition deactivated_finisher : Store := {|
  players :=
    [ Player.mk 1 "Eve" true; Player.mk 2 "Bob" true; Player.mk 3 "Cat" true;
      Player.mk 4 "Dan" true; Player.mk 5 "Ann" true; Player.mk 6 "Zed" false ];
  round_infos := [ RoundInfo.mk 1 (Some 5) ];
  games :=
    [ Game.mk 1 1 false None
        [ GameResult.mk 1 (Some 1); GameResult.mk 6 (Some 2);
          GameResult.mk 3 (Some 3); GameResult.mk 4 None ] ]
|}.

End samples.

(** * The editor: the handlers that change the store

    The tables [player], [round_info] and [game] are lists of rows in
    insertion order; a row of [game] carries its primary key, which the
    engine never reads, and its results.  A handler takes the session flag
    [is_admin] and the values read from the request, and either commits a
    new state or leaves the state as it is and answers with a refusal (a
    flash message or a 404).  The conversion of the form fields to
    integers ([int(...)]) is done by the caller. *)

Record Db := {
  player_rows : list Player.t;
  round_rows : list RoundInfo.t;
  game_rows : list (Z * Game.t)
}.

(** What the engine reads of the database. *)
Definition store_of (db : Db) : Store :=
  {| players := player_rows db;
     round_infos := round_rows db;
     games := snd <$> game_rows db |}.

Inductive refusal :=
  | Unauthorized
  | NotFound
  | WinnerNotInTable
  | PodiumRepeated
  | PodiumNotInTable
  | SaveNotInTable
  | ByeNotUnique
  | TableNotFour
  | PlayerRepeatedOrMissing
  | PlayerInBothTables.

Inductive response (A : Type) :=
  | Committed (a : A)
  | Refused (why : refusal).
Arguments Committed {A} a.
Arguments Refused {A} why.

(** The row a query returns with [first()] or [get()], changed in place. *)
Fixpoint update_first {A} (P : A → bool) (f : A → A) (l : list A) : list A :=
  match l with
  | [] => []
  | x :: l' => if P x then f x :: l' else x :: update_first P f l'
  end.

Fixpoint remove_first {A} (P : A → bool) (l : list A) : list A :=
  match l with
  | [] => []
  | x :: l' => if P x then l' else x :: remove_first P l'
  end.

Definition has_id (game_id : Z) (row : Z * Game.t) : bool := row.1 =? game_id.

Definition in_round (round_no : Z) (g : Game.t) : bool :=
  Game.round_number g =? round_no.

Definition is_round (round_no : Z) (ri : RoundInfo.t) : bool :=
  RoundInfo.number ri =? round_no.

(** ** [player_toggle] (lines 592-601) *)

Definition toggle (p : Player.t) : Player.t :=
  Player.mk (Player.id p) (Player.name p) (negb (Player.active p)).

Definition player_toggle (is_admin : bool) (pid : Z) (db : Db) : response Db :=
  if negb is_admin then Refused Unauthorized
  else match find (λ p, Player.id p =? pid) (player_rows db) with
       | None => Refused NotFound
       | Some _ =>
           Committed {| player_rows :=
                          update_first (λ p, Player.id p =? pid) toggle (player_rows db);
                        round_rows := round_rows db;
                        game_rows := game_rows db |}
       end.

(** ** [round_add] (lines 606-621) *)

(** [db.session.query(db.func.max(...)).scalar()]: null on an empty table. *)
Definition sql_max (l : list Z) : option Z :=
  match l with
  | [] => None
  | x :: l' => Some (foldl Z.max x l')
  end.

(** [x or 0] *)
Definition or_zero (o : option Z) : Z :=
  match o with
  | Some z => if z =? 0 then 0 else z
  | None => 0
  end.

Definition next_no (db : Db) : Z :=
  let max_ri := or_zero (sql_max (RoundInfo.number <$> round_rows db)) in
  let max_g := or_zero (sql_max ((λ row, Game.round_number row.2) <$> game_rows db)) in
  Z.max max_ri max_g + 1.

Definition round_add (is_admin : bool) (db : Db) : response Db :=
  if negb is_admin then Refused Unauthorized
  else Committed {| player_rows := player_rows db;
                    round_rows := round_rows db ++ [RoundInfo.mk (next_no db) None];
                    game_rows := game_rows db |}.

(** ** [round_delete] (lines 624-639) *)

Definition round_delete (is_admin : bool) (round_no : Z) (db : Db) : response Db :=
  if negb is_admin then Refused Unauthorized
  else Committed {| player_rows := player_rows db;
                    round_rows := remove_first (is_round round_no) (round_rows db);
                    game_rows := filter (λ row, in_round round_no row.2 = false)
                                   (game_rows db) |}.

(** ** [reset_tournament] (lines 543-557) *)

Definition reset_tournament (is_admin : bool) (db : Db) : response Db :=
  if negb is_admin then Refused Unauthorized
  else Committed {| player_rows := player_rows db; round_rows := []; game_rows := [] |}.

(** ** [round_set_bye] (lines 379-395) *)

Definition set_bye (bye : option Z) (ri : RoundInfo.t) : RoundInfo.t :=
  RoundInfo.mk (RoundInfo.number ri) bye.

(** [ri = ...first(); if not ri: ri = RoundInfo(number=round_no); add;
    ri.bye_player_id = bye] *)
Definition write_bye (round_no : Z) (bye : option Z) (rows : list RoundInfo.t)
    : list RoundInfo.t :=
  match find (is_round round_no) rows with
  | Some _ => update_first (is_round round_no) (set_bye bye) rows
  | None => rows ++ [RoundInfo.mk round_no bye]
  end.

Definition round_set_bye (is_admin : bool) (round_no : Z) (bye_pid : option Z)
    (db : Db) : response Db :=
  if negb is_admin then Refused Unauthorized
  else Committed {| player_rows := player_rows db;
                    round_rows := write_bye round_no bye_pid (round_rows db);
                    game_rows := game_rows db |}.

(** ** [game_reset], [round_clear] and [game_delete] (lines 487-540) *)

Definition blank (r : GameResult.t) : GameResult.t :=
  GameResult.mk (GameResult.player_id r) None.

(** The table with its sweep flag, its save designation and its positions
    cleared (lines 496-502 and 533-537). *)
Definition clear_game (g : Game.t) : Game.t :=
  Game.mk (Game.round_number g) (Game.table_no g) false None (blank <$> Game.results g).

Definition game_reset (is_admin : bool) (game_id : Z) (db : Db) : response Db :=
  if negb is_admin then Refused Unauthorized
  else match find (has_id game_id) (game_rows db) with
       | None => Refused NotFound
       | Some _ =>
           Committed {| player_rows := player_rows db;
                        round_rows := round_rows db;
                        game_rows := update_first (has_id game_id)
                                       (λ row, (row.1, clear_game row.2)) (game_rows db) |}
       end.

Definition game_delete (is_admin : bool) (game_id : Z) (db : Db) : response Db :=
  if negb is_admin then Refused Unauthorized
  else match find (has_id game_id) (game_rows db) with
       | None => Refused NotFound
       | Some _ =>
           Committed {| player_rows := player_rows db;
                        round_rows := round_rows db;
                        game_rows := remove_first (has_id game_id) (game_rows db) |}
       end.

Definition round_clear (is_admin : bool) (round_no : Z) (db : Db) : response Db :=
  if negb is_admin then Refused Unauthorized
  else Committed {| player_rows := player_rows db;
                    round_rows := round_rows db;
                    game_rows := (λ row, if in_round round_no row.2
                                         then (row.1, clear_game row.2) else row)
                                 <$> game_rows db |}.

(** ** [game_edit], POST (lines 410-472) *)

Definition participant_ids (g : Game.t) : list Z :=
  GameResult.player_id <$> Game.results g.

(** [[pid for pid in [winner_id, second_id, third_id] if pid]] *)
Definition chosen (winner_id : Z) (second_id third_id : option Z) : list Z :=
  omap (λ o, if truthy o then o else None) [Some winner_id; second_id; third_id].

Definition set_position (pos : Z) (r : GameResult.t) : GameResult.t :=
  GameResult.mk (GameResult.player_id r) (Some pos).

(** The three loops over [results] of lines 456-468. *)
Definition assign_positions (sweep : bool) (winner_id : Z) (second_id third_id : option Z)
    (results : list GameResult.t) : list GameResult.t :=
  let results := blank <$> results in
  let results :=
    (λ r, if GameResult.player_id r =? winner_id then set_position 1 r else r)
    <$> results in
  if negb sweep then
    (λ r,
       let r := if truthy second_id
                   && bool_decide (Some (GameResult.player_id r) = second_id)
                then set_position 2 r else r in
       if truthy third_id && bool_decide (Some (GameResult.player_id r) = third_id)
       then set_position 3 r else r)
    <$> results
  else results.

(** The validations and the update of one table; [banned_card] is not a
    column the engine reads and is left out. *)
Definition edit_game (sweep : bool) (save_player_id winner_id second_id third_id : option Z)
    (g : Game.t) : response Game.t :=
  match winner_id with
  | None => Refused WinnerNotInTable
  | Some winner_id =>
      if negb (bool_decide (winner_id ∈ participant_ids g)) then Refused WinnerNotInTable
      else
        let second_id := if sweep then None else second_id in
        let third_id := if sweep then None else third_id in
        let chosen := chosen winner_id second_id third_id in
        if negb sweep
           && negb (size (list_to_set chosen : gset Z) =? length chosen)%nat
        then Refused PodiumRepeated
        else if negb sweep
                && existsb (λ o, match o with
                                 | Some pid => negb (bool_decide (pid ∈ participant_ids g))
                                 | None => false
                                 end) [second_id; third_id]
        then Refused PodiumNotInTable
        else if truthy save_player_id
                && negb (bool_decide (save_player_id ∈ Some <$> participant_ids g))
        then Refused SaveNotInTable
        else Committed
               (Game.mk (Game.round_number g) (Game.table_no g) sweep save_player_id
                  (assign_positions sweep winner_id second_id third_id (Game.results g)))
  end.

Definition game_edit (is_admin : bool) (game_id : Z) (sweep : bool)
    (save_player_id winner_id second_id third_id : option Z) (db : Db) : response Db :=
  if negb is_admin then Refused Unauthorized
  else match find (has_id game_id) (game_rows db) with
       | None => Refused NotFound
       | Some row =>
           match edit_game sweep save_player_id winner_id second_id third_id row.2 with
           | Refused why => Refused why
           | Committed g =>
               Committed {| player_rows := player_rows db;
                            round_rows := round_rows db;
                            game_rows := update_first (has_id game_id) (λ row, (row.1, g))
                                           (game_rows db) |}
           end
       end.

(** ** [round_edit], POST (lines 669-719), and [get_or_create_game] *)

Definition at_table (round_no table_no : Z) (row : Z * Game.t) : bool :=
  (Game.round_number row.2 =? round_no) && (Game.table_no row.2 =? table_no).

(** The key SQLite gives to a new row: one more than the largest in use. *)
Definition fresh_id (rows : list (Z * Game.t)) : Z :=
  match sql_max (fst <$> rows) with
  | Some m => m + 1
  | None => 1
  end.

Definition get_or_create_game (round_no table_no : Z) (rows : list (Z * Game.t))
    : (Z * Game.t) * list (Z * Game.t) :=
  match find (at_table round_no table_no) rows with
  | Some g => (g, rows)
  | None =>
      let g := (fresh_id rows, Game.mk round_no table_no false None []) in
      (g, rows ++ [g])
  end.

Section slots.
Local Open Scope string_scope.

(** The loop over [all_ids] of lines 672-679; [form pid] is the value of
    the field [slot_<pid>], empty when the field is absent. *)
Definition read_slots (form : Z → string) (all_ids : list Z)
    : gset Z * gset Z * option Z :=
  foldl (λ '(t1_new, t2_new, bye_new) pid,
           let val := form pid in
           if String.eqb val "1" then (t1_new ∪ {[pid]}, t2_new, bye_new)
           else if String.eqb val "2" then (t1_new, t2_new ∪ {[pid]}, bye_new)
           else if String.eqb val "bye" then (t1_new, t2_new, Some pid)
           else (t1_new, t2_new, bye_new))
        (∅, ∅, None) all_ids.

End slots.

(** Lines 682-688: the bye that is marked, or else the one player left out. *)
Definition deduce_bye (all_ids : list Z) (t1_new t2_new : gset Z) (bye_new : option Z)
    : option Z :=
  match bye_new with
  | Some b => Some b
  | None =>
      match elements (list_to_set all_ids ∖ t1_new ∖ t2_new : gset Z) with
      | [b] => Some b
      | _ => None
      end
  end.

(** The results of a table replaced by null positions for [sorted(t_new)]. *)
Definition seat (t_new : gset Z) (row : Z * Game.t) : Z * Game.t :=
  (row.1,
   Game.mk (Game.round_number row.2) (Game.table_no row.2) (Game.sweep row.2)
     (Game.save_player_id row.2)
     ((λ pid, GameResult.mk pid None) <$> sorted Z.leb id false (elements t_new))).

Definition round_edit (is_admin : bool) (round_no : Z) (form : Z → string) (db : Db)
    : response Db :=
  if negb is_admin then Refused Unauthorized
  else
    let all_ids := Player.id <$> active_players (store_of db) in
    let '(t1_new, t2_new, bye_new) := read_slots form all_ids in
    match deduce_bye all_ids t1_new t2_new bye_new with
    | None => Refused ByeNotUnique
    | Some bye_new =>
        if negb (size t1_new =? 4)%nat || negb (size t2_new =? 4)%nat
        then Refused TableNotFour
        else if negb (size (t1_new ∪ t2_new ∪ {[bye_new]}) =? 9)%nat
        then Refused PlayerRepeatedOrMissing
        else if negb (bool_decide (t1_new ∩ t2_new = ∅))
        then Refused PlayerInBothTables
        else
          let '(g1, rows) := get_or_create_game round_no 1 (game_rows db) in
          let '(g2, rows) := get_or_create_game round_no 2 rows in
          let rows := update_first (has_id g1.1) (seat t1_new) rows in
          let rows := update_first (has_id g2.1) (seat t2_new) rows in
          Committed {| player_rows := player_rows db;
                       round_rows := write_bye round_no (Some bye_new) (round_rows db);
                       game_rows := rows |}
    end.

(** Number of results at a table that give the position [k] to a player. *)
Definition medal_at (k : Z) (pid : Z) (g : Game.t) : Z :=
  Zsum (λ r, if decide (GameResult.player_id r = pid ∧ GameResult.position r = Some k)
             then 1 else 0) (Game.results g).

Definition medal_in (k : Z) (pid : Z) (rs : list GameResult.t) : Z :=
  Zsum (λ r, if decide (GameResult.player_id r = pid ∧ GameResult.position r = Some k)
             then 1 else 0) rs.

(** The medal counters of a row of [totals] and of a row of [per_player]. *)
Definition totals_medals (t : Totals.t) : Z * Z * Z :=
  (Totals.wins t, Totals.seconds t, Totals.thirds t).

Definition row_medals (me : PerPlayer.t) : Z * Z * Z :=
  (PerPlayer.wins me, PerPlayer.seconds me, PerPlayer.thirds me).

(** Number of results of a table with position [k], and the points the
    finish positions of a table give in all. *)
Definition count_position (k : Z) (g : Game.t) : nat :=
  length (filter (λ r, GameResult.position r = Some k) (Game.results g)).

Definition table_points (g : Game.t) : Z :=
  Zsum (λ r, points_for_position (GameResult.position r) (Game.sweep g)) (Game.results g).

(** The position the loops of [game_edit] leave with the player [pid]. *)
Definition podium (sweep : bool) (winner_id : Z) (second_id third_id : option Z)
    (pid : Z) : option Z :=
  if negb sweep && truthy third_id && bool_decide (Some pid = third_id) then Some 3
  else if negb sweep && truthy second_id && bool_decide (Some pid = second_id) then Some 2
  else if pid =? winner_id then Some 1
  else None.

(** ** The view [rounds_view] (lines 332-377)

    The view reads the name of a player through the relationships
    [r.player], [ri.bye_player] and [g.save_player], which are null when no
    player row has the id.  [r.player.name] then raises AttributeError:
    the view is a partial function, [None] standing for this exception.
    [banned_card] is not a column the model carries and is left out. *)

Module Seat.
Record t := mk { name : string; pos : option Z }.
End Seat.

Module GameView.
Record t := mk {
  id : Z; table : Z; participants : list Seat.t;
  winner : option string; second : option string; third : option string;
  sweep : bool; save : option string; played : bool
}.
End GameView.

Module RoundView.
Record t := mk {
  number : Z; bye : option string; bye_id : option Z; games : list GameView.t
}.
End RoundView.

(** The relationship to [Player]: the row with the primary key [pid]. *)
Definition player_of (db : Db) (pid : Z) : option Player.t :=
  find (λ p, Player.id p =? pid) (player_rows db).

(** [{ri.number: (ri.bye_player.name if ri.bye_player else None,
                  ri.bye_player_id if ri.bye_player_id else None) for ri in ...}] *)
Definition bye_by_round (db : Db) : gmap Z (option string * option Z) :=
  foldl (λ d ri,
           <[RoundInfo.number ri :=
               (Player.name <$> (RoundInfo.bye_player_id ri ≫= player_of db),
                if truthy (RoundInfo.bye_player_id ri)
                then RoundInfo.bye_player_id ri else None)]> d)
        ∅ (round_rows db).

(** [x.position or 9999] *)
Definition position_key (r : GameResult.t) : Z :=
  match GameResult.position r with
  | Some p => if p =? 0 then 9999 else p
  | None => 9999
  end.

(** [{"name": r.player.name, "pos": r.position}] *)
Definition seat_of (db : Db) (r : GameResult.t) : option Seat.t :=
  p ← player_of db (GameResult.player_id r);
  Some (Seat.mk (Player.name p) (GameResult.position r)).

(** [next((r.player.name for r in g.results if r.position == k), None)] *)
Definition name_at (db : Db) (k : Z) (rs : list GameResult.t) : option (option string) :=
  match find (λ r, bool_decide (GameResult.position r = Some k)) rs with
  | Some r => p ← player_of db (GameResult.player_id r); Some (Some (Player.name p))
  | None => Some None
  end.

(** The dictionary appended to [rounds[g.round_number]["games"]]. *)
Definition game_view (db : Db) (row : Z * Game.t) : option GameView.t :=
  let g := row.2 in
  participants ← mapM (seat_of db) (sorted Z.leb position_key false (Game.results g));
  winner ← name_at db 1 (Game.results g);
  second ← name_at db 2 (Game.results g);
  third ← name_at db 3 (Game.results g);
  let has_winner :=
    existsb (λ r, bool_decide (GameResult.position r = Some 1)) (Game.results g)
    || Game.sweep g in
  Some (GameView.mk row.1 (Game.table_no g) participants winner second third
          (Game.sweep g) (Player.name <$> (Game.save_player_id g ≫= player_of db))
          has_winner).

(** [rounds.setdefault(number, {..., "games": []})] followed by
    [rounds[number]["games"].append(gv)], on an insertion-ordered dictionary. *)
Fixpoint add_to_round (rounds : list (Z * RoundView.t)) (number : Z)
    (bye : option string * option Z) (gv : GameView.t) : list (Z * RoundView.t) :=
  match rounds with
  | [] => [(number, RoundView.mk number bye.1 bye.2 [gv])]
  | (k, r) :: rounds' =>
      if decide (k = number)
      then (k, RoundView.mk (RoundView.number r) (RoundView.bye r) (RoundView.bye_id r)
                 (RoundView.games r ++ [gv])) :: rounds'
      else (k, r) :: add_to_round rounds' number bye gv
  end.

(** The loop [for g in games] (lines 341-366). *)
Fixpoint view_loop (db : Db) (games : list (Z * Game.t))
    (rounds : list (Z * RoundView.t)) : option (list (Z * RoundView.t)) :=
  match games with
  | [] => Some rounds
  | row :: games' =>
      gv ← game_view db row;
      view_loop db games'
        (add_to_round rounds (Game.round_number row.2)
           (default (None, None) (bye_by_round db !! Game.round_number row.2)) gv)
  end.

(** The values handed to [render_template]: [rounds] and [players_all].
    The keys of a dictionary are distinct, so taking [rounds[number]] for
    the sorted keys is sorting the entries by their key. *)
Definition rounds_view (db : Db) : option (list RoundView.t * list Player.t) :=
  let players_all := active_players (store_of db) in
  let games :=
    sorted pair_leb (λ row : Z * Game.t, (Game.round_number row.2, Game.table_no row.2))
      false (game_rows db) in
  rounds ← view_loop db games [];
  Some ((λ e : Z * RoundView.t,
           RoundView.mk e.1 (RoundView.bye e.2) (RoundView.bye_id e.2)
             (sorted Z.leb GameView.table false (RoundView.games e.2)))
        <$> sorted Z.leb fst false rounds,
        players_all).

(** ** Seeding and the import of the first rounds (lines 82-184 and 753-758)

    A new row gets the primary key SQLite gives it, one more than the
    largest in use; [active] is [True] by default. *)

Section seed.
Local Open Scope string_scope.

Definition seed_names : list string :=
  ["Borux"; "Negro"; "Gueta"; "Teran"; "Mauro"; "Gordor"; "Xephi"; "Omar"; "Richard"].

Definition NAME_FIX : gmap string string :=
  {[ "Goldor" := "Gordor"; "Xephy" := "Xephi" ]}.

End seed.

(** [Player.query.filter_by(name=n)] *)
Definition named (n : string) (p : Player.t) : bool := String.eqb (Player.name p) n.

(** [p = Player(name=name); db.session.add(p); db.session.flush()] *)
Definition add_player (name : string) (db : Db) : Player.t * Db :=
  let p := Player.mk (match sql_max (Player.id <$> player_rows db) with
                      | Some m => m + 1
                      | None => 1
                      end) name true in
  (p, {| player_rows := player_rows db ++ [p];
         round_rows := round_rows db;
         game_rows := game_rows db |}).

Definition seed_players (db : Db) : Db :=
  foldl (λ db n, match find (named n) (player_rows db) with
                 | Some _ => db
                 | None => (add_player n db).2
                 end) db seed_names.

Definition get_or_create_player (name : string) (db : Db) : Player.t * Db :=
  let norm := default name (NAME_FIX !! name) in
  match find (named norm) (player_rows db) with
  | Some p => (p, db)
  | None =>
      match find (named name) (player_rows db) with
      | Some p => (p, db)
      | None => add_player norm db
      end
  end.

(** Truth value of an optional string argument ([if winner:]). *)
Definition given (o : option string) : bool :=
  match o with
  | Some s => negb (String.eqb s EmptyString)
  | None => false
  end.

(** The dictionary [positions] of lines 125-128. *)
Definition positions_of (winner second third : option string) : gmap string Z :=
  let positions := ∅ in
  let positions := match winner with
                   | Some w => if given winner then <[w := 1]> positions else positions
                   | None => positions
                   end in
  let positions := match second with
                   | Some s => if given second then <[s := 2]> positions else positions
                   | None => positions
                   end in
  match third with
  | Some t => if given third then <[t := 3]> positions else positions
  | None => positions
  end.

(** The loop [for name in players] of lines 130-133. *)
Definition add_results (positions : gmap string Z) (players : list string) (db : Db)
    : Db * list GameResult.t :=
  foldl (λ '(db, results) name,
           let '(p, db) := get_or_create_player name db in
           (db, results ++ [GameResult.mk (Player.id p) (positions !! name)]))
        (db, []) players.

Definition add_game (round_no table_no : Z) (players : list string)
    (winner second third bye : option string) (db : Db) : Db :=
  let db := match find (is_round round_no) (round_rows db) with
            | Some _ => db
            | None => {| player_rows := player_rows db;
                         round_rows := round_rows db ++ [RoundInfo.mk round_no None];
                         game_rows := game_rows db |}
            end in
  let db := match bye with
            | Some b =>
                if given bye then
                  let '(p, db) := get_or_create_player b db in
                  {| player_rows := player_rows db;
                     round_rows := update_first (is_round round_no)
                                     (set_bye (Some (Player.id p))) (round_rows db);
                     game_rows := game_rows db |}
                else db
            | None => db
            end in
  let sweep := given winner && bool_decide (second = None) && bool_decide (third = None) in
  let game_id := fresh_id (game_rows db) in
  let '(db, results) := add_results (positions_of winner second third) players db in
  {| player_rows := player_rows db;
     round_rows := round_rows db;
     game_rows := game_rows db ++ [(game_id, Game.mk round_no table_no sweep None results)] |}.

Section import.
Local Open Scope string_scope.

Definition import_initial_rounds (db : Db) : Db :=
  if (0 <? length (game_rows db))%nat then db
  else
    let db := add_game 1 1 ["Negro"; "Mauro"; "Xephy"; "Omar"]
                (Some "Negro") (Some "Omar") None (Some "Goldor") db in
    let db := add_game 1 2 ["Richard"; "Gueta"; "Teran"; "Borux"]
                (Some "Gueta") None None None db in
    let db := add_game 2 1 ["Negro"; "Xephy"; "Richard"; "Gueta"]
                None None None (Some "Mauro") db in
    let db := add_game 2 2 ["Omar"; "Borux"; "Goldor"; "Teran"]
                (Some "Goldor") (Some "Teran") (Some "Omar") None db in
    let db := add_game 3 1 ["Negro"; "Mauro"; "Borux"; "Goldor"]
                (Some "Negro") (Some "Borux") (Some "Goldor") (Some "Xephy") db in
    let db := add_game 3 2 ["Omar"; "Richard"; "Gueta"; "Teran"]
                None None None None db in
    let db := add_game 4 1 ["Negro"; "Gueta"; "Richard"; "Borux"]
                (Some "Gueta") (Some "Borux") (Some "Richard") (Some "Omar") db in
    let db := add_game 4 2 ["Mauro"; "Xephy"; "Goldor"; "Teran"]
                None None None None db in
    let db := add_game 5 1 ["Negro"; "Omar"; "Borux"; "Goldor"]
                None None None (Some "Richard") db in
    let db := add_game 5 2 ["Mauro"; "Xephy"; "Gueta"; "Teran"]
                None None None None db in
    let db := add_game 6 1 ["Gueta"; "Xephy"; "Richard"; "Goldor"]
                None None None (Some "Negro") db in
    let db := add_game 6 2 ["Mauro"; "Omar"; "Borux"; "Teran"]
                None None None None db in
    let db := add_game 7 1 ["Negro"; "Xephy"; "Omar"; "Borux"]
                None None None (Some "Teran") db in
    let db := add_game 7 2 ["Mauro"; "Richard"; "Gueta"; "Goldor"]
                None None None None db in
    let db := add_game 8 1 ["Negro"; "Mauro"; "Gueta"; "Teran"]
                None None None (Some "Borux") db in
    let db := add_game 8 2 ["Xephy"; "Omar"; "Richard"; "Goldor"]
                None None None None db in
    let db := add_game 9 1 ["Goldor"; "Mauro"; "Omar"; "Richard"]
                None None None (Some "Gueta") db in
    add_game 9 2 ["Xephy"; "Negro"; "Teran"; "Borux"]
      (Some "Teran") (Some "Borux") (Some "Xephy") None db.

End import.

(** [init_db_and_import] after [db.create_all()]. *)
Definition init_db_and_import (db : Db) : Db :=
  let db := if (length (player_rows db) =? 0)%nat then seed_players db else db in
  import_initial_rounds db.

(** Names and primary keys of the players are unique. *)
Definition unique_players (db : Db) : Prop :=
  NoDup (Player.name <$> player_rows db) ∧ NoDup (Player.id <$> player_rows db).

(** A table of four different players, all of whom exist. *)
Definition four_seated (db : Db) (g : Game.t) : Prop :=
  length (Game.results g) = 4%nat
  ∧ NoDup (participant_ids g)
  ∧ ∀ pid, pid ∈ participant_ids g → pid ∈ Player.id <$> player_rows db.

(** Unique names and keys, and every table a table of four. *)
Definition well_seated (db : Db) : Prop :=
  unique_players db
  ∧ NoDup (fst <$> game_rows db)
  ∧ Forall (λ row : Z * Game.t, four_seated db row.2) (game_rows db).

(** A sample database: the nine seeded players and a deactivated tenth,
    round 1 with its two tables resolved and its bye. *)
Section sample_db.
Local Open Scope string_scope.

Definition league : Db := {|
  player_rows :=
    [ Player.mk 1 "Borux" true; Player.mk 2 "Negro" true; Player.mk 3 "Gueta" true;
      Player.mk 4 "Teran" true; Player.mk 5 "Mauro" true; Player.mk 6 "Gordor" true;
      Player.mk 7 "Xephi" true; Player.mk 8 "Omar" true; Player.mk 9 "Richard" true;
      Player.mk 10 "Zed" false ];
  round_rows := [ RoundInfo.mk 1 (Some 6) ];
  game_rows :=
    [ (1, Game.mk 1 1 false None
            [ GameResult.mk 2 (Some 1); GameResult.mk 5 None;
              GameResult.mk 7 None; GameResult.mk 8 (Some 2) ]);
      (2, Game.mk 1 2 true (Some 4)
            [ GameResult.mk 9 None; GameResult.mk 3 (Some 1);
              GameResult.mk 4 None; GameResult.mk 1 None ]) ]
|}.

(** A form of [round_edit]: players 1 to 4 at table 1, players 5 to 8 at
    table 2, nothing for the others. *)
Definition two_tables (pid : Z) : string :=
  if (pid <=? 4)%Z then "1" else if (pid <=? 8)%Z then "2" else EmptyString.

End sample_db.

(** ** Results about the exception monad *)

Lemma bind_Ok {A B} (m : result A) (k : A → result B) (b : B) :
  m ≫= k = Ok b ↔ ∃ a, m = Ok a ∧ k a = Ok b.
Proof.
  destruct m as [a|e]; simpl.
  - split; [eauto | intros (a' & [= <-] & H); done].
  - split; [done | intros (a' & [=] & _)].
Qed.

Lemma subscript_Ok {V} (d : gmap Z V) k v : subscript d k = Ok v ↔ d !! k = Some v.
Proof. unfold subscript. destruct (d !! k); naive_solver. Qed.

Lemma list_item_Ok {V} (l : list V) i v : list_item l i = Ok v ↔ l !! i = Some v.
Proof. unfold list_item. destruct (l !! i); naive_solver. Qed.

(** ** Results about the stable sort *)

Section stable_sort_facts.
Context {A : Type} (le : A → A → bool).

Lemma insert_sorted_perm x l : insert_sorted le x l ≡ₚ x :: l.
Proof.
  induction l as [|y l IH]; simpl; [done|].
  destruct (le x y); [done|]. rewrite IH. apply Permutation_swap.
Qed.

Lemma stable_sort_perm l : stable_sort le l ≡ₚ l.
Proof.
  induction l as [|x l IH]; simpl; [done|].
  by rewrite insert_sorted_perm, IH.
Qed.

Lemma stable_sort_length l : length (stable_sort le l) = length l.
Proof. by rewrite stable_sort_perm. Qed.

Lemma stable_sort_elem_of x l : x ∈ stable_sort le l ↔ x ∈ l.
Proof. by rewrite stable_sort_perm. Qed.

(** With a total comparison the output is ordered, and elements that the
    comparison cannot tell apart keep the order [R] of the input. *)
Section lex.
Context (R : relation A).
Hypothesis le_total : ∀ x y, le x y = false → le y x = true.

Lemma insert_sorted_lex x l :
  Sorted (lex le R) l → Forall (R x) l → Sorted (lex le R) (insert_sorted le x l).
Proof.
  induction 1 as [|y l Hs IH Hhd]; intros HR; simpl.
  - repeat constructor.
  - apply Forall_cons in HR as [Hxy HR].
    destruct (le x y) eqn:E.
    + constructor; [by constructor|]. constructor. split; auto.
    + constructor; [by apply IH|].
      destruct Hhd as [|z l Hyz]; simpl.
      * constructor. split; [by apply le_total|]. congruence.
      * destruct (le x z); constructor; [|done].
        split; [by apply le_total|]. congruence.
Qed.

Lemma stable_sort_lex l :
  StronglySorted R l → Sorted (lex le R) (stable_sort le l).
Proof.
  induction 1 as [|x l Hs IH HR]; simpl; [constructor|].
  apply insert_sorted_lex; [done|].
  apply Forall_forall. intros y Hy.
  rewrite stable_sort_elem_of in Hy. rewrite Forall_forall in HR. by apply HR.
Qed.
End lex.

Lemma stable_sort_Sorted l :
  (∀ x y, le x y = false → le y x = true) →
  Sorted (λ x y, le x y = true) (stable_sort le l).
Proof.
  intros Htot.
  assert (Sorted (lex le (λ _ _, True)) (stable_sort le l)) as H.
  { apply stable_sort_lex; [done|].
    induction l; constructor; [done|]. by apply Forall_forall. }
  eapply Sorted_fmap with (f := λ x, x) in H; [by rewrite list_fmap_id in H|].
  by intros x y [? _].
Qed.
End stable_sort_facts.

Lemma stable_sort_fmap {A B} (f : A → B) (leA : A → A → bool) (leB : B → B → bool) l :
  (∀ x y, leB (f x) (f y) = leA x y) →
  stable_sort leB (f <$> l) = f <$> stable_sort leA l.
Proof.
  intros Hle. unfold stable_sort. induction l as [|x l IH]; [done|].
  rewrite fmap_cons. cbn [foldr]. rewrite IH.
  generalize (foldr (insert_sorted leA) [] l). intros l'.
  induction l' as [|y l' IH']; [done|].
  rewrite fmap_cons. cbn [insert_sorted]. rewrite Hle.
  destruct (leA x y); [done|]. by rewrite fmap_cons, IH'.
Qed.

(** ** Results about the orders on keys and names *)

Ltac key_destruct :=
  repeat match goal with
  | k : Key |- _ => destruct k as [[[? ?] ?] ?]
  end.

Lemma key_leb_true a b : key_leb a b = true ↔ key_lt a b ∨ a = b.
Proof.
  split.
  - intros H. destruct (decide (a = b)) as [|Hne]; [by right|left].
    destruct a as [[[a1 a2] a3] a4], b as [[[b1 b2] b3] b4].
    assert (¬ (a1 = b1 ∧ a2 = b2 ∧ a3 = b3 ∧ a4 = b4)) as Hne'
      by (intros (-> & -> & -> & ->); done).
    unfold key_leb in H. unfold key_lt.
    repeat match type of H with context [?x =? ?y] => destruct (Z.eqb_spec x y) end;
      rewrite ?Z.leb_le, ?Z.ltb_lt in H; lia.
  - intros [H | ->].
    + destruct a as [[[a1 a2] a3] a4], b as [[[b1 b2] b3] b4].
      unfold key_leb. unfold key_lt in H.
      repeat match goal with |- context [?x =? ?y] => destruct (Z.eqb_spec x y) end;
        rewrite ?Z.leb_le, ?Z.ltb_lt; lia.
    + destruct b as [[[b1 b2] b3] b4]. unfold key_leb.
      rewrite !Z.eqb_refl. apply Z.leb_refl.
Qed.

Lemma key_leb_false a b : key_leb a b = false ↔ key_lt b a.
Proof.
  key_destruct. unfold key_leb, key_lt.
  repeat match goal with |- context [?x =? ?y] => destruct (Z.eqb_spec x y) end;
  rewrite ?Z.leb_gt, ?Z.ltb_ge; lia.
Qed.

Lemma key_eqb_true a b : key_eqb a b = true ↔ a = b.
Proof.
  key_destruct. unfold key_eqb.
  rewrite !andb_true_iff, !Z.eqb_eq.
  split; [intros (((-> & ->) & ->) & ->) | intros [= -> -> -> ->]]; done.
Qed.

Lemma key_lt_irrefl a : ¬ key_lt a a.
Proof. key_destruct. unfold key_lt. lia. Qed.

Lemma key_lt_trans a b c : key_lt a b → key_lt b c → key_lt a c.
Proof. key_destruct. unfold key_lt. lia. Qed.

Lemma key_lt_total a b : key_lt a b ∨ a = b ∨ key_lt b a.
Proof.
  destruct (key_leb a b) eqn:E.
  - apply key_leb_true in E. tauto.
  - apply key_leb_false in E. tauto.
Qed.

Lemma string_leb_trans a b c :
  String.leb a b = true → String.leb b c = true → String.leb a c = true.
Proof.
  unfold String.leb. revert b c.
  induction a as [|ca a IH]; intros [|cb b] [|cc c]; simpl; try done.
  unfold Ascii.compare.
  destruct (N.compare_spec (N_of_ascii ca) (N_of_ascii cb)) as [E1|E1|E1];
  destruct (N.compare_spec (N_of_ascii cb) (N_of_ascii cc)) as [E2|E2|E2];
  destruct (N.compare_spec (N_of_ascii ca) (N_of_ascii cc)) as [E3|E3|E3];
  try done; try lia.
  apply IH.
Qed.

Lemma string_leb_total a b : String.leb a b = false → String.leb b a = true.
Proof. destruct (String.leb_total a b); congruence. Qed.

(** ** Results about the ranking loop *)

Lemma filter_Forall_id {A} (P : A → Prop) `{∀ x, Decision (P x)} (l : list A) :
  Forall P l → filter P l = l.
Proof.
  induction 1 as [|x l Hx _ IH]; [done|]. by rewrite filter_cons_True, IH.
Qed.

Lemma filter_Forall_nil {A} (P : A → Prop) `{∀ x, Decision (P x)} (l : list A) :
  Forall (λ x, ¬ P x) l → filter P l = [].
Proof.
  induction 1 as [|x l Hx _ IH]; [done|]. by rewrite filter_cons_False.
Qed.

Lemma competition_rank_app pre l k :
  Forall (λ r, ¬ key_lt k (row_key r)) l →
  competition_rank (pre ++ l) k = competition_rank pre k.
Proof.
  intros H. unfold competition_rank.
  by rewrite filter_app, (filter_Forall_nil _ l), app_nil_r.
Qed.

Lemma competition_rank_all pre k :
  Forall (λ r, key_lt k (row_key r)) pre →
  competition_rank pre k = 1 + Z.of_nat (length pre).
Proof. intros H. unfold competition_rank. by rewrite filter_Forall_id. Qed.

Lemma assign_pos_rank pre l i last cur :
  i = 1 + Z.of_nat (length pre) →
  StronglySorted key_desc l →
  match last with
  | None => pre = []
  | Some k =>
      Forall (λ r, ¬ key_lt (row_key r) k) pre
      ∧ Forall (λ r, ¬ key_lt k (row_key r)) l
      ∧ cur = competition_rank pre k
  end →
  assign_pos i last cur l
  = (λ t, set_pos t (competition_rank (pre ++ l) (row_key t))) <$> l.
Proof.
  revert pre i last cur.
  induction l as [|t l IH]; intros pre i last cur Hi Hs Hlast; [done|].
  apply StronglySorted_inv in Hs as [Hs Ht].
  assert (Forall (λ r, ¬ key_lt (row_key t) (row_key r)) (t :: l)) as Htl.
  { constructor; [apply key_lt_irrefl | done]. }
  set (fresh := match last with
                | Some k => negb (key_eqb (row_key t) k) | None => true end).
  set (cur' := if fresh then i else cur).
  set (last' := if fresh then Some (row_key t) else last).
  assert (cur' = competition_rank pre (row_key t) ∧ last' = Some (row_key t)
          ∧ Forall (λ r, ¬ key_lt (row_key r) (row_key t)) pre) as (Hcur & Hl' & Hpre).
  { subst cur' last' fresh. destruct last as [k|].
    - destruct Hlast as (Hpre & Hl & ->).
      apply Forall_cons in Hl as [Hkt Hl].
      destruct (key_eqb (row_key t) k) eqn:E; simpl.
      + apply key_eqb_true in E. by subst k.
      + assert (row_key t ≠ k) as Hne.
        { intros Heq. apply key_eqb_true in Heq. congruence. }
        assert (key_lt (row_key t) k) as Hlt.
        { destruct (key_lt_total (row_key t) k) as [?|[?|?]]; done. }
        split; [|split; [done|]].
        * rewrite competition_rank_all; [done|].
          eapply Forall_impl; [exact Hpre|]. intros r Hr.
          destruct (key_lt_total (row_key t) (row_key r)) as [?|[Heq|?]]; [done| |].
          -- destruct Hr. by rewrite <- Heq.
          -- destruct Hr. by eapply key_lt_trans.
        * eapply Forall_impl; [exact Hpre|]. intros r Hr Hrt.
          change (key_lt (row_key r) (row_key t)) in Hrt.
          apply Hr. exact (key_lt_trans _ _ _ Hrt Hlt).
    - subst pre. split; [|done]. by rewrite Hi. }
  cbn [assign_pos]. fold fresh. fold cur'. fold last'. rewrite fmap_cons. f_equal.
  - by rewrite competition_rank_app, Hcur.
  - rewrite Hl'. rewrite (IH (pre ++ [t]) (i + 1) (Some (row_key t)) cur').
    + by rewrite <- app_assoc.
    + rewrite length_app. simpl. lia.
    + done.
    + split; [|split].
      * apply Forall_app. split; [done|]. constructor; [apply key_lt_irrefl|done].
      * done.
      * rewrite competition_rank_app; [done|]. constructor; [apply key_lt_irrefl|done].
Qed.

(** ** Results about the two sorts of the table *)

Lemma Sorted_weaken {A} (R1 R2 : relation A) l :
  (∀ x y, R1 x y → R2 x y) → Sorted R1 l → Sorted R2 l.
Proof.
  intros HR. induction 1 as [|x l _ IH Hhd]; constructor; [done|].
  destruct Hhd; constructor; auto.
Qed.

Global Instance key_desc_trans : Transitive key_desc.
Proof.
  intros x y z Hxy Hyz Hxz. unfold key_desc in *.
  destruct (key_lt_total (row_key x) (row_key y)) as [?|[Heq|?]]; [done| |].
  - rewrite Heq in Hxz. done.
  - apply Hyz. by eapply key_lt_trans.
Qed.

Global Instance name_le_trans : Transitive name_le.
Proof. intros x y z. apply string_leb_trans. Qed.

Lemma competition_rank_fmap (f : Row.t → Row.t) l k :
  (∀ r, row_key (f r) = row_key r) →
  competition_rank (f <$> l) k = competition_rank l k.
Proof.
  intros Hf. unfold competition_rank. do 2 f_equal.
  induction l as [|r l IH]; [done|]. rewrite fmap_cons, !filter_cons, Hf.
  destruct (decide (key_lt k (row_key r))); simpl; by rewrite IH.
Qed.

Lemma sorted_rows_lex pp :
  Sorted (lex (λ x y, key_leb (row_key y) (row_key x)) name_le) (sorted_rows pp).
Proof.
  apply stable_sort_lex.
  - intros x y H. apply key_leb_false in H. apply key_leb_true. by left.
  - apply Sorted_StronglySorted; [apply _|].
    apply (stable_sort_Sorted (λ x y, String.leb (Row.name x) (Row.name y))).
    intros x y. apply string_leb_total.
Qed.

Lemma sorted_rows_before pp : Sorted row_before (sorted_rows pp).
Proof.
  eapply Sorted_weaken; [|apply sorted_rows_lex].
  intros x y [H1 H2]. apply key_leb_true in H1 as [H1|H1]; [by left|right].
  split; [done|]. apply H2. apply key_leb_true. by right.
Qed.

Lemma sorted_rows_desc pp : StronglySorted key_desc (sorted_rows pp).
Proof.
  apply Sorted_StronglySorted; [apply _|].
  eapply Sorted_weaken; [|apply sorted_rows_lex].
  intros x y [H1 _] Hlt. apply key_leb_false in Hlt. congruence.
Qed.

Lemma make_table_eq pp :
  make_table pp
  = (λ t, set_pos t (competition_rank (sorted_rows pp) (row_key t))) <$> sorted_rows pp.
Proof.
  unfold make_table. fold (sorted_rows pp).
  by rewrite (assign_pos_rank [] _ 1 None 0); [| |apply sorted_rows_desc|].
Qed.

Lemma make_table_before pp : Sorted row_before (make_table pp).
Proof.
  rewrite make_table_eq. eapply Sorted_fmap; [|apply sorted_rows_before].
  by intros x y H.
Qed.

Lemma make_table_desc pp : StronglySorted key_desc (make_table pp).
Proof.
  rewrite make_table_eq. eapply StronglySorted_fmap; [|apply sorted_rows_desc].
  by intros x y H.
Qed.

Lemma make_table_pos pp r :
  r ∈ make_table pp → Row.pos r = competition_rank (make_table pp) (row_key r).
Proof.
  rewrite make_table_eq. intros (t & -> & Ht)%list_elem_of_fmap.
  by rewrite competition_rank_fmap.
Qed.

Lemma make_table_first_of_group pp i r :
  make_table pp !! i = Some r →
  (∀ j r', (j < i)%nat → make_table pp !! j = Some r' → row_key r' ≠ row_key r) →
  Row.pos r = Z.of_nat i + 1.
Proof.
  intros Hi Hfirst. rewrite (make_table_pos pp r) by (by eapply list_elem_of_lookup_2).
  pose proof (make_table_desc pp) as Hs.
  rewrite <- (take_drop_middle _ _ _ Hi) in Hs |- * at 1.
  apply StronglySorted_app in Hs as (Hs3 & Hs1 & Hs2).
  apply StronglySorted_inv in Hs2 as [_ Hs2].
  rewrite competition_rank_app.
  2:{ constructor; [apply key_lt_irrefl | exact Hs2]. }
  rewrite competition_rank_all.
  - rewrite length_take_le; [lia|]. apply lookup_lt_Some in Hi. lia.
  - apply Forall_forall. intros r' Hr'.
    apply list_elem_of_lookup in Hr' as [j Hj].
    pose proof (lookup_lt_Some _ _ _ Hj) as Hlen. rewrite length_take in Hlen.
    rewrite lookup_take_lt in Hj by lia.
    destruct (key_lt_total (row_key r) (row_key r')) as [?|[Heq|Hlt]]; [done| |].
    + exfalso. eapply Hfirst; [|exact Hj|done]. lia.
    + exfalso. eapply (Hs3 r' r); [|left|done].
      eapply list_elem_of_lookup_2. rewrite lookup_take_lt; [exact Hj|lia].
Qed.

(** ** Results about sums *)

Lemma Zsum_cons {A} (f : A → Z) x l : Zsum f (x :: l) = f x + Zsum f l.
Proof. done. Qed.

Lemma Zsum_perm {A} (f : A → Z) l1 l2 : l1 ≡ₚ l2 → Zsum f l1 = Zsum f l2.
Proof.
  induction 1 as [|x l1 l2 _ IH|x y l|l1 l2 l3 _ IH1 _ IH2];
    rewrite ?Zsum_cons; lia.
Qed.

(** ** Results about the loop over the results of one table *)

Lemma foldM_cons {A S} (f : S → A → result S) x l s :
  foldM f (x :: l) s = f s x ≫= foldM f l.
Proof. done. Qed.

Lemma result_step_Ok g T P r T' P' :
  result_step g (T, P) r = Ok (T', P') ↔
  ∃ t, T !! GameResult.player_id r = Some t
    ∧ T' = <[GameResult.player_id r :=
              add_result t (GameResult.position r)
                (points_for_position (GameResult.position r) (Game.sweep g))]> T
    ∧ P' = if has_winner g
           then <[GameResult.player_id r :=
                   default ∅ (P !! GameResult.player_id r) ∪ {[Game.round_number g]}]> P
           else P.
Proof.
  unfold result_step. rewrite bind_Ok. split.
  - intros (t & Ht%subscript_Ok & H). exists t. split; [done|].
    destruct (has_winner g); injection H as <- <-; done.
  - intros (t & Ht & -> & ->). exists t. rewrite subscript_Ok. split; [done|].
    by destruct (has_winner g).
Qed.

Section results_loop.
Context (g : Game.t).

Lemma results_loop_inv rs T P T' P' :
  foldM (result_step g) rs (T, P) = Ok (T', P') →
  dom T' = dom T
  ∧ Forall (λ r, GameResult.player_id r ∈ dom T) rs
  ∧ (∀ pid t0, T !! pid = Some t0 →
       ∃ t, T' !! pid = Some t
         ∧ Totals.points t = Totals.points t0 + score_in g rs pid
         ∧ Totals.saves t = Totals.saves t0
         ∧ Totals.name t = Totals.name t0)
  ∧ (∀ pid, default ∅ (P' !! pid) = default ∅ (P !! pid) ∪ credit g rs pid).
Proof.
  revert T P. induction rs as [|r rs IH]; intros T P H.
  - injection H as <- <-. split; [done|]. split; [done|]. split.
    + intros pid t0 Ht. exists t0. unfold score_in. simpl. repeat split; [done|lia].
    + intros pid. unfold credit. rewrite fmap_nil.
      rewrite decide_False by (intros [_ ?%elem_of_nil]; done). set_solver.
  - rewrite foldM_cons, bind_Ok in H. destruct H as ([T1 P1] & Hstep & H).
    apply result_step_Ok in Hstep as (t & Ht & -> & ->).
    apply IH in H as (Hdom & Hall & Htot & Hpl).
    assert (dom (<[GameResult.player_id r :=
              add_result t (GameResult.position r)
                (points_for_position (GameResult.position r) (Game.sweep g))]> T)
            = dom T) as Hd1.
    { rewrite dom_insert_L. apply elem_of_dom_2 in Ht. set_solver. }
    split; [by rewrite Hdom|]. split.
    { constructor; [by eapply elem_of_dom_2|]. by rewrite <- Hd1. }
    split.
    + intros pid t0 Ht0. unfold score_in. rewrite Zsum_cons. fold (score_in g rs pid).
      destruct (decide (GameResult.player_id r = pid)) as [<-|Hne].
      * edestruct (Htot (GameResult.player_id r))
          as (t' & Ht' & Hp & Hs & Hn); [apply lookup_insert_eq|].
        exists t'. split; [done|]. simplify_eq. simpl in *. repeat split; [lia|done|done].
      * destruct (Htot pid t0) as (t' & Ht' & Hp & Hs & Hn);
          [by rewrite lookup_insert_ne|].
        exists t'. repeat split; [done|lia|done|done].
    + intros pid. rewrite Hpl. unfold credit. rewrite fmap_cons.
      destruct (has_winner g) eqn:Ew.
      * destruct (decide (GameResult.player_id r = pid)) as [<-|Hne].
        -- rewrite lookup_insert_eq. simpl.
           rewrite (decide_True (P := _ ∧ _ ∈ _ :: _)) by (split; [done|left]).
           case_decide; set_solver.
        -- rewrite lookup_insert_ne by done.
           destruct (decide (pid ∈ GameResult.player_id <$> rs)).
           ++ rewrite !decide_True by (split; [done|set_solver]). done.
           ++ rewrite !decide_False by (intros [_ ?]; set_solver). done.
      * rewrite !decide_False by (intros [? _]; done). done.
Qed.

Lemma results_loop_total rs T P :
  Forall (λ r, GameResult.player_id r ∈ dom T) rs →
  ∃ T' P', foldM (result_step g) rs (T, P) = Ok (T', P').
Proof.
  revert T P. induction rs as [|r rs IH]; intros T P Hall; [by eexists _, _|].
  apply Forall_cons in Hall as [[t Ht]%elem_of_dom Hall].
  rewrite foldM_cons.
  destruct (result_step g (T, P) r) as [[T1 P1]|e] eqn:E.
  - apply result_step_Ok in E as (t' & Ht' & -> & ->). simpl.
    apply IH. eapply Forall_impl; [exact Hall|]. intros r'. simpl.
    rewrite dom_insert_L. set_solver.
  - unfold result_step in E. unfold subscript in E. rewrite Ht in E. simpl in E.
    by destruct (has_winner g).
Qed.

Lemma results_loop_fail rs T P :
  ¬ Forall (λ r, GameResult.player_id r ∈ dom T) rs →
  ∃ k, foldM (result_step g) rs (T, P) = Raise (KeyError k) ∧ k ∉ dom T.
Proof.
  intros Hn. destruct (foldM (result_step g) rs (T, P)) as [[T' P']|e] eqn:E.
  - apply results_loop_inv in E as (_ & Hall & _). done.
  - revert T P Hn E. induction rs as [|r rs IH]; intros T P Hn E; [done|].
    rewrite foldM_cons in E.
    destruct (result_step g (T, P) r) as [[T1 P1]|e1] eqn:E1.
    + apply result_step_Ok in E1 as (t' & Ht' & -> & ->). simpl in E.
      apply IH in E.
      * destruct E as (k & -> & Hk). exists k. split; [done|].
        rewrite dom_insert_L in Hk. intros Hin. apply Hk.
        apply elem_of_union. by right.
      * intros Hall. apply Hn. constructor; [by eapply elem_of_dom_2|].
        eapply Forall_impl; [exact Hall|]. intros r'. simpl.
        rewrite dom_insert_L. apply elem_of_dom_2 in Ht'.
        intros [Heq%elem_of_singleton|?]%elem_of_union; [by rewrite Heq|done].
    + simpl in E. injection E as <-. unfold result_step, subscript in E1.
      destruct (T !! GameResult.player_id r) eqn:El; simpl in E1.
      * by destruct (has_winner g).
      * injection E1 as <-. eexists. split; [done|]. by apply not_elem_of_dom.
Qed.
End results_loop.

(** ** Results about the loop over the tables *)

Lemma apply_save_dom T g : dom (apply_save T g) = dom T.
Proof.
  unfold apply_save. destruct (Game.save_player_id g) as [sp|]; [|done].
  destruct (truthy (Some sp)); [|done].
  destruct (T !! sp) eqn:E; [|done].
  rewrite dom_insert_L. apply elem_of_dom_2 in E. set_solver.
Qed.

Lemma apply_save_lookup T g pid t0 :
  pid ≠ 0 → T !! pid = Some t0 →
  ∃ t, apply_save T g !! pid = Some t
    ∧ Totals.points t = Totals.points t0 + save_at pid g
    ∧ Totals.saves t = Totals.saves t0 + save_at pid g
    ∧ Totals.name t = Totals.name t0.
Proof.
  intros Hpid Ht0. unfold apply_save, save_at.
  destruct (Game.save_player_id g) as [sp|].
  - destruct (decide (sp = pid)) as [->|Hne].
    + rewrite decide_True by done. simpl.
      destruct (Z.eqb_spec pid 0); [done|]. simpl. rewrite Ht0.
      rewrite lookup_insert_eq. eexists. split; [done|]. simpl. by repeat split.
    + rewrite decide_False by congruence. exists t0.
      destruct (truthy (Some sp)), (T !! sp);
        rewrite ?lookup_insert_ne by done; repeat split; try done; lia.
  - rewrite decide_False by done. exists t0. repeat split; try done; lia.
Qed.

Lemma apply_save_inactive T g sp :
  Game.save_player_id g = Some sp → sp ∉ dom T → apply_save T g = T.
Proof.
  intros Hsp Hdom. unfold apply_save. rewrite Hsp.
  apply not_elem_of_dom in Hdom. rewrite Hdom. by destruct (truthy (Some sp)).
Qed.

Lemma game_step_inv g T P A T' P' A' :
  game_step (T, P, A) g = Ok (T', P', A') →
  dom T' = dom T
  ∧ Forall (λ r, GameResult.player_id r ∈ dom T) (Game.results g)
  ∧ (∀ pid t0, pid ≠ 0 → T !! pid = Some t0 →
       ∃ t, T' !! pid = Some t
         ∧ Totals.points t = Totals.points t0 + score_at pid g + save_at pid g
         ∧ Totals.saves t = Totals.saves t0 + save_at pid g
         ∧ Totals.name t = Totals.name t0)
  ∧ (∀ pid, default ∅ (P' !! pid) = default ∅ (P !! pid) ∪ credit g (Game.results g) pid)
  ∧ A' = A ∪ {[Game.round_number g]}.
Proof.
  unfold game_step. rewrite bind_Ok. intros ([T1 P1] & Hloop & [= <- <- <-]).
  apply results_loop_inv in Hloop as (Hdom & Hall & Htot & Hpl).
  rewrite apply_save_dom in Hdom, Hall.
  repeat split; try done.
  intros pid t0 Hpid Ht0.
  destruct (apply_save_lookup T g pid t0 Hpid Ht0) as (t1 & Ht1 & Hp1 & Hs1 & Hn1).
  destruct (Htot pid t1 Ht1) as (t & Ht & Hp & Hs & Hn).
  exists t. unfold score_at. fold (score_in g (Game.results g) pid).
  repeat split; [done|lia|lia|congruence].
Qed.

Lemma game_step_total g T P A :
  Forall (λ r, GameResult.player_id r ∈ dom T) (Game.results g) →
  ∃ st, game_step (T, P, A) g = Ok st.
Proof.
  intros Hall. unfold game_step.
  destruct (results_loop_total g (Game.results g) (apply_save T g) P) as (T' & P' & ->).
  - by rewrite apply_save_dom.
  - by eexists.
Qed.

Lemma game_step_fail g T P A :
  ¬ Forall (λ r, GameResult.player_id r ∈ dom T) (Game.results g) →
  ∃ k, game_step (T, P, A) g = Raise (KeyError k) ∧ k ∉ dom T.
Proof.
  intros Hn. unfold game_step.
  destruct (results_loop_fail g (Game.results g) (apply_save T g) P) as (k & -> & Hk).
  - by rewrite apply_save_dom.
  - rewrite apply_save_dom in Hk. by exists k.
Qed.

Lemma games_loop_inv gs T P A T' P' A' :
  foldM game_step gs (T, P, A) = Ok (T', P', A') →
  dom T' = dom T
  ∧ results_within (dom T) gs
  ∧ (∀ pid t0, pid ≠ 0 → T !! pid = Some t0 →
       ∃ t, T' !! pid = Some t
         ∧ Totals.points t
           = Totals.points t0 + Zsum (score_at pid) gs + Zsum (save_at pid) gs
         ∧ Totals.saves t = Totals.saves t0 + Zsum (save_at pid) gs
         ∧ Totals.name t = Totals.name t0)
  ∧ (∀ pid, default ∅ (P' !! pid)
            = default ∅ (P !! pid)
              ∪ list_to_set (Game.round_number <$>
                  filter (λ g, has_winner g = true ∧ participates pid g) gs))
  ∧ A' = A ∪ list_to_set (Game.round_number <$> gs).
Proof.
  revert T P A. induction gs as [|g gs IH]; intros T P A H.
  - injection H as <- <- <-. repeat split; try done.
    + constructor.
    + intros pid t0 _ Ht0. exists t0. simpl. repeat split; [done|lia|lia].
    + intros pid. simpl. set_solver.
    + simpl. set_solver.
  - rewrite foldM_cons, bind_Ok in H. destruct H as ([[T1 P1] A1] & Hstep & H).
    apply game_step_inv in Hstep as (Hd1 & Hall1 & Htot1 & Hpl1 & ->).
    apply IH in H as (Hd & Hall & Htot & Hpl & ->).
    split; [congruence|]. split.
    { constructor; [done|]. by rewrite <- Hd1. }
    split; [|split].
    + intros pid t0 Hpid Ht0.
      destruct (Htot1 pid t0 Hpid Ht0) as (t1 & Ht1 & Hp1 & Hs1 & Hn1).
      destruct (Htot pid t1 Hpid Ht1) as (t & Ht & Hp & Hs & Hn).
      exists t. rewrite !Zsum_cons. repeat split; [done|lia|lia|congruence].
    + intros pid. rewrite Hpl, Hpl1. rewrite filter_cons. unfold credit, participates.
      destruct (decide (has_winner g = true
                        ∧ pid ∈ GameResult.player_id <$> Game.results g)).
      * rewrite fmap_cons, list_to_set_cons. by rewrite (assoc_L (∪)).
      * by rewrite (right_id_L ∅ (∪)).
    + rewrite fmap_cons, list_to_set_cons. by rewrite (assoc_L (∪)).
Qed.

Lemma games_loop_total gs T P A :
  results_within (dom T) gs → ∃ st, foldM game_step gs (T, P, A) = Ok st.
Proof.
  revert T P A. induction gs as [|g gs IH]; intros T P A Hall; [by eexists|].
  apply Forall_cons in Hall as [Hg Hall].
  destruct (game_step_total g T P A Hg) as ([[T1 P1] A1] & Hstep).
  rewrite foldM_cons, Hstep. simpl. apply IH.
  apply game_step_inv in Hstep as (-> & _). done.
Qed.

Lemma games_loop_fail gs T P A :
  ¬ results_within (dom T) gs →
  ∃ k, foldM game_step gs (T, P, A) = Raise (KeyError k) ∧ k ∉ dom T.
Proof.
  revert T P A. induction gs as [|g gs IH]; intros T P A Hn.
  - destruct Hn. constructor.
  - rewrite foldM_cons.
    destruct (decide (Forall (λ r, GameResult.player_id r ∈ dom T) (Game.results g)))
      as [Hg|Hg].
    + destruct (game_step_total g T P A Hg) as ([[T1 P1] A1] & Hstep).
      rewrite Hstep. simpl.
      apply game_step_inv in Hstep as (Hd & _).
      rewrite <- Hd. apply IH. rewrite Hd. intros Hall. apply Hn. by constructor.
    + destruct (game_step_fail g T P A Hg) as (k & -> & Hk). by exists k.
Qed.

(** ** Results about the accumulators before the loop over the tables *)

Lemma active_players_perm s :
  active_players s ≡ₚ filter (λ p, Player.active p = true) (players s).
Proof. apply stable_sort_perm. Qed.

Lemma ordered_games_perm s : ordered_games s ≡ₚ games s.
Proof. apply stable_sort_perm. Qed.

Lemma init_totals_acc (ps : list Player.t) (d : gmap Z Totals.t) :
  let T := foldl (λ d p, <[Player.id p := Totals.mk (Player.name p) 0 0 0 0 0]> d) d ps in
  dom T = dom d ∪ list_to_set (Player.id <$> ps)
  ∧ ∀ pid t, T !! pid = Some t →
      d !! pid = Some t ∨ (Totals.points t = 0 ∧ Totals.saves t = 0).
Proof.
  revert d. induction ps as [|p ps IH]; intros d; simpl.
  - split; [set_solver|]. intros pid t Ht. by left.
  - destruct (IH (<[Player.id p := Totals.mk (Player.name p) 0 0 0 0 0]> d)) as [Hd Hl].
    split.
    + rewrite Hd, dom_insert_L. set_solver.
    + intros pid t Ht. destruct (Hl pid t Ht) as [Hins|?]; [|by right].
      destruct (decide (Player.id p = pid)) as [<-|Hne].
      * rewrite lookup_insert_eq in Hins. injection Hins as <-. by right.
      * rewrite lookup_insert_ne in Hins by done. by left.
Qed.

Lemma init_totals_dom ps : dom (init_totals ps) = list_to_set (Player.id <$> ps).
Proof.
  unfold init_totals. destruct (init_totals_acc ps ∅) as [-> _].
  rewrite dom_empty_L. set_solver.
Qed.

Lemma init_totals_lookup ps pid t :
  init_totals ps !! pid = Some t → Totals.points t = 0 ∧ Totals.saves t = 0.
Proof.
  unfold init_totals. destruct (init_totals_acc ps ∅) as [_ Hl].
  intros Ht. by destruct (Hl pid t Ht) as [?|?].
Qed.

Lemma init_totals_active s : dom (init_totals (active_players s)) = active_ids s.
Proof.
  rewrite init_totals_dom. unfold active_ids. by rewrite active_players_perm.
Qed.

Lemma rounds_loop_inv ris A R :
  ∃ R', foldl round_step (A, R) ris = (A ∪ list_to_set (RoundInfo.number <$> ris), R')
    ∧ ∀ pid, pid ≠ 0 →
        default 0 (R' !! pid)
        = default 0 (R !! pid)
          + Z.of_nat (length (filter (λ ri, RoundInfo.bye_player_id ri = Some pid) ris)).
Proof.
  revert A R. induction ris as [|ri ris IH]; intros A R.
  - exists R. simpl. split; [f_equal; set_solver|]. intros; lia.
  - cbn [foldl]. unfold round_step at 2.
    destruct (RoundInfo.bye_player_id ri) as [b|] eqn:Eb; simpl.
    + destruct (Z.eqb_spec b 0) as [->|Hb]; simpl.
      * destruct (IH (A ∪ {[RoundInfo.number ri]}) R) as (R' & -> & HR).
        exists R'. split; [f_equal; set_solver|].
        intros pid Hpid. rewrite HR by done. rewrite filter_cons_False; [done|].
        rewrite Eb. congruence.
      * destruct (IH (A ∪ {[RoundInfo.number ri]}) (<[b := default 0 (R !! b) + 1]> R))
          as (R' & -> & HR).
        exists R'. split; [f_equal; set_solver|].
        intros pid Hpid. rewrite HR by done.
        destruct (decide (b = pid)) as [->|Hne].
        -- rewrite lookup_insert_eq, filter_cons_True by done. simpl. lia.
        -- rewrite lookup_insert_ne, filter_cons_False by congruence. done.
    + destruct (IH (A ∪ {[RoundInfo.number ri]}) R) as (R' & -> & HR).
      exists R'. split; [f_equal; set_solver|].
      intros pid Hpid. rewrite HR by done. rewrite filter_cons_False; [done|].
      rewrite Eb. congruence.
Qed.

(** ** The accumulators after the loop over the tables *)

Lemma tally_inv s T P A R :
  tally s = Ok (T, P, A, R) →
  dom T = active_ids s
  ∧ results_within (active_ids s) (games s)
  ∧ (∀ pid t, pid ≠ 0 → T !! pid = Some t →
       Totals.points t = Zsum (score_at pid) (games s) + Zsum (save_at pid) (games s)
       ∧ Totals.saves t = Zsum (save_at pid) (games s))
  ∧ (∀ pid, default ∅ (P !! pid) = credited_rounds s pid)
  ∧ A = planned_rounds s
  ∧ (∀ pid, pid ≠ 0 → default 0 (R !! pid) = designated_byes s pid).
Proof.
  unfold tally.
  destruct (rounds_loop_inv (round_infos s) ∅ ∅) as (R' & -> & HR).
  rewrite bind_Ok. intros ([[T1 P1] A1] & Hloop & [= <- <- <- <-]).
  apply games_loop_inv in Hloop as (Hd & Hall & Htot & Hpl & ->).
  rewrite init_totals_active in Hd, Hall.
  split; [done|]. split.
  { unfold results_within in *. by rewrite <- ordered_games_perm. }
  split; [|split; [|split]].
  - intros pid t Hpid Ht.
    assert (pid ∈ dom (init_totals (active_players s))) as [t0 Ht0]%elem_of_dom.
    { rewrite init_totals_active, <- Hd. by eapply elem_of_dom_2. }
    destruct (Htot pid t0 Hpid Ht0) as (t' & Ht' & Hp & Hs & _).
    apply init_totals_lookup in Ht0 as [Hp0 Hs0].
    assert (t' = t) as -> by congruence.
    rewrite !(Zsum_perm _ _ _ (ordered_games_perm s)) in Hp.
    rewrite (Zsum_perm _ _ _ (ordered_games_perm s)) in Hs. lia.
  - intros pid. rewrite Hpl, lookup_empty. simpl. unfold credited_rounds.
    rewrite (left_id_L ∅ (∪)). by rewrite ordered_games_perm.
  - unfold planned_rounds. rewrite (left_id_L ∅ (∪)). by rewrite ordered_games_perm.
  - intros pid Hpid. rewrite HR by done. rewrite lookup_empty. simpl.
    unfold designated_byes. lia.
Qed.

Lemma tally_total s :
  results_within (active_ids s) (games s) → ∃ st, tally s = Ok st.
Proof.
  intros Hall. unfold tally.
  destruct (rounds_loop_inv (round_infos s) ∅ ∅) as (R' & -> & _).
  destruct (games_loop_total (ordered_games s) (init_totals (active_players s)) ∅
              (∅ ∪ list_to_set (RoundInfo.number <$> round_infos s)))
    as ([[T P] A] & ->).
  - rewrite init_totals_active. unfold results_within in *.
    by rewrite ordered_games_perm.
  - by eexists.
Qed.

Lemma tally_fail s :
  ¬ results_within (active_ids s) (games s) →
  ∃ k, tally s = Raise (KeyError k) ∧ k ∉ active_ids s.
Proof.
  intros Hn. unfold tally.
  destruct (rounds_loop_inv (round_infos s) ∅ ∅) as (R' & -> & _).
  destruct (games_loop_fail (ordered_games s) (init_totals (active_players s)) ∅
              (∅ ∪ list_to_set (RoundInfo.number <$> round_infos s)))
    as (k & -> & Hk).
  - rewrite init_totals_active. unfold results_within in *.
    by rewrite ordered_games_perm.
  - rewrite init_totals_active in Hk. by exists k.
Qed.

(** ** Results about insertion-ordered dictionaries *)

Section dict.
Context {V : Type}.
Implicit Types (d : list (Z * V)) (k : Z) (v : V).

Lemma dict_set_keys_in d k v : k ∈ keys d → keys (dict_set d k v) = keys d.
Proof.
  unfold keys. induction d as [|[k' v'] d IH]; intros Hk; [by apply elem_of_nil in Hk|].
  simpl. destruct (decide (k' = k)) as [->|Hne]; [done|].
  rewrite fmap_cons. simpl. f_equal. apply IH.
  rewrite fmap_cons in Hk. apply elem_of_cons in Hk as [?|?]; [simpl in *; congruence|done].
Qed.

Lemma dict_set_keys_notin d k v : k ∉ keys d → keys (dict_set d k v) = keys d ++ [k].
Proof.
  unfold keys. induction d as [|[k' v'] d IH]; intros Hk; [done|].
  rewrite fmap_cons in Hk. apply not_elem_of_cons in Hk as [Hne Hk]. simpl in Hne.
  simpl. rewrite decide_False by done. rewrite fmap_cons. simpl. f_equal. by apply IH.
Qed.

Lemma dict_set_keys_elem_of d k v q : q ∈ keys (dict_set d k v) ↔ q = k ∨ q ∈ keys d.
Proof.
  destruct (decide (k ∈ keys d)) as [Hk|Hk].
  - rewrite dict_set_keys_in by done. naive_solver.
  - rewrite dict_set_keys_notin by done. rewrite elem_of_app, list_elem_of_singleton.
    naive_solver.
Qed.

Lemma dict_set_NoDup d k v : NoDup (keys d) → NoDup (keys (dict_set d k v)).
Proof.
  intros Hnd. destruct (decide (k ∈ keys d)) as [Hk|Hk].
  - by rewrite dict_set_keys_in.
  - rewrite dict_set_keys_notin by done. apply NoDup_app. split; [done|].
    split; [|apply NoDup_singleton].
    intros q Hq ->%list_elem_of_singleton. done.
Qed.

Lemma dict_set_length_in d k v : k ∈ keys d → length (dict_set d k v) = length d.
Proof.
  intros Hk. pose proof (f_equal length (dict_set_keys_in d k v Hk)) as H.
  unfold keys in H. by rewrite !length_fmap in H.
Qed.

Lemma dict_set_elem_of d k v q w :
  NoDup (keys d) →
  (q, w) ∈ dict_set d k v ↔ (q = k ∧ w = v) ∨ (q ≠ k ∧ (q, w) ∈ d).
Proof.
  unfold keys. induction d as [|[k' v'] d IH]; simpl; intros Hnd.
  - rewrite list_elem_of_singleton. split.
    + intros [= -> ->]. by left.
    + intros [[-> ->]|[_ ?%elem_of_nil]]; done.
  - apply NoDup_cons in Hnd as [Hk' Hnd]. specialize (IH Hnd).
    destruct (decide (k' = k)) as [->|Hne].
    + rewrite !elem_of_cons. split.
      * intros [[= -> ->]|Hin]; [by left|]. right. split; [|by right].
        intros ->. apply Hk'. apply list_elem_of_fmap. by exists (k, w).
      * intros [[-> ->]|[Hq [[= ? ?]|Hin]]]; [by left|done|by right].
    + rewrite !elem_of_cons, IH. split.
      * intros [[= -> ->]|[[-> ->]|[Hq Hin]]].
        -- right. split; [done|by left].
        -- by left.
        -- right. split; [done|by right].
      * intros [[-> ->]|[Hq [[= -> ->]|Hin]]].
        -- right. by left.
        -- by left.
        -- right. right. by split.
Qed.

Lemma dict_get_elem_of d k v : NoDup (keys d) → (k, v) ∈ d → dict_get d k = Ok v.
Proof.
  unfold keys. induction d as [|[k' v'] d IH]; simpl; intros Hnd Hin;
    [by apply elem_of_nil in Hin|].
  apply NoDup_cons in Hnd as [Hk' Hnd].
  apply elem_of_cons in Hin as [[= -> ->]|Hin].
  - by rewrite decide_True.
  - rewrite decide_False; [by apply IH|].
    intros ->. apply Hk'. apply list_elem_of_fmap. by exists (k, v).
Qed.

Lemma dict_get_keys d k : k ∈ keys d → ∃ v, dict_get d k = Ok v.
Proof.
  unfold keys. induction d as [|[k' v'] d IH]; simpl; intros Hin;
    [by apply elem_of_nil in Hin|].
  destruct (decide (k' = k)) as [->|Hne]; [by eexists|].
  apply IH. apply elem_of_cons in Hin as [?|?]; [simpl in *; congruence|done].
Qed.

End dict.

Lemma dict_set_Forall {V} (Q : Z * V → Prop) d k v :
  Forall Q d → Q (k, v) → Forall Q (dict_set d k v).
Proof.
  intros Hd Hkv. induction Hd as [|[k' v'] d Hx Hd IH]; simpl.
  - by repeat constructor.
  - destruct (decide (k' = k)); by constructor.
Qed.

(** ** Results about the loop over the players *)

Section players_loop.
Context (T : gmap Z Totals.t) (P : gmap Z (gset Z)) (R : gmap Z Z) (tr : Z).

Lemma player_step_Ok pp p pp' :
  player_step T P R tr pp p = Ok pp' →
  ∃ me, pp' = dict_set pp (Player.id p) me ∧ row_for T P R tr (Player.id p) me
    ∧ PerPlayer.status me = None.
Proof.
  unfold player_step. rewrite bind_Ok.
  intros (t & Ht%subscript_Ok & [= <-]). eexists. split; [done|].
  split; [|done]. exists t. by repeat split.
Qed.

Lemma players_loop_inv ps pp0 pp :
  foldM (player_step T P R tr) ps pp0 = Ok pp →
  (NoDup (keys pp0) → NoDup (keys pp))
  ∧ (∀ q, q ∈ keys pp ↔ q ∈ keys pp0 ∨ q ∈ Player.id <$> ps)
  ∧ (Forall (λ e, row_for T P R tr e.1 e.2 ∧ PerPlayer.status e.2 = None) pp0 →
     Forall (λ e, row_for T P R tr e.1 e.2 ∧ PerPlayer.status e.2 = None) pp).
Proof.
  revert pp0. induction ps as [|p ps IH]; intros pp0 H.
  - injection H as <-. split; [done|]. split; [|done].
    intros q. rewrite fmap_nil, elem_of_nil. tauto.
  - rewrite foldM_cons, bind_Ok in H. destruct H as (pp1 & Hstep & H).
    apply player_step_Ok in Hstep as (me & -> & Hrow & Hst).
    apply IH in H as (Hnd & Hk & Hall). split; [|split].
    + intros H0. apply Hnd. by apply dict_set_NoDup.
    + intros q. rewrite Hk, dict_set_keys_elem_of, fmap_cons, elem_of_cons. tauto.
    + intros H0. apply Hall. by apply dict_set_Forall.
Qed.

Lemma players_loop_total ps pp0 :
  Forall (λ p, Player.id p ∈ dom T) ps →
  ∃ pp, foldM (player_step T P R tr) ps pp0 = Ok pp.
Proof.
  revert pp0. induction ps as [|p ps IH]; intros pp0 Hall; [by eexists|].
  apply Forall_cons in Hall as [[t Ht]%elem_of_dom Hall].
  rewrite foldM_cons.
  destruct (player_step T P R tr pp0 p) as [pp1|e] eqn:E; [simpl; by apply IH|].
  unfold player_step, subscript in E. by rewrite Ht in E.
Qed.
End players_loop.

(** ** Results about the loop over the verdicts *)

Lemma rivals_erase (f : PerPlayer.t → Z) pp pid :
  (∀ me, f (set_status me None) = f me) →
  f <$> rivals (erase pp) pid = f <$> rivals pp pid.
Proof.
  intros Hf. unfold rivals, erase. induction pp as [|[k v] pp IH]; [done|].
  rewrite fmap_cons, !filter_cons. simpl.
  destruct (decide (k ≠ pid)); [|done]. rewrite !fmap_cons. simpl. by rewrite Hf, IH.
Qed.

Lemma rivals_same (f : PerPlayer.t → Z) pp pp' pid :
  (∀ me, f (set_status me None) = f me) →
  erase pp' = erase pp → f <$> rivals pp' pid = f <$> rivals pp pid.
Proof.
  intros Hf He. by rewrite <- (rivals_erase f pp'), <- (rivals_erase f pp), He.
Qed.

Lemma verdict_of_same pp pp' pid me :
  erase pp' = erase pp → verdict_of pp pid me → verdict_of pp' pid me.
Proof.
  intros He (fl & fu & H1 & H2 & H3). exists fl, fu.
  by rewrite !(rivals_same _ pp pp' pid) by done.
Qed.

Lemma erase_keys pp : keys (erase pp) = keys pp.
Proof. unfold keys, erase. rewrite <- list_fmap_compose. by apply list_fmap_ext. Qed.

Lemma erase_dict_set pp pid me st :
  dict_get pp pid = Ok me → erase (dict_set pp pid (set_status me st)) = erase pp.
Proof.
  unfold erase. induction pp as [|[k v] pp IH]; simpl; [done|].
  destruct (decide (k = pid)) as [->|Hne].
  - by intros [= ->].
  - intros H. rewrite !fmap_cons. by rewrite IH.
Qed.

Lemma erase_elem_of pp pp' q me' :
  erase pp' = erase pp → (q, me') ∈ pp' →
  ∃ me, (q, me) ∈ pp ∧ set_status me None = set_status me' None.
Proof.
  intros He Hin.
  assert ((q, set_status me' None) ∈ erase pp) as Hin'.
  { rewrite <- He. unfold erase. apply list_elem_of_fmap. by exists (q, me'). }
  unfold erase in Hin'. apply list_elem_of_fmap in Hin' as ([k me] & Heq & Hin').
  pose proof (f_equal fst Heq) as Hk. pose proof (f_equal snd Heq) as Hme.
  simpl in Hk, Hme. subst k. by exists me.
Qed.

Lemma row_for_same T P R tr q me me' :
  set_status me None = set_status me' None →
  row_for T P R tr q me → row_for T P R tr q me'.
Proof.
  intros H (t & Ht & H1 & H2 & H3 & H4 & H5 & H6 & H7 & H8). exists t.
  pose proof (f_equal PerPlayer.points H) as E1.
  pose proof (f_equal PerPlayer.saves H) as E2.
  pose proof (f_equal PerPlayer.played H) as E3.
  pose proof (f_equal PerPlayer.rests H) as E4.
  pose proof (f_equal PerPlayer.planned_to_play H) as E5.
  pose proof (f_equal PerPlayer.remaining H) as E6.
  pose proof (f_equal PerPlayer.lb H) as E7.
  pose proof (f_equal PerPlayer.ub H) as E8.
  simpl in *. repeat split; congruence.
Qed.

Lemma rivals_length pp pid :
  NoDup (keys pp) → pid ∈ keys pp → S (length (rivals pp pid)) = length pp.
Proof.
  unfold rivals, keys. rewrite length_fmap.
  induction pp as [|[k v] pp IH]; intros Hnd Hin; [by apply elem_of_nil in Hin|].
  rewrite fmap_cons in Hnd, Hin. apply NoDup_cons in Hnd as [Hk Hnd]. simpl in Hk.
  rewrite filter_cons. simpl. destruct (decide (k ≠ pid)) as [Hne|Heq].
  - simpl. f_equal. apply IH; [done|].
    apply elem_of_cons in Hin as [?|?]; [simpl in *; congruence|done].
  - apply dec_stable in Heq. subst k. simpl. f_equal.
    rewrite filter_Forall_id; [done|].
    apply Forall_forall. intros [q w] Hqw Heq. simpl in Heq. subst q. apply Hk.
    apply list_elem_of_fmap. by exists (pid, w).
Qed.

Lemma verdict_step_Ok pp pid pp' :
  verdict_step pp pid = Ok pp' →
  ∃ me st, dict_get pp pid = Ok me
    ∧ pp' = dict_set pp pid (set_status me st)
    ∧ verdict_of pp pid (set_status me st).
Proof.
  unfold verdict_step. rewrite bind_Ok. intros (me & Hme & H).
  rewrite bind_Ok in H. destruct H as (fl & Hfl%list_item_Ok & H).
  rewrite bind_Ok in H. destruct H as (fu & Hfu%list_item_Ok & [= <-]).
  eexists me, _. split; [done|]. split; [done|]. by exists fl, fu.
Qed.

Lemma verdict_loop_inv ids pp pp' :
  NoDup (keys pp) → NoDup ids →
  foldM verdict_step ids pp = Ok pp' →
  erase pp' = erase pp
  ∧ ∀ q me', (q, me') ∈ pp' →
      (q ∈ ids → verdict_of pp q me') ∧ (q ∉ ids → (q, me') ∈ pp).
Proof.
  revert pp. induction ids as [|pid ids IH]; intros pp Hnd Hids H.
  - injection H as <-. split; [done|]. intros q me' Hin. split; [|done].
    by intros ?%elem_of_nil.
  - rewrite foldM_cons, bind_Ok in H. destruct H as (pp1 & Hstep & H).
    apply verdict_step_Ok in Hstep as (me & st & Hme & -> & Hv).
    pose proof (erase_dict_set pp pid me st Hme) as He1.
    apply NoDup_cons in Hids as [Hpid Hids].
    apply IH in H as (He & Hrows); [|by apply dict_set_NoDup|done].
    split; [congruence|].
    intros q me' Hin. destruct (Hrows q me' Hin) as [Hin_ids Hnot_ids]. split.
    + intros [->|Hq]%elem_of_cons.
      * apply Hnot_ids in Hpid.
        apply dict_set_elem_of in Hpid as [[_ ->]|[? _]]; done.
      * eapply verdict_of_same; [|by apply Hin_ids]. done.
    + intros [Hne Hq]%not_elem_of_cons.
      apply Hnot_ids in Hq. apply dict_set_elem_of in Hq as [[? _]|[_ ?]]; done.
Qed.

Lemma sorted_length {A K} (kle : K → K → bool) (key : A → K) rev l :
  length (sorted kle key rev l) = length l.
Proof. apply stable_sort_length. Qed.

Lemma verdict_step_total pp pid :
  NoDup (keys pp) → pid ∈ keys pp → (5 ≤ length pp)%nat →
  ∃ pp', verdict_step pp pid = Ok pp'.
Proof.
  intros Hnd Hin Hlen. unfold verdict_step.
  destruct (dict_get_keys pp pid Hin) as [me ->]. simpl.
  pose proof (rivals_length pp pid Hnd Hin) as Hr.
  destruct (lookup_lt_is_Some_2 (sorted Z.leb id true (PerPlayer.lb <$> rivals pp pid)) 3)
    as [fl Hfl]; [rewrite sorted_length, length_fmap; lia|].
  destruct (lookup_lt_is_Some_2 (sorted Z.leb id true (PerPlayer.ub <$> rivals pp pid)) 3)
    as [fu Hfu]; [rewrite sorted_length, length_fmap; lia|].
  unfold list_item. rewrite Hfl, Hfu. simpl. by eexists.
Qed.

Lemma verdict_loop_total ids pp :
  NoDup (keys pp) → ids ⊆ keys pp → (5 ≤ length pp)%nat →
  ∃ pp', foldM verdict_step ids pp = Ok pp'.
Proof.
  revert pp. induction ids as [|pid ids IH]; intros pp Hnd Hsub Hlen; [by eexists|].
  assert (pid ∈ keys pp) as Hpid by (apply Hsub; left).
  destruct (verdict_step_total pp pid Hnd Hpid Hlen) as [pp1 Hstep].
  rewrite foldM_cons, Hstep. simpl.
  apply verdict_step_Ok in Hstep as (me & st & Hme & -> & _).
  apply IH.
  - by apply dict_set_NoDup.
  - rewrite dict_set_keys_in by done. intros q Hq. apply Hsub. by right.
  - by rewrite dict_set_length_in.
Qed.

Lemma verdict_loop_few pp :
  NoDup (keys pp) → (0 < length pp < 5)%nat →
  foldM verdict_step (keys pp) pp = Raise IndexError.
Proof.
  intros Hnd Hlen. destruct pp as [|[k v] pp]; [simpl in Hlen; lia|].
  assert (k ∈ keys ((k, v) :: pp)) as Hin by left.
  pose proof (rivals_length _ k Hnd Hin) as Hr.
  unfold keys. rewrite fmap_cons, foldM_cons. cbn [fst].
  assert (verdict_step ((k, v) :: pp) k = Raise IndexError) as ->; [|done].
  unfold verdict_step. cbn [dict_get]. rewrite decide_True by done.
  cbn [mbind result_bind].
  assert (list_item (sorted Z.leb id true (PerPlayer.lb <$> rivals ((k, v) :: pp) k)) 3
          = Raise IndexError) as ->; [|done].
  unfold list_item. rewrite lookup_ge_None_2; [done|].
  rewrite sorted_length, length_fmap. cbn [length] in Hlen, Hr. lia.
Qed.

(** ** The fourth best rival *)

Lemma sorted_desc_strongly l :
  StronglySorted (λ x y : Z, y ≤ x) (sorted Z.leb id true l).
Proof.
  apply Sorted_StronglySorted.
  - intros x y z. lia.
  - eapply Sorted_weaken; [|apply stable_sort_Sorted].
    + intros x y H. simpl in H. by apply Z.leb_le in H.
    + intros x y H. simpl in *. apply Z.leb_gt in H. apply Z.leb_le. unfold id. lia.
Qed.

Lemma sorted_desc_kth l k v :
  sorted Z.leb id true l !! k = Some v → kth_highest k l v.
Proof.
  intros Hk. pose proof (sorted_desc_strongly l) as Hs.
  assert (sorted Z.leb id true l ≡ₚ l) as Hp by apply stable_sort_perm.
  unfold kth_highest. rewrite <- !Hp. clear Hp.
  split; [by eapply list_elem_of_lookup_2|].
  pose proof (lookup_lt_Some _ _ _ Hk) as Hlen.
  rewrite <- (take_drop_middle _ _ _ Hk) in Hs |- *.
  apply StronglySorted_app in Hs as (Hcross & _ & Hs2).
  apply StronglySorted_inv in Hs2 as [_ Hs2].
  rewrite !filter_app, !length_app. split.
  - rewrite (filter_Forall_nil _ (v :: _)).
    + pose proof (length_filter (λ x : Z, v < x) (take k (sorted Z.leb id true l))).
      rewrite length_take in H. simpl. lia.
    + constructor; [lia|]. eapply Forall_impl; [exact Hs2|]. simpl. lia.
  - rewrite filter_Forall_id.
    + rewrite filter_cons_True by lia. rewrite length_take. simpl. lia.
    + apply Forall_forall. intros x Hx. apply (Hcross x v Hx). left.
Qed.

(** ** The dictionary [per_player] *)

Lemma active_players_ids s q :
  q ∈ Player.id <$> active_players s ↔ q ∈ active_ids s.
Proof.
  unfold active_ids. by rewrite elem_of_list_to_set, active_players_perm.
Qed.

Lemma standings_inv s pp tr :
  standings s = Ok (pp, tr) →
  ∃ T P A R, tally s = Ok (T, P, A, R)
    ∧ tr = Z.of_nat (size A)
    ∧ NoDup (keys pp)
    ∧ (∀ q, q ∈ keys pp ↔ q ∈ active_ids s)
    ∧ (∀ q me, (q, me) ∈ pp → row_for T P R tr q me ∧ verdict_of pp q me).
Proof.
  unfold standings. rewrite bind_Ok. intros ([[[T P] A] R] & Htally & H).
  rewrite bind_Ok in H. destruct H as (pp0 & Hplayers & H).
  rewrite bind_Ok in H. destruct H as (pp1 & Hverdicts & [= <- <-]).
  apply players_loop_inv in Hplayers as (Hnd & Hkeys & Hrows).
  specialize (Hnd (NoDup_nil_2)). specialize (Hrows (Forall_nil_2 _)).
  apply verdict_loop_inv in Hverdicts as (He & Hv); [|done|done].
  assert (keys pp1 = keys pp0) as Hk.
  { by rewrite <- (erase_keys pp1), He, erase_keys. }
  exists T, P, A, R. split; [done|]. split; [done|]. split; [by rewrite Hk|]. split.
  - intros q. rewrite Hk, Hkeys, <- active_players_ids.
    unfold keys. rewrite fmap_nil, elem_of_nil. tauto.
  - intros q me Hin. split.
    + destruct (erase_elem_of _ _ _ _ He Hin) as (me0 & Hin0 & Hsame).
      rewrite Forall_forall in Hrows. destruct (Hrows _ Hin0) as [Hrow _].
      by eapply row_for_same.
    + eapply verdict_of_same; [exact He|]. apply (Hv q me Hin).
      fold (keys pp0). rewrite <- Hk. apply list_elem_of_fmap. by exists (q, me).
Qed.

Lemma players_loop_length s T P R tr pp :
  foldM (player_step T P R tr) (active_players s) [] = Ok pp →
  NoDup (keys pp) ∧ length pp = size (active_ids s)
  ∧ ∀ q, q ∈ keys pp ↔ q ∈ active_ids s.
Proof.
  intros (Hnd & Hkeys & _)%players_loop_inv. specialize (Hnd (NoDup_nil_2)).
  assert (∀ q, q ∈ keys pp ↔ q ∈ active_ids s) as Hk.
  { intros q. rewrite Hkeys, <- active_players_ids.
    unfold keys. rewrite fmap_nil, elem_of_nil. tauto. }
  split; [done|]. split; [|done].
  assert (active_ids s = list_to_set (keys pp)) as ->.
  { apply set_eq. intros q. by rewrite elem_of_list_to_set, Hk. }
  rewrite size_list_to_set by done. unfold keys. by rewrite length_fmap.
Qed.

Lemma tally_players_total s T P A R tr :
  tally s = Ok (T, P, A, R) →
  ∃ pp, foldM (player_step T P R tr) (active_players s) [] = Ok pp.
Proof.
  intros (Hdom & _)%tally_inv. apply players_loop_total.
  apply Forall_forall. intros p Hp. rewrite Hdom, <- active_players_ids.
  apply list_elem_of_fmap. by exists p.
Qed.

Lemma standings_total s :
  results_within (active_ids s) (games s) →
  size (active_ids s) = 0%nat ∨ (5 ≤ size (active_ids s))%nat →
  ∃ pp tr, standings s = Ok (pp, tr).
Proof.
  intros Hres Hsize. unfold standings.
  destruct (tally_total s Hres) as ([[[T P] A] R] & Htally). rewrite Htally. simpl.
  destruct (tally_players_total s T P A R (Z.of_nat (size A)) Htally) as (pp0 & Hp).
  rewrite Hp. simpl.
  apply players_loop_length in Hp as (Hnd & Hlen & _).
  destruct Hsize as [Hz|Hge].
  - destruct pp0; [|simpl in Hlen; lia]. by eexists _, _.
  - destruct (verdict_loop_total (keys pp0) pp0) as (pp1 & Hv); [done|done|lia|].
    fold (keys pp0). rewrite Hv. by eexists _, _.
Qed.

Lemma standings_few s :
  results_within (active_ids s) (games s) →
  (0 < size (active_ids s) < 5)%nat →
  standings s = Raise IndexError.
Proof.
  intros Hres Hsize. unfold standings.
  destruct (tally_total s Hres) as ([[[T P] A] R] & Htally). rewrite Htally. simpl.
  destruct (tally_players_total s T P A R (Z.of_nat (size A)) Htally) as (pp0 & Hp).
  rewrite Hp. simpl.
  apply players_loop_length in Hp as (Hnd & Hlen & _).
  fold (keys pp0). rewrite verdict_loop_few; [done|done|lia].
Qed.

Lemma standings_inactive_result s :
  ¬ results_within (active_ids s) (games s) →
  ∃ k, standings s = Raise (KeyError k) ∧ k ∉ active_ids s.
Proof.
  intros Hn. destruct (tally_fail s Hn) as (k & Hk & Hnot).
  exists k. split; [|done]. unfold standings. by rewrite Hk.
Qed.

Lemma index_Ok s ctx :
  index s = Ok ctx ↔
  ∃ pp tr, standings s = Ok (pp, tr)
    ∧ ctx = {| table := make_table pp; participation := make_participation pp;
               total_rounds := tr |}.
Proof.
  unfold index. rewrite bind_Ok. split.
  - intros ([pp tr] & H & [= <-]). by exists pp, tr.
  - intros (pp & tr & H & ->). by exists (pp, tr).
Qed.

(** ** The standings table *)

Lemma make_table_elem_of pp r :
  r ∈ make_table pp → ∃ e, e ∈ pp ∧ Row.id r = e.1 ∧ Row.status r = PerPlayer.status e.2.
Proof.
  rewrite make_table_eq. intros (t & -> & Ht)%list_elem_of_fmap.
  unfold sorted_rows, sorted in Ht. rewrite !stable_sort_elem_of in Ht.
  apply list_elem_of_fmap in Ht as (e & -> & He). by exists e.
Qed.

Lemma make_table_ids pp : Row.id <$> make_table pp ≡ₚ keys pp.
Proof.
  rewrite make_table_eq, <- list_fmap_compose.
  rewrite (list_fmap_ext _ Row.id (sorted_rows pp)) by done.
  unfold sorted_rows, sorted. rewrite !stable_sort_perm.
  unfold keys. rewrite <- list_fmap_compose.
  by rewrite (list_fmap_ext _ fst pp).
Qed.

Lemma make_table_NoDup pp : NoDup (keys pp) → NoDup (Row.id <$> make_table pp).
Proof. intros H. by rewrite make_table_ids. Qed.

Lemma dict_functional {V} (d : list (Z * V)) k v1 v2 :
  NoDup (keys d) → (k, v1) ∈ d → (k, v2) ∈ d → v1 = v2.
Proof.
  intros Hnd H1 H2.
  apply (dict_get_elem_of d k v1 Hnd) in H1.
  apply (dict_get_elem_of d k v2 Hnd) in H2. congruence.
Qed.

(** ** Active players and their rows *)

Lemma active_ids_elem_of s q :
  q ∈ active_ids s ↔ ∃ p, p ∈ players s ∧ Player.active p = true ∧ Player.id p = q.
Proof.
  unfold active_ids. rewrite elem_of_list_to_set, list_elem_of_fmap. split.
  - intros (p & -> & [Ha Hp]%list_elem_of_filter). by exists p.
  - intros (p & Hp & Ha & <-). exists p. split; [done|]. by apply list_elem_of_filter.
Qed.

Lemma standings_row s pp tr p :
  standings s = Ok (pp, tr) → p ∈ players s → Player.active p = true →
  ∃ me, (Player.id p, me) ∈ pp.
Proof.
  intros (T & P & A & R & _ & _ & _ & Hkeys & _)%standings_inv Hp Ha.
  assert (Player.id p ∈ keys pp) as Hin.
  { apply Hkeys, active_ids_elem_of. by exists p. }
  apply list_elem_of_fmap in Hin as ([q me] & Hq & Hin). simpl in Hq. subst q.
  by exists me.
Qed.

Lemma index_rows_active s ctx :
  index s = Ok ctx →
  NoDup (Row.id <$> table ctx)
  ∧ ∀ q, q ∈ Row.id <$> table ctx ↔ q ∈ active_ids s.
Proof.
  intros (pp & tr & Hst & ->)%index_Ok. simpl.
  apply standings_inv in Hst as (T & P & A & R & _ & _ & Hnd & Hkeys & _).
  split; [by apply make_table_NoDup|].
  intros q. by rewrite make_table_ids, Hkeys.
Qed.

Lemma index_total s :
  results_within (active_ids s) (games s) →
  size (active_ids s) = 0%nat ∨ (5 ≤ size (active_ids s))%nat →
  ∃ ctx, index s = Ok ctx.
Proof.
  intros Hres Hsize. destruct (standings_total s Hres Hsize) as (pp & tr & H).
  eexists. apply index_Ok. by exists pp, tr.
Qed.

Lemma index_few s :
  results_within (active_ids s) (games s) →
  (0 < size (active_ids s) < 5)%nat →
  index s = Raise IndexError.
Proof. intros Hres Hsize. unfold index. by rewrite standings_few. Qed.

Lemma index_inactive_result s :
  ¬ results_within (active_ids s) (games s) →
  ∃ k, index s = Raise (KeyError k) ∧ k ∉ active_ids s.
Proof.
  intros Hn. destruct (standings_inactive_result s Hn) as (k & Hk & Hnot).
  exists k. split; [|done]. unfold index. by rewrite Hk.
Qed.

(** ** The played tables *)

Lemma has_winner_played g : has_winner g = true ↔ played_table g.
Proof.
  unfold has_winner, played_table. rewrite orb_true_iff, existsb_exists.
  split; (intros [(r & Hr & Hpos)|?]; [left|by right]); exists r.
  - apply list_elem_of_In in Hr. by apply bool_decide_eq_true in Hpos.
  - split; [by apply list_elem_of_In|]. by apply bool_decide_eq_true.
Qed.

Lemma credited_rounds_elem_of s pid n :
  n ∈ credited_rounds s pid ↔
  ∃ g, g ∈ games s ∧ played_table g ∧ participates pid g ∧ Game.round_number g = n.
Proof.
  unfold credited_rounds. rewrite elem_of_list_to_set, list_elem_of_fmap. split.
  - intros (g & -> & [[Hw Hp] Hg]%list_elem_of_filter).
    exists g. by rewrite <- has_winner_played.
  - intros (g & Hg & Hw%has_winner_played & Hp & <-).
    exists g. split; [done|]. by apply list_elem_of_filter.
Qed.

(** ** Save designations of non-active players *)

Lemma foldM_ext {A S} (f f' : S → A → result S) l s :
  (∀ s x, f s x = f' s x) → foldM f l s = foldM f' l s.
Proof.
  intros Hf. revert s. induction l as [|x l IH]; intros s; [done|].
  rewrite !foldM_cons, Hf. destruct (f' s x); simpl; [apply IH|done].
Qed.

Lemma game_step_drop D T P A g :
  dom T = D → game_step (T, P, A) (drop_inactive_save D g) = game_step (T, P, A) g.
Proof.
  intros <-. unfold drop_inactive_save.
  destruct (Game.save_player_id g) as [sp|] eqn:Esp; [|done].
  destruct (decide (sp ∈ dom T)) as [|Hsp]; [done|].
  unfold game_step. rewrite (apply_save_inactive T g sp Esp Hsp).
  assert (apply_save T (without_save g) = T) as -> by done.
  simpl. by rewrite (foldM_ext (result_step (without_save g)) (result_step g)).
Qed.

Lemma games_loop_drop D gs T P A :
  dom T = D →
  foldM game_step (drop_inactive_save D <$> gs) (T, P, A)
  = foldM game_step gs (T, P, A).
Proof.
  revert T P A. induction gs as [|g gs IH]; intros T P A Hd; [done|].
  rewrite fmap_cons, !foldM_cons, game_step_drop by done.
  destruct (game_step (T, P, A) g) as [[[T1 P1] A1]|e] eqn:E; [|done].
  simpl. apply IH. apply game_step_inv in E as (-> & _). done.
Qed.

Lemma ordered_games_drop s :
  ordered_games (drop_inactive_saves s)
  = drop_inactive_save (active_ids s) <$> ordered_games s.
Proof.
  unfold ordered_games, sorted. simpl. apply stable_sort_fmap.
  intros x y. unfold drop_inactive_save.
  destruct (Game.save_player_id x), (Game.save_player_id y);
    repeat case_decide; done.
Qed.

Lemma tally_drop s : tally (drop_inactive_saves s) = tally s.
Proof.
  unfold tally. rewrite ordered_games_drop.
  change (active_players (drop_inactive_saves s)) with (active_players s).
  change (round_infos (drop_inactive_saves s)) with (round_infos s).
  destruct (foldl round_step (∅, ∅) (round_infos s)) as [A R].
  by rewrite games_loop_drop by apply init_totals_active.
Qed.

Lemma index_drop_inactive_saves s : index (drop_inactive_saves s) = index s.
Proof.
  unfold index, standings. rewrite tally_drop.
  by change (active_players (drop_inactive_saves s)) with (active_players s).
Qed.

Lemma standings_row_for s pp tr p :
  standings s = Ok (pp, tr) → p ∈ players s → Player.active p = true →
  ∃ me T P A R, (Player.id p, me) ∈ pp
    ∧ tally s = Ok (T, P, A, R)
    ∧ tr = Z.of_nat (size A)
    ∧ row_for T P R tr (Player.id p) me
    ∧ verdict_of pp (Player.id p) me.
Proof.
  intros Hst Hp Ha. destruct (standings_row s pp tr p Hst Hp Ha) as [me Hme].
  apply standings_inv in Hst as (T & P & A & R & Htally & -> & _ & _ & Hrows).
  destruct (Hrows _ _ Hme) as [Hrow Hv]. by exists me, T, P, A, R.
Qed.

(** * The properties of the specification *)

(** ** Scoring *)

(** C7 (scoring rule).  [points_for_position] is a total function of the
    finish position and the sweep flag: a null position scores 0; position 1
    scores 3 with or without sweep; under sweep every other position scores
    0; without sweep position 2 scores 2, position 3 scores 1 and any other
    value scores 0. *)
Theorem points_for_position_spec (position : option Z) (sweep : bool) :
  points_for_position position sweep =
  match position, sweep with
  | None, _ => 0
  | Some 1, _ => 3
  | Some 2, false => 2
  | Some 3, false => 1
  | Some _, _ => 0
  end.
Proof.
  destruct position as [z|]; [|done].
  destruct sweep, z as [|q|q]; try done;
    destruct q as [q|q|]; try done; destruct q; done.
Qed.

(** ** Participation *)

(** C3 (participation rule).  When the loop over the tables completes, a
    table counts as played if and only if one of its results has position 1
    or its sweep flag is set; every participant of a played table, whatever
    the own position, has the round of the table in the set of played
    rounds; and these sets hold nothing else. *)
Theorem participation_rule s T P A R g :
  tally s = Ok (T, P, A, R) → g ∈ games s →
  (has_winner g = true ↔ played_table g)
  ∧ (played_table g → ∀ r, r ∈ Game.results g →
       Game.round_number g ∈ default ∅ (P !! GameResult.player_id r))
  ∧ (∀ pid n, n ∈ default ∅ (P !! pid) ↔
       ∃ g', g' ∈ games s ∧ played_table g' ∧ participates pid g'
             ∧ Game.round_number g' = n).
Proof.
  intros (_ & _ & _ & HP & _)%tally_inv Hg.
  split; [apply has_winner_played|]. split.
  - intros Hplayed r Hr. rewrite HP. apply credited_rounds_elem_of.
    exists g. repeat split; try done.
    unfold participates. apply list_elem_of_fmap. by exists r.
  - intros pid n. rewrite HP. apply credited_rounds_elem_of.
Qed.

Lemma participation_rule_witness :
  ∃ T P A R, tally demo = Ok (T, P, A, R) ∧ 2 ∈ default ∅ (P !! 5).
Proof.
  eexists _, _, _, _. split; [vm_compute; reflexivity|].
  refine (proj1 (proj2 (participation_rule demo _ _ _ _
    (Game.mk 2 1 true (Some 6)
       [ GameResult.mk 1 (Some 1); GameResult.mk 2 None;
         GameResult.mk 3 None; GameResult.mk 5 None ]) _ _))
    _ (GameResult.mk 5 None) _).
  - vm_compute; reflexivity.
  - apply list_elem_of_here.
  - by right.
  - do 3 apply list_elem_of_further. apply list_elem_of_here.
Defined.

(** ** Bounds *)

(** C4 (bounds formulas).  In computed standings every active player has a
    row in which: [planned_to_play] is max(total_rounds - rests, 0), [played]
    is the number of distinct rounds credited by the participation rule,
    [remaining] is max(planned_to_play - played, 0), [lb] is the points, [ub]
    is lb + 4 * remaining, and [rests] is the number of rounds designating
    the player as bye (player ids are non-zero); [total_rounds] is the
    number of distinct round numbers of the round records and the tables. *)
Theorem bounds_formulas s pp tr p :
  standings s = Ok (pp, tr) → p ∈ players s → Player.active p = true →
  ∃ me, (Player.id p, me) ∈ pp
    ∧ tr = Z.of_nat (size (planned_rounds s))
    ∧ (Player.id p ≠ 0 → PerPlayer.rests me = designated_byes s (Player.id p))
    ∧ PerPlayer.planned_to_play me = Z.max (tr - PerPlayer.rests me) 0
    ∧ PerPlayer.played me = Z.of_nat (size (credited_rounds s (Player.id p)))
    ∧ PerPlayer.remaining me
      = Z.max (PerPlayer.planned_to_play me - PerPlayer.played me) 0
    ∧ PerPlayer.lb me = PerPlayer.points me
    ∧ PerPlayer.ub me = PerPlayer.lb me + 4 * PerPlayer.remaining me.
Proof.
  intros Hst Hp Ha.
  destruct (standings_row_for s pp tr p Hst Hp Ha)
    as (me & T & P & A & R & Hme & Htally & -> & Hrow & _).
  destruct Hrow as (t & Ht & H1 & H2 & H3 & H4 & H5 & H6 & H7 & H8).
  apply tally_inv in Htally as (_ & _ & _ & HP & -> & HR).
  exists me. rewrite HP in H3. repeat split; try done.
  intros Hid. by rewrite H4, HR.
Qed.

Lemma bounds_formulas_witness :
  ∃ pp tr, standings demo = Ok (pp, tr)
    ∧ ∃ me, (5, me) ∈ pp
        ∧ tr = Z.of_nat (size (planned_rounds demo))
        ∧ (5 ≠ 0 → PerPlayer.rests me = designated_byes demo 5)
        ∧ PerPlayer.planned_to_play me = Z.max (tr - PerPlayer.rests me) 0
        ∧ PerPlayer.played me = Z.of_nat (size (credited_rounds demo 5))
        ∧ PerPlayer.remaining me
          = Z.max (PerPlayer.planned_to_play me - PerPlayer.played me) 0
        ∧ PerPlayer.lb me = PerPlayer.points me
        ∧ PerPlayer.ub me = PerPlayer.lb me + 4 * PerPlayer.remaining me.
Proof.
  eexists _, _. split; [vm_compute; reflexivity|].
  apply (bounds_formulas demo _ _ (Player.mk 5 "Ann" true));
    [vm_compute; reflexivity| |reflexivity].
  do 4 apply list_elem_of_further. apply list_elem_of_here.
Defined.

(** C8 (bounds monotonicity).  In computed standings the row of every active
    player satisfies lb <= points <= ub and ub >= lb. *)
Theorem bounds_monotone s pp tr p :
  standings s = Ok (pp, tr) → p ∈ players s → Player.active p = true →
  ∃ me, (Player.id p, me) ∈ pp
    ∧ PerPlayer.lb me ≤ PerPlayer.points me ≤ PerPlayer.ub me
    ∧ PerPlayer.ub me >= PerPlayer.lb me.
Proof.
  intros Hst Hp Ha.
  destruct (standings_row_for s pp tr p Hst Hp Ha)
    as (me & T & P & A & R & Hme & _ & _ & Hrow & _).
  destruct Hrow as (t & _ & _ & _ & _ & _ & _ & Hrem & Hlb & Hub).
  exists me. split; [done|]. lia.
Qed.

Lemma bounds_monotone_witness :
  ∃ pp tr, standings demo = Ok (pp, tr)
    ∧ ∃ me, (1, me) ∈ pp
        ∧ PerPlayer.lb me ≤ PerPlayer.points me ≤ PerPlayer.ub me
        ∧ PerPlayer.ub me >= PerPlayer.lb me.
Proof.
  eexists _, _. split; [vm_compute; reflexivity|].
  eapply (bounds_monotone demo _ _ (Player.mk 1 "Eve" true));
    [vm_compute; reflexivity|apply list_elem_of_here|reflexivity].
Defined.

(** ** Verdicts *)

(** C1 (verdict assignment).  In computed standings every active player P
    has a row; the rows of the other keys are those of the other active
    players, and there are at least four of them; [fourth_best_rival_UB] is
    the entry of index 3 of their [ub] sorted in descending order, which is
    the fourth highest, and likewise [fourth_best_rival_LB] over [lb]; P is
    CLASIFICADO exactly when its lb exceeds [fourth_best_rival_UB], otherwise
    ELIMINADO exactly when its ub is below [fourth_best_rival_LB], otherwise
    it has no label. *)
Theorem verdict_assignment s pp tr p :
  standings s = Ok (pp, tr) → p ∈ players s → Player.active p = true →
  ∃ me fourth_best_rival_LB fourth_best_rival_UB,
    (Player.id p, me) ∈ pp
    ∧ (∀ q, q ∈ keys pp ↔ q ∈ active_ids s)
    ∧ (4 ≤ length (rivals pp (Player.id p)))%nat
    ∧ sorted Z.leb id true (PerPlayer.ub <$> rivals pp (Player.id p)) !! 3%nat
      = Some fourth_best_rival_UB
    ∧ kth_highest 3 (PerPlayer.ub <$> rivals pp (Player.id p)) fourth_best_rival_UB
    ∧ sorted Z.leb id true (PerPlayer.lb <$> rivals pp (Player.id p)) !! 3%nat
      = Some fourth_best_rival_LB
    ∧ kth_highest 3 (PerPlayer.lb <$> rivals pp (Player.id p)) fourth_best_rival_LB
    ∧ (PerPlayer.status me = Some CLASIFICADO
       ↔ PerPlayer.lb me > fourth_best_rival_UB)
    ∧ (PerPlayer.status me = Some ELIMINADO
       ↔ ¬ PerPlayer.lb me > fourth_best_rival_UB
         ∧ PerPlayer.ub me < fourth_best_rival_LB)
    ∧ (PerPlayer.status me = None
       ↔ ¬ PerPlayer.lb me > fourth_best_rival_UB
         ∧ ¬ PerPlayer.ub me < fourth_best_rival_LB).
Proof.
  intros Hst Hp Ha.
  destruct (standings_row_for s pp tr p Hst Hp Ha)
    as (me & T & P & A & R & Hme & _ & _ & _ & Hv).
  apply standings_inv in Hst as (_ & _ & _ & _ & _ & _ & Hnd & Hkeys & _).
  destruct Hv as (fl & fu & Hfl & Hfu & Hstatus).
  exists me, fl, fu. split; [done|]. split; [done|]. split.
  { apply lookup_lt_Some in Hfu. rewrite sorted_length, length_fmap in Hfu. lia. }
  split; [done|]. split; [by apply sorted_desc_kth|].
  split; [done|]. split; [by apply sorted_desc_kth|].
  rewrite Hstatus. unfold decide_status.
  destruct (Z.ltb_spec fu (PerPlayer.lb me)), (Z.ltb_spec (PerPlayer.ub me) fl);
    repeat split; intros; try done; try lia; try (destruct_and?; lia).
Qed.

Lemma verdict_assignment_witness :
  ∃ pp tr, standings demo = Ok (pp, tr)
    ∧ ∃ me fourth_best_rival_LB fourth_best_rival_UB,
        (1, me) ∈ pp
        ∧ (∀ q, q ∈ keys pp ↔ q ∈ active_ids demo)
        ∧ (4 ≤ length (rivals pp 1))%nat
        ∧ sorted Z.leb id true (PerPlayer.ub <$> rivals pp 1) !! 3%nat
          = Some fourth_best_rival_UB
        ∧ kth_highest 3 (PerPlayer.ub <$> rivals pp 1) fourth_best_rival_UB
        ∧ sorted Z.leb id true (PerPlayer.lb <$> rivals pp 1) !! 3%nat
          = Some fourth_best_rival_LB
        ∧ kth_highest 3 (PerPlayer.lb <$> rivals pp 1) fourth_best_rival_LB
        ∧ (PerPlayer.status me = Some CLASIFICADO
           ↔ PerPlayer.lb me > fourth_best_rival_UB)
        ∧ (PerPlayer.status me = Some ELIMINADO
           ↔ ¬ PerPlayer.lb me > fourth_best_rival_UB
             ∧ PerPlayer.ub me < fourth_best_rival_LB)
        ∧ (PerPlayer.status me = None
           ↔ ¬ PerPlayer.lb me > fourth_best_rival_UB
             ∧ ¬ PerPlayer.ub me < fourth_best_rival_LB).
Proof.
  eexists _, _. split; [vm_compute; reflexivity|].
  eapply (verdict_assignment demo _ _ (Player.mk 1 "Eve" true));
    [vm_compute; reflexivity|apply list_elem_of_here|reflexivity].
Defined.

(** C9 (verdict exclusivity).  In the standings table no player is both
    CLASIFICADO and ELIMINADO: two rows of the same player id never carry
    the two labels, and one row carries at most one label. *)
Theorem verdict_exclusive s ctx r1 r2 :
  index s = Ok ctx → r1 ∈ table ctx → r2 ∈ table ctx → Row.id r1 = Row.id r2 →
  ¬ (Row.status r1 = Some CLASIFICADO ∧ Row.status r2 = Some ELIMINADO).
Proof.
  intros (pp & tr & Hst & ->)%index_Ok H1 H2 Hid [Hc He]. simpl in H1, H2.
  apply standings_inv in Hst as (_ & _ & _ & _ & _ & _ & Hnd & _).
  apply make_table_elem_of in H1 as ([q1 me1] & Hin1 & Hid1 & Hs1).
  apply make_table_elem_of in H2 as ([q2 me2] & Hin2 & Hid2 & Hs2).
  simpl in *. assert (q1 = q2) as -> by congruence.
  assert (me1 = me2) as -> by (by eapply dict_functional).
  congruence.
Qed.

Lemma verdict_exclusive_witness :
  ∃ ctx r, index demo = Ok ctx ∧ r ∈ table ctx
    ∧ ¬ (Row.status r = Some CLASIFICADO ∧ Row.status r = Some ELIMINADO).
Proof.
  eexists _, _. split; [vm_compute; reflexivity|].
  split; [apply list_elem_of_here|].
  eapply (verdict_exclusive demo);
    [vm_compute; reflexivity|apply list_elem_of_here|apply list_elem_of_here|
     reflexivity].
Defined.

(** ** Ranking *)

(** C6 (ranking).  The standings table is ordered by the key (points, wins,
    seconds, thirds) descending and, among equal keys, by name ascending;
    the rank of a row is one more than the number of rows with a strictly
    better key, so it depends on the keys only, rows with the same key have
    the same rank, and the first row of every group of equal keys has its
    1-based row index as rank. *)
Theorem ranking s ctx :
  index s = Ok ctx →
  Sorted row_before (table ctx)
  ∧ (∀ r, r ∈ table ctx → Row.pos r = competition_rank (table ctx) (row_key r))
  ∧ (∀ r1 r2, r1 ∈ table ctx → r2 ∈ table ctx →
       row_key r1 = row_key r2 → Row.pos r1 = Row.pos r2)
  ∧ (∀ i r, table ctx !! i = Some r →
       (∀ j r', (j < i)%nat → table ctx !! j = Some r' → row_key r' ≠ row_key r) →
       Row.pos r = Z.of_nat i + 1).
Proof.
  intros (pp & tr & _ & ->)%index_Ok. simpl.
  split; [apply make_table_before|]. split; [apply make_table_pos|]. split.
  - intros r1 r2 H1 H2 Hk.
    by rewrite (make_table_pos pp r1), (make_table_pos pp r2), Hk.
  - apply make_table_first_of_group.
Qed.

Lemma ranking_witness :
  ∃ ctx, index demo = Ok ctx
    ∧ Sorted row_before (table ctx)
    ∧ Row.pos <$> table ctx = [1; 2; 3; 4; 4].
Proof.
  eexists. split; [vm_compute; reflexivity|].
  split; [|reflexivity].
  eapply (ranking demo). vm_compute; reflexivity.
Defined.

(** ** Save bonus *)

(** C10 (save bonus).  Every row of computed standings belongs to an active
    player; its save counter is the number of tables that designate this
    player for the save, and its points are the points of its finish
    positions plus one per such table (player ids are non-zero).  A save
    designation of a player who is not active gives nothing to anyone and
    leaves the rest untouched: removing these designations from the store
    does not change the result of [index]. *)
Theorem save_bonus_only_active s pp tr pid me :
  standings s = Ok (pp, tr) → (pid, me) ∈ pp → pid ≠ 0 →
  pid ∈ active_ids s
  ∧ PerPlayer.saves me = Zsum (save_at pid) (games s)
  ∧ PerPlayer.points me
    = Zsum (score_at pid) (games s) + Zsum (save_at pid) (games s)
  ∧ index (drop_inactive_saves s) = index s.
Proof.
  intros Hst Hme Hpid.
  apply standings_inv in Hst as (T & P & A & R & Htally & _ & _ & Hkeys & Hrows).
  destruct (Hrows _ _ Hme) as [(t & Ht & Hpts & Hsv & _) _].
  apply tally_inv in Htally as (_ & _ & Htot & _).
  destruct (Htot pid t Hpid Ht) as [Hp Hs].
  split; [|split; [|split]].
  - apply Hkeys. apply list_elem_of_fmap. by exists (pid, me).
  - congruence.
  - congruence.
  - apply index_drop_inactive_saves.
Qed.

Lemma save_bonus_only_active_witness :
  ∃ pp tr me, standings demo = Ok (pp, tr) ∧ (2, me) ∈ pp
    ∧ PerPlayer.saves me = Zsum (save_at 2) (games demo)
    ∧ PerPlayer.points me
      = Zsum (score_at 2) (games demo) + Zsum (save_at 2) (games demo)
    ∧ index (drop_inactive_saves demo) = index demo.
Proof.
  eexists _, _, _. split; [vm_compute; reflexivity|].
  split; [apply list_elem_of_further, list_elem_of_here|].
  eapply (save_bonus_only_active demo);
    [vm_compute; reflexivity|apply list_elem_of_further, list_elem_of_here|done].
Defined.

(** ** Inputs at which [index] raises *)

(** C2 (fewer than five active players).  With four active players and an
    empty tournament the list of rivals has three entries, the subscript
    [rival_LBs[3]] is out of range and [index] raises IndexError instead of
    completing without verdicts. *)
Theorem four_players_raises : index four_players = Raise IndexError.
Proof. vm_compute. reflexivity. Qed.

(** C5 (results of inactive players).  With five active players and a stored
    result of a deactivated player, the subscript [totals[r.player_id]] of
    the loop over the results raises KeyError for that player and [index]
    produces no rows. *)
Theorem deactivated_finisher_raises :
  index deactivated_finisher = Raise (KeyError 6).
Proof. vm_compute. reflexivity. Qed.

(** * Results about the editor *)

(** ** Rows found first, changed and removed *)

Section first_row.
Context {A : Type} (P : A → bool).

Lemma find_Some_split (l : list A) x :
  find P l = Some x →
  ∃ l1 l2, l = l1 ++ x :: l2 ∧ P x = true ∧ Forall (λ y, P y = false) l1.
Proof.
  induction l as [|y l IH]; simpl; [done|].
  destruct (P y) eqn:E.
  - intros [= ->]. by exists [], l.
  - intros (l1 & l2 & -> & Hx & Hl1)%IH. exists (y :: l1), l2.
    split; [done|]. split; [done|]. by constructor.
Qed.

Lemma find_split (l1 l2 : list A) x :
  Forall (λ y, P y = false) l1 → P x = true → find P (l1 ++ x :: l2) = Some x.
Proof.
  intros Hl1 Hx. induction Hl1 as [|y l1 Hy _ IH]; simpl.
  - by rewrite Hx.
  - by rewrite Hy.
Qed.

Lemma find_None_Forall (l : list A) :
  find P l = None ↔ Forall (λ y, P y = false) l.
Proof.
  induction l as [|y l IH]; simpl; [by split|].
  destruct (P y) eqn:E.
  - split; [done|]. intros [? _]%Forall_cons. congruence.
  - rewrite IH. split; [by constructor|]. by intros [_ ?]%Forall_cons.
Qed.

Lemma find_elem_of (l : list A) x : find P l = Some x → x ∈ l ∧ P x = true.
Proof.
  intros (l1 & l2 & -> & Hx & _)%find_Some_split. split; [|done].
  apply elem_of_app. right. left.
Qed.

Lemma find_app_None (l1 l2 : list A) :
  find P l1 = None → find P (l1 ++ l2) = find P l2.
Proof.
  intros H%find_None_Forall. induction H as [|y l1 Hy _ IH]; simpl; [done|].
  by rewrite Hy.
Qed.

Lemma find_app_Some (l1 l2 : list A) x :
  find P l1 = Some x → find P (l1 ++ l2) = Some x.
Proof.
  induction l1 as [|y l1 IH]; simpl; [done|]. by destruct (P y).
Qed.

Lemma update_first_split (f : A → A) (l1 l2 : list A) x :
  Forall (λ y, P y = false) l1 → P x = true →
  update_first P f (l1 ++ x :: l2) = l1 ++ f x :: l2.
Proof.
  intros Hl1 Hx. induction Hl1 as [|y l1 Hy _ IH]; simpl.
  - by rewrite Hx.
  - by rewrite Hy, IH.
Qed.

Lemma update_first_None (f : A → A) (l : list A) :
  find P l = None → update_first P f l = l.
Proof.
  intros H%find_None_Forall. induction H as [|y l Hy _ IH]; simpl; [done|].
  by rewrite Hy, IH.
Qed.

Lemma update_first_length (f : A → A) (l : list A) :
  length (update_first P f l) = length l.
Proof.
  induction l as [|y l IH]; simpl; [done|]. destruct (P y); simpl; by rewrite ?IH.
Qed.

Lemma update_first_elem_of (f : A → A) (l : list A) x :
  x ∈ update_first P f l → x ∈ l ∨ ∃ y, y ∈ l ∧ P y = true ∧ x = f y.
Proof.
  induction l as [|y l IH]; simpl; [by left|].
  destruct (P y) eqn:E.
  - intros [->|Hx]%elem_of_cons.
    + right. exists y. split; [left|done].
    + left. by right.
  - intros [->|Hx]%elem_of_cons; [left; left|].
    destruct (IH Hx) as [?|(z & Hz & HPz & ->)]; [left; by right|].
    right. exists z. split; [by right|done].
Qed.

Lemma update_first_twice (f g : A → A) (l : list A) :
  (∀ x, P (f x) = P x) →
  update_first P g (update_first P f l) = update_first P (g ∘ f) l.
Proof.
  intros Hf. induction l as [|y l IH]; simpl; [done|].
  destruct (P y) eqn:E; simpl.
  - by rewrite Hf, E.
  - by rewrite E, IH.
Qed.

Lemma update_first_ext (f g : A → A) (l : list A) :
  (∀ x, x ∈ l → P x = true → f x = g x) → update_first P f l = update_first P g l.
Proof.
  induction l as [|y l IH]; intros Hfg; simpl; [done|].
  destruct (P y) eqn:E.
  - f_equal. apply Hfg; [left|done].
  - f_equal. apply IH. intros x Hx. apply Hfg. by right.
Qed.

Lemma remove_first_split (l1 l2 : list A) x :
  Forall (λ y, P y = false) l1 → P x = true →
  remove_first P (l1 ++ x :: l2) = l1 ++ l2.
Proof.
  intros Hl1 Hx. induction Hl1 as [|y l1 Hy _ IH]; simpl.
  - by rewrite Hx.
  - by rewrite Hy, IH.
Qed.

Lemma remove_first_None (l : list A) : find P l = None → remove_first P l = l.
Proof.
  intros H%find_None_Forall. induction H as [|y l Hy _ IH]; simpl; [done|].
  by rewrite Hy, IH.
Qed.

Lemma remove_first_elem_of (l : list A) x : x ∈ remove_first P l → x ∈ l.
Proof.
  induction l as [|y l IH]; simpl; [done|].
  destruct (P y); [by right|].
  intros [->|Hx]%elem_of_cons; [left|right; by apply IH].
Qed.
End first_row.

(** * Further results about [index] *)

(** ** When [index] completes and what it raises *)

Lemma results_within_dec D gs : Decision (results_within D gs).
Proof. unfold results_within. apply _. Qed.

(** X1.  [index] completes exactly when every stored result belongs to an
    active player and there are no or at least five active players; it
    raises IndexError exactly when the results are in order and there are
    one to four active players, and a KeyError exactly when some stored
    result belongs to a player who is not active. *)
Theorem index_outcome s :
  ((∃ ctx, index s = Ok ctx)
   ↔ results_within (active_ids s) (games s)
     ∧ (size (active_ids s) = 0 ∨ 5 ≤ size (active_ids s))%nat)
  ∧ (index s = Raise IndexError
     ↔ results_within (active_ids s) (games s) ∧ (0 < size (active_ids s) < 5)%nat)
  ∧ ((∃ k, index s = Raise (KeyError k))
     ↔ ¬ results_within (active_ids s) (games s)).
Proof.
  destruct (results_within_dec (active_ids s) (games s)) as [Hres|Hres].
  - destruct (decide (0 < size (active_ids s) < 5)%nat) as [Hn|Hn].
    + pose proof (index_few s Hres Hn) as E. rewrite E.
      split; [|split].
      * split; [by intros [? ?]|]. intros [_ ?]. lia.
      * done.
      * split; [by intros [? ?]|done].
    + destruct (index_total s Hres) as [ctx E]; [lia|]. rewrite E.
      split; [|split].
      * split; [|by eexists]. intros _. split; [done|lia].
      * split; [done|]. by intros [_ ?].
      * split; [by intros [? ?]|done].
  - destruct (index_inactive_result s Hres) as (k & E & _). rewrite E.
    split; [|split].
    + split; [by intros [? ?]|]. by intros [? _].
    + split; [done|]. by intros [? _].
    + split; [done|]. intros _. by exists k.
Qed.

(** ** The rows of the two lists *)

Lemma make_table_length pp : length (make_table pp) = length pp.
Proof.
  rewrite make_table_eq, length_fmap. unfold sorted_rows, sorted.
  by rewrite !stable_sort_length, length_fmap.
Qed.

Lemma make_participation_length pp : length (make_participation pp) = length pp.
Proof.
  unfold make_participation, sorted. by rewrite stable_sort_length, length_fmap.
Qed.

Lemma keys_length_active s (pp : list (Z * PerPlayer.t)) :
  NoDup (keys pp) → (∀ q, q ∈ keys pp ↔ q ∈ active_ids s) →
  length pp = size (active_ids s).
Proof.
  intros Hnd Hk.
  assert (active_ids s = list_to_set (keys pp)) as ->.
  { apply set_eq. intros q. by rewrite elem_of_list_to_set, Hk. }
  rewrite size_list_to_set by done. unfold keys. by rewrite length_fmap.
Qed.

(** X2.  When [index] completes, the standings table has exactly one row
    for every active player id and no other row, and the participation
    list has as many rows as there are active players. *)
Theorem rows_of_active_players s ctx :
  index s = Ok ctx →
  NoDup (Row.id <$> table ctx)
  ∧ (∀ q, q ∈ Row.id <$> table ctx ↔ q ∈ active_ids s)
  ∧ length (table ctx) = size (active_ids s)
  ∧ length (participation ctx) = size (active_ids s).
Proof.
  intros (pp & tr & Hst & ->)%index_Ok. simpl.
  apply standings_inv in Hst as (T & P & A & R & _ & _ & Hnd & Hkeys & _).
  split; [by apply make_table_NoDup|]. split.
  - intros q. by rewrite make_table_ids, Hkeys.
  - rewrite make_table_length, make_participation_length.
    by rewrite (keys_length_active s pp).
Qed.

Lemma rows_of_active_players_witness :
  ∃ ctx, index demo = Ok ctx
    ∧ NoDup (Row.id <$> table ctx)
    ∧ (∀ q, q ∈ Row.id <$> table ctx ↔ q ∈ active_ids demo)
    ∧ length (table ctx) = size (active_ids demo)
    ∧ length (participation ctx) = size (active_ids demo).
Proof.
  eexists. split; [vm_compute; reflexivity|].
  apply (rows_of_active_players demo). vm_compute; reflexivity.
Defined.

(** ** The medal counters *)

Lemma add_result_medals t pos pts :
  Totals.wins (add_result t pos pts)
  = Totals.wins t + (if decide (pos = Some 1) then 1 else 0)
  ∧ Totals.seconds (add_result t pos pts)
    = Totals.seconds t + (if decide (pos = Some 2) then 1 else 0)
  ∧ Totals.thirds (add_result t pos pts)
    = Totals.thirds t + (if decide (pos = Some 3) then 1 else 0).
Proof. unfold add_result. simpl. repeat case_decide; simplify_eq; lia. Qed.

Lemma medal_in_cons k pid r rs :
  medal_in k pid (r :: rs)
  = (if decide (GameResult.player_id r = pid ∧ GameResult.position r = Some k)
     then 1 else 0) + medal_in k pid rs.
Proof. done. Qed.

Lemma results_loop_medals g rs T P T' P' :
  foldM (result_step g) rs (T, P) = Ok (T', P') →
  ∀ pid t0, T !! pid = Some t0 →
    ∃ t, T' !! pid = Some t
      ∧ Totals.wins t = Totals.wins t0 + medal_in 1 pid rs
      ∧ Totals.seconds t = Totals.seconds t0 + medal_in 2 pid rs
      ∧ Totals.thirds t = Totals.thirds t0 + medal_in 3 pid rs.
Proof.
  revert T P. induction rs as [|r rs IH]; intros T P H pid t0 Ht0.
  - injection H as <- <-. exists t0. unfold medal_in. simpl.
    repeat split; [done|lia..].
  - rewrite foldM_cons, bind_Ok in H. destruct H as ([T1 P1] & Hstep & H).
    apply result_step_Ok in Hstep as (t & Ht & -> & ->).
    rewrite !medal_in_cons.
    destruct (add_result_medals t (GameResult.position r)
                (points_for_position (GameResult.position r) (Game.sweep g)))
      as (Hw & Hs & Hth).
    destruct (decide (GameResult.player_id r = pid)) as [Heq|Hne].
    + subst pid. assert (t0 = t) as -> by congruence.
      edestruct (IH _ _ H (GameResult.player_id r)) as (t' & Ht' & H1 & H2 & H3);
        [apply lookup_insert_eq|].
      exists t'. split; [done|].
      assert (∀ k, (if decide (GameResult.player_id r = GameResult.player_id r
                               ∧ GameResult.position r = Some k) then 1 else 0)
                   = (if decide (GameResult.position r = Some k) then 1 else 0)) as E.
      { intros k. destruct (decide (GameResult.position r = Some k)).
        - by rewrite decide_True.
        - by rewrite decide_False by (intros [_ ?]; done). }
      rewrite !E. repeat split; lia.
    + edestruct (IH _ _ H pid t0) as (t' & Ht' & H1 & H2 & H3);
        [by rewrite lookup_insert_ne|].
      exists t'. split; [done|].
      rewrite !decide_False by (intros [? _]; done). repeat split; lia.
Qed.

Lemma apply_save_medals T g pid t0 :
  T !! pid = Some t0 →
  ∃ t, apply_save T g !! pid = Some t ∧ totals_medals t = totals_medals t0.
Proof.
  intros Ht0. unfold apply_save.
  destruct (Game.save_player_id g) as [sp|]; [|by exists t0].
  destruct (truthy (Some sp)); [|by exists t0].
  destruct (T !! sp) as [t|] eqn:E; [|by exists t0].
  destruct (decide (sp = pid)) as [->|Hne].
  - rewrite lookup_insert_eq. eexists. split; [done|].
    by assert (t = t0) as -> by congruence.
  - rewrite lookup_insert_ne by done. by exists t0.
Qed.

Lemma games_loop_medals gs T P A T' P' A' :
  foldM game_step gs (T, P, A) = Ok (T', P', A') →
  ∀ pid t0, T !! pid = Some t0 →
    ∃ t, T' !! pid = Some t
      ∧ Totals.wins t = Totals.wins t0 + Zsum (medal_at 1 pid) gs
      ∧ Totals.seconds t = Totals.seconds t0 + Zsum (medal_at 2 pid) gs
      ∧ Totals.thirds t = Totals.thirds t0 + Zsum (medal_at 3 pid) gs.
Proof.
  revert T P A. induction gs as [|g gs IH]; intros T P A H pid t0 Ht0.
  - injection H as <- <- <-. exists t0. simpl. repeat split; [done|lia..].
  - rewrite foldM_cons, bind_Ok in H. destruct H as ([[T1 P1] A1] & Hstep & H).
    unfold game_step in Hstep. rewrite bind_Ok in Hstep.
    destruct Hstep as ([T2 P2] & Hloop & [= <- <- <-]).
    destruct (apply_save_medals T g pid t0 Ht0) as (t1 & Ht1 & Hm1).
    destruct (results_loop_medals _ _ _ _ _ _ Hloop pid t1 Ht1)
      as (t2 & Ht2 & Hw & Hs & Hth).
    destruct (IH _ _ _ H pid t2 Ht2) as (t & Ht & Hw' & Hs' & Hth').
    exists t. split; [done|]. rewrite !Zsum_cons.
    unfold totals_medals in Hm1. injection Hm1 as E1 E2 E3.
    unfold medal_at at 1 3 5. fold (medal_in 1 pid (Game.results g)).
    fold (medal_in 2 pid (Game.results g)). fold (medal_in 3 pid (Game.results g)).
    repeat split; lia.
Qed.

Lemma init_totals_medals_acc (ps : list Player.t) (d : gmap Z Totals.t) pid t :
  foldl (λ d p, <[Player.id p := Totals.mk (Player.name p) 0 0 0 0 0]> d) d ps !! pid
  = Some t →
  d !! pid = Some t ∨ totals_medals t = (0, 0, 0).
Proof.
  revert d. induction ps as [|p ps IH]; intros d; simpl; [by left|].
  intros [Hins|?]%IH; [|by right].
  destruct (decide (Player.id p = pid)) as [<-|Hne].
  - rewrite lookup_insert_eq in Hins. injection Hins as <-. by right.
  - rewrite lookup_insert_ne in Hins by done. by left.
Qed.

Lemma tally_medals s T P A R pid t :
  tally s = Ok (T, P, A, R) → T !! pid = Some t →
  Totals.wins t = Zsum (medal_at 1 pid) (games s)
  ∧ Totals.seconds t = Zsum (medal_at 2 pid) (games s)
  ∧ Totals.thirds t = Zsum (medal_at 3 pid) (games s).
Proof.
  intros Htally Ht. pose proof Htally as (Hdom & _)%tally_inv.
  unfold tally in Htally.
  destruct (foldl round_step (∅, ∅) (round_infos s)) as [A0 R0].
  rewrite bind_Ok in Htally. destruct Htally as ([[T1 P1] A1] & Hloop & [= <- <- <- <-]).
  assert (pid ∈ dom (init_totals (active_players s))) as [t0 Ht0]%elem_of_dom.
  { rewrite init_totals_active, <- Hdom. by eapply elem_of_dom_2. }
  destruct (games_loop_medals _ _ _ _ _ _ _ Hloop pid t0 Ht0) as (t' & Ht' & Hw & Hs & Hth).
  assert (t' = t) as -> by congruence.
  unfold init_totals in Ht0.
  apply init_totals_medals_acc in Ht0 as [Ht0|Hz]; [by rewrite lookup_empty in Ht0|].
  unfold totals_medals in Hz. injection Hz as E1 E2 E3.
  rewrite !(Zsum_perm _ _ _ (ordered_games_perm s)) in Hw.
  rewrite !(Zsum_perm _ _ _ (ordered_games_perm s)) in Hs.
  rewrite !(Zsum_perm _ _ _ (ordered_games_perm s)) in Hth. lia.
Qed.

Lemma players_loop_medals T P R tr ps pp0 pp :
  foldM (player_step T P R tr) ps pp0 = Ok pp →
  Forall (λ e, ∃ t, T !! e.1 = Some t ∧ row_medals e.2 = totals_medals t) pp0 →
  Forall (λ e, ∃ t, T !! e.1 = Some t ∧ row_medals e.2 = totals_medals t) pp.
Proof.
  revert pp0. induction ps as [|p ps IH]; intros pp0 H H0.
  - by injection H as <-.
  - rewrite foldM_cons, bind_Ok in H. destruct H as (pp1 & Hstep & H).
    apply (IH _ H). unfold player_step in Hstep. rewrite bind_Ok in Hstep.
    destruct Hstep as (t & Ht%subscript_Ok & [= <-]).
    apply dict_set_Forall; [done|]. by exists t.
Qed.

Lemma standings_medals s pp tr q me :
  standings s = Ok (pp, tr) → (q, me) ∈ pp →
  PerPlayer.wins me = Zsum (medal_at 1 q) (games s)
  ∧ PerPlayer.seconds me = Zsum (medal_at 2 q) (games s)
  ∧ PerPlayer.thirds me = Zsum (medal_at 3 q) (games s).
Proof.
  unfold standings. rewrite bind_Ok. intros ([[[T P] A] R] & Htally & H) Hin.
  rewrite bind_Ok in H. destruct H as (pp0 & Hplayers & H).
  rewrite bind_Ok in H. destruct H as (pp1 & Hverdicts & [= <- <-]).
  pose proof (players_loop_medals _ _ _ _ _ _ _ Hplayers (Forall_nil_2 _)) as Hm.
  apply players_loop_inv in Hplayers as (Hnd & _ & _).
  specialize (Hnd (NoDup_nil_2)).
  apply verdict_loop_inv in Hverdicts as (He & _); [|done|done].
  destruct (erase_elem_of _ _ _ _ He Hin) as (me0 & Hin0 & Hsame).
  rewrite Forall_forall in Hm. destruct (Hm _ Hin0) as (t & Ht & Hrow). simpl in *.
  destruct (tally_medals s T P A R q t Htally Ht) as (Hw & Hs & Hth).
  pose proof (f_equal PerPlayer.wins Hsame) as E1.
  pose proof (f_equal PerPlayer.seconds Hsame) as E2.
  pose proof (f_equal PerPlayer.thirds Hsame) as E3.
  unfold row_medals, totals_medals in Hrow. injection Hrow as F1 F2 F3.
  simpl in *. repeat split; congruence.
Qed.

Lemma make_table_row pp r :
  r ∈ make_table pp →
  ∃ e, e ∈ pp ∧ Row.id r = e.1
    ∧ Row.wins r = PerPlayer.wins e.2
    ∧ Row.seconds r = PerPlayer.seconds e.2
    ∧ Row.thirds r = PerPlayer.thirds e.2.
Proof.
  rewrite make_table_eq. intros (t & -> & Ht)%list_elem_of_fmap.
  unfold sorted_rows, sorted in Ht. rewrite !stable_sort_elem_of in Ht.
  apply list_elem_of_fmap in Ht as (e & -> & He). by exists e.
Qed.

(** X3.  When [index] completes, the columns wins, seconds and thirds of a
    row of the standings table count the stored results that give the
    player of the row the positions 1, 2 and 3. *)
Theorem medal_counts s ctx r :
  index s = Ok ctx → r ∈ table ctx →
  Row.wins r = Zsum (medal_at 1 (Row.id r)) (games s)
  ∧ Row.seconds r = Zsum (medal_at 2 (Row.id r)) (games s)
  ∧ Row.thirds r = Zsum (medal_at 3 (Row.id r)) (games s).
Proof.
  intros (pp & tr & Hst & ->)%index_Ok Hr. simpl in Hr.
  apply make_table_row in Hr as ([q me] & Hin & -> & -> & -> & ->). simpl.
  by apply (standings_medals s pp tr).
Qed.

Lemma medal_counts_witness :
  ∃ ctx r, index demo = Ok ctx ∧ r ∈ table ctx
    ∧ Row.wins r = Zsum (medal_at 1 (Row.id r)) (games demo)
    ∧ Row.seconds r = Zsum (medal_at 2 (Row.id r)) (games demo)
    ∧ Row.thirds r = Zsum (medal_at 3 (Row.id r)) (games demo).
Proof.
  eexists _, _. split; [vm_compute; reflexivity|].
  split; [apply list_elem_of_here|].
  eapply (medal_counts demo); [vm_compute; reflexivity|apply list_elem_of_here].
Defined.

(** ** The participation list *)

Lemma round_step_nonneg st ri :
  (∀ pid, 0 ≤ default 0 (st.2 !! pid)) →
  ∀ pid, 0 ≤ default 0 ((round_step st ri).2 !! pid).
Proof.
  destruct st as [A R]. intros H pid. unfold round_step. simpl in *.
  destruct (RoundInfo.bye_player_id ri) as [b|]; simpl; [|apply H].
  destruct (negb (b =? 0)); simpl; [|apply H].
  destruct (decide (b = pid)) as [->|Hne].
  - rewrite lookup_insert_eq. simpl. specialize (H pid). lia.
  - rewrite lookup_insert_ne by done. apply H.
Qed.

Lemma rounds_loop_nonneg ris st :
  (∀ pid, 0 ≤ default 0 (st.2 !! pid)) →
  ∀ pid, 0 ≤ default 0 ((foldl round_step st ris).2 !! pid).
Proof.
  revert st. induction ris as [|ri ris IH]; intros st H; [done|].
  simpl. apply IH. by apply round_step_nonneg.
Qed.

Lemma tally_rests_nonneg s T P A R pid :
  tally s = Ok (T, P, A, R) → 0 ≤ default 0 (R !! pid).
Proof.
  unfold tally. pose proof (rounds_loop_nonneg (round_infos s) (∅, ∅)) as Hn.
  destruct (foldl round_step (∅, ∅) (round_infos s)) as [A0 R0].
  rewrite bind_Ok. intros ([[T1 P1] A1] & _ & [= <- <- <- <-]).
  apply Hn. intros q. simpl. by rewrite lookup_empty.
Qed.

Lemma credited_rounds_planned s pid : credited_rounds s pid ⊆ planned_rounds s.
Proof.
  intros n (g & Hg & _ & _ & <-)%credited_rounds_elem_of.
  unfold planned_rounds. apply elem_of_union. right.
  apply elem_of_list_to_set, list_elem_of_fmap. by exists g.
Qed.

Lemma make_participation_elem_of pp row :
  row ∈ make_participation pp →
  ∃ e, e ∈ pp
    ∧ Participation.played row = PerPlayer.played e.2
    ∧ Participation.remaining row = PerPlayer.remaining e.2
    ∧ Participation.rests row = PerPlayer.rests e.2
    ∧ Participation.planned_to_play row = PerPlayer.planned_to_play e.2.
Proof.
  unfold make_participation, sorted. rewrite stable_sort_elem_of.
  intros (e & -> & He)%list_elem_of_fmap. by exists e.
Qed.

(** X4.  When [index] completes, every row of the participation list has
    non-negative rests, a number of played rounds between 0 and
    total_rounds, a planned number of rounds that is at most total_rounds,
    and played + remaining = max(played, planned_to_play): the two add up
    to the planned rounds unless more rounds were played than planned. *)
Theorem participation_rows s ctx row :
  index s = Ok ctx → row ∈ participation ctx →
  0 ≤ Participation.rests row
  ∧ 0 ≤ Participation.played row ≤ total_rounds ctx
  ∧ 0 ≤ Participation.planned_to_play row ≤ total_rounds ctx
  ∧ 0 ≤ Participation.remaining row ≤ Participation.planned_to_play row
  ∧ Participation.played row + Participation.remaining row
    = Z.max (Participation.played row) (Participation.planned_to_play row).
Proof.
  intros (pp & tr & Hst & ->)%index_Ok Hrow. simpl in *.
  apply make_participation_elem_of in Hrow as ([q me] & Hin & -> & -> & -> & ->).
  simpl.
  apply standings_inv in Hst as (T & P & A & R & Htally & -> & _ & _ & Hrows).
  destruct (Hrows _ _ Hin) as [(t & _ & _ & _ & Hpl & Hre & Hpt & Hrem & _) _].
  pose proof (tally_rests_nonneg s T P A R q Htally) as Hnn.
  apply tally_inv in Htally as (_ & _ & _ & HP & -> & _).
  rewrite HP in Hpl.
  pose proof (subseteq_size _ _ (credited_rounds_planned s q)) as Hsz.
  lia.
Qed.

Lemma participation_rows_witness :
  ∃ ctx row, index demo = Ok ctx ∧ row ∈ participation ctx
    ∧ 0 ≤ Participation.rests row
    ∧ 0 ≤ Participation.played row ≤ total_rounds ctx
    ∧ 0 ≤ Participation.planned_to_play row ≤ total_rounds ctx
    ∧ 0 ≤ Participation.remaining row ≤ Participation.planned_to_play row
    ∧ Participation.played row + Participation.remaining row
      = Z.max (Participation.played row) (Participation.planned_to_play row).
Proof.
  eexists _, _. split; [vm_compute; reflexivity|].
  split; [apply list_elem_of_here|].
  eapply (participation_rows demo); [vm_compute; reflexivity|apply list_elem_of_here].
Defined.

(** ** [player_toggle] *)

Lemma find_update_first {A} (P : A → bool) (f : A → A) (l : list A) :
  (∀ x, P (f x) = P x) → find P (update_first P f l) = f <$> find P l.
Proof.
  intros Hf. induction l as [|y l IH]; simpl; [done|].
  destruct (P y) eqn:E; simpl.
  - by rewrite Hf, E.
  - by rewrite E.
Qed.

Lemma update_first_id {A} (P : A → bool) (f : A → A) (l : list A) :
  (∀ x, f x = x) → update_first P f l = l.
Proof.
  intros Hf. induction l as [|y l IH]; simpl; [done|].
  destruct (P y); by rewrite ?Hf, ?IH.
Qed.

Lemma toggle_toggle p : toggle (toggle p) = p.
Proof. destruct p as [i n a]. unfold toggle. simpl. by rewrite negb_involutive. Qed.

(** X5.  [player_toggle] is its own inverse: toggling the same player a
    second time gives back the database as it was. *)
Theorem player_toggle_twice is_admin pid db db1 :
  player_toggle is_admin pid db = Committed db1 →
  player_toggle is_admin pid db1 = Committed db.
Proof.
  unfold player_toggle. destruct is_admin; simpl; [|done].
  destruct (find _ (player_rows db)) as [p|] eqn:E; [|done].
  intros [= <-]. simpl.
  rewrite find_update_first, E by done. simpl.
  rewrite update_first_twice by done.
  rewrite update_first_id by apply toggle_toggle. by destruct db.
Qed.

Lemma player_toggle_twice_witness :
  ∃ db1, player_toggle true 10 league = Committed db1
    ∧ player_toggle true 10 db1 = Committed league.
Proof.
  eexists. split; [reflexivity|]. by apply player_toggle_twice.
Defined.

Lemma active_ids_store_of db q :
  q ∈ active_ids (store_of db)
  ↔ ∃ p, p ∈ player_rows db ∧ Player.active p = true ∧ Player.id p = q.
Proof. apply active_ids_elem_of. Qed.

(** X6.  Deactivating an active player who has a stored result makes
    [index] raise a KeyError (player ids are unique). *)
Theorem deactivation_breaks_index db p g r :
  NoDup (Player.id <$> player_rows db) →
  p ∈ player_rows db → Player.active p = true →
  g ∈ games (store_of db) → r ∈ Game.results g →
  GameResult.player_id r = Player.id p →
  ∃ db', player_toggle true (Player.id p) db = Committed db'
    ∧ ∃ k, index (store_of db') = Raise (KeyError k) ∧ k ∉ active_ids (store_of db').
Proof.
  intros Hnd Hp Ha Hg Hr Hid. unfold player_toggle. simpl.
  destruct (find (λ p0, Player.id p0 =? Player.id p) (player_rows db)) as [p'|] eqn:E.
  2:{ rewrite find_None_Forall, Forall_forall in E. specialize (E p Hp).
      simpl in E. by rewrite Z.eqb_refl in E. }
  eexists. split; [done|].
  apply index_inactive_result. intros Hres.
  unfold results_within in Hres. rewrite Forall_forall in Hres.
  specialize (Hres g Hg). rewrite Forall_forall in Hres. specialize (Hres r Hr).
  rewrite Hid in Hres. apply active_ids_store_of in Hres as (q & Hq & Hqa & Hqid).
  simpl in Hq.
  apply find_Some_split in E as (l1 & l2 & Hrows & Hp'%Z.eqb_eq & Hl1).
  rewrite Hrows in Hnd, Hp, Hq. rewrite update_first_split in Hq by (done || by apply Z.eqb_eq).
  rewrite fmap_app, fmap_cons in Hnd.
  apply NoDup_app in Hnd as (_ & Hdisj & [Hnot _]%NoDup_cons).
  assert (p = p') as <-.
  { apply elem_of_app in Hp as [Hp|[->|Hp]%elem_of_cons]; [|done|].
    - exfalso. apply (Hdisj (Player.id p)); [by apply list_elem_of_fmap_2|].
      rewrite Hp'. left.
    - exfalso. apply Hnot. rewrite Hp'. by apply list_elem_of_fmap_2. }
  apply elem_of_app in Hq as [Hq|[->|Hq]%elem_of_cons].
  - apply (Hdisj (Player.id q)); [by apply list_elem_of_fmap_2|]. rewrite Hqid. left.
  - unfold toggle in Hqa. simpl in Hqa. by rewrite Ha in Hqa.
  - apply Hnot. rewrite <- Hqid. by apply list_elem_of_fmap_2.
Qed.

Lemma deactivation_breaks_index_witness :
  ∃ db', player_toggle true 2 league = Committed db'
    ∧ ∃ k, index (store_of db') = Raise (KeyError k) ∧ k ∉ active_ids (store_of db').
Proof.
  apply (deactivation_breaks_index league (Player.mk 2 "Negro" true)
           (Game.mk 1 1 false None
              [ GameResult.mk 2 (Some 1); GameResult.mk 5 None;
                GameResult.mk 7 None; GameResult.mk 8 (Some 2) ])
           (GameResult.mk 2 (Some 1))).
  - apply (bool_decide_unpack _). vm_compute. exact I.
  - apply list_elem_of_further, list_elem_of_here.
  - reflexivity.
  - apply list_elem_of_here.
  - apply list_elem_of_here.
  - reflexivity.
Defined.

(** ** [round_add] and [round_delete] *)

Lemma foldl_max_ge (l : list Z) x : x ≤ foldl Z.max x l ∧ ∀ y, y ∈ l → y ≤ foldl Z.max x l.
Proof.
  revert x. induction l as [|z l IH]; intros x; simpl.
  - split; [lia|]. by intros y ?%elem_of_nil.
  - destruct (IH (Z.max x z)) as [H1 H2]. split; [lia|].
    intros y [->|Hy]%elem_of_cons; [lia|by apply H2].
Qed.

Lemma or_zero_sql_max_ge (l : list Z) x : x ∈ l → x ≤ or_zero (sql_max l).
Proof.
  destruct l as [|z l]; [by intros ?%elem_of_nil|]. simpl.
  destruct (foldl_max_ge l z) as [H1 H2].
  intros [->|Hx]%elem_of_cons.
  - destruct (Z.eqb_spec (foldl Z.max z l) 0); lia.
  - specialize (H2 x Hx). destruct (Z.eqb_spec (foldl Z.max z l) 0); lia.
Qed.

Lemma planned_rounds_store_of db n :
  n ∈ planned_rounds (store_of db)
  ↔ n ∈ RoundInfo.number <$> round_rows db
    ∨ n ∈ (λ row, Game.round_number row.2) <$> game_rows db.
Proof.
  unfold planned_rounds, store_of. simpl.
  rewrite elem_of_union, !elem_of_list_to_set, <- list_fmap_compose. done.
Qed.

Lemma next_no_above db n : n ∈ planned_rounds (store_of db) → n < next_no db.
Proof.
  intros [H|H]%planned_rounds_store_of; apply or_zero_sql_max_ge in H;
    unfold next_no; lia.
Qed.

Lemma index_total_rounds s ctx :
  index s = Ok ctx → total_rounds ctx = Z.of_nat (size (planned_rounds s)).
Proof.
  intros (pp & tr & Hst & ->)%index_Ok. simpl.
  apply standings_inv in Hst as (T & P & A & R & Htally & -> & _).
  by apply tally_inv in Htally as (_ & _ & _ & _ & -> & _).
Qed.

Lemma index_Ok_inv s ctx :
  index s = Ok ctx →
  results_within (active_ids s) (games s)
  ∧ (size (active_ids s) = 0 ∨ 5 ≤ size (active_ids s))%nat.
Proof.
  intros H. destruct (results_within_dec (active_ids s) (games s)) as [Hres|Hres].
  - split; [done|].
    destruct (decide (0 < size (active_ids s) < 5)%nat) as [Hn|Hn]; [|lia].
    rewrite (index_few s Hres Hn) in H. done.
  - destruct (index_inactive_result s Hres) as (k & E & _). congruence.
Qed.

Lemma index_completes_same s s' ctx :
  index s = Ok ctx → active_ids s' = active_ids s →
  results_within (active_ids s) (games s') →
  ∃ ctx', index s' = Ok ctx'.
Proof.
  intros [Hres Hsize]%index_Ok_inv Ha Hres'.
  apply index_total; rewrite Ha; done.
Qed.

(** X7.  [round_add] gives the new round a number above every round number
    in use, so the set of planned rounds gains exactly this number; when
    [index] completed before it completes afterwards, with total_rounds
    one higher. *)
Theorem round_add_fresh is_admin db db' :
  round_add is_admin db = Committed db' →
  (∀ n, n ∈ planned_rounds (store_of db) → n < next_no db)
  ∧ planned_rounds (store_of db') = planned_rounds (store_of db) ∪ {[next_no db]}
  ∧ (∀ ctx, index (store_of db) = Ok ctx →
       ∃ ctx', index (store_of db') = Ok ctx'
         ∧ total_rounds ctx' = total_rounds ctx + 1).
Proof.
  unfold round_add. destruct is_admin; simpl; [|done]. intros [= Hdb].
  split; [apply next_no_above|].
  assert (planned_rounds (store_of db')
          = planned_rounds (store_of db) ∪ {[next_no db]}) as Hplanned.
  { apply set_eq. intros n.
    rewrite elem_of_union, !planned_rounds_store_of, <- Hdb. simpl.
    rewrite fmap_app, elem_of_app. simpl. rewrite list_elem_of_singleton, elem_of_singleton.
    tauto. }
  split; [done|].
  intros ctx Hctx.
  destruct (index_completes_same (store_of db) (store_of db') ctx Hctx)
    as [ctx' Hctx'].
  { by rewrite <- Hdb. }
  { apply index_Ok_inv in Hctx as [? _]. by rewrite <- Hdb. }
  exists ctx'. split; [exact Hctx'|].
  rewrite (index_total_rounds _ _ Hctx), (index_total_rounds _ _ Hctx'), Hplanned.
  rewrite size_union.
  - rewrite size_singleton. lia.
  - apply disjoint_singleton_r. intros Hin. apply next_no_above in Hin. lia.
Qed.

Lemma round_add_fresh_witness :
  ∃ db', round_add true league = Committed db'
    ∧ (∀ n, n ∈ planned_rounds (store_of league) → n < next_no league)
    ∧ planned_rounds (store_of db') = planned_rounds (store_of league) ∪ {[next_no league]}
    ∧ (∀ ctx, index (store_of league) = Ok ctx →
         ∃ ctx', index (store_of db') = Ok ctx'
           ∧ total_rounds ctx' = total_rounds ctx + 1).
Proof.
  eexists. split; [reflexivity|]. by apply (round_add_fresh true).
Defined.

Lemma filter_all_true {A} (P : A → Prop) `{∀ x, Decision (P x)} (l : list A) :
  (∀ x, x ∈ l → P x) → filter P l = l.
Proof. intros H0. apply filter_Forall_id. by apply Forall_forall. Qed.

(** X8.  Deleting the round that [round_add] has just created gives back
    the database as it was. *)
Theorem round_add_delete is_admin db db1 :
  round_add is_admin db = Committed db1 →
  round_delete is_admin (next_no db) db1 = Committed db.
Proof.
  unfold round_add, round_delete. destruct is_admin; simpl; [|done].
  intros [= <-]. simpl. f_equal.
  assert (Forall (λ ri, is_round (next_no db) ri = false) (round_rows db)) as Hri.
  { apply Forall_forall. intros ri Hri. unfold is_round. apply Z.eqb_neq. intros Heq.
    assert (RoundInfo.number ri < next_no db); [|lia].
    apply next_no_above, planned_rounds_store_of. left. by apply list_elem_of_fmap_2. }
  rewrite remove_first_split, app_nil_r; [|done|apply Z.eqb_refl].
  rewrite filter_all_true; [by destruct db|].
  intros row Hrow. unfold in_round. apply Z.eqb_neq. intros Heq.
  assert (Game.round_number row.2 < next_no db); [|lia].
  apply next_no_above, planned_rounds_store_of. right.
  by apply (list_elem_of_fmap_2 (λ row, Game.round_number row.2)).
Qed.

Lemma round_add_delete_witness :
  ∃ db1, round_add true league = Committed db1
    ∧ round_delete true (next_no league) db1 = Committed league.
Proof.
  eexists. split; [reflexivity|]. by apply round_add_delete.
Defined.

Lemma credited_rounds_store_of db pid n :
  n ∈ credited_rounds (store_of db) pid
  ↔ ∃ row, row ∈ game_rows db ∧ has_winner row.2 = true ∧ participates pid row.2
           ∧ Game.round_number row.2 = n.
Proof.
  rewrite credited_rounds_elem_of. simpl. split.
  - intros (g & (row & -> & Hrow)%list_elem_of_fmap & Hw%has_winner_played & Hp & Hn).
    by exists row.
  - intros (row & Hrow & Hw%has_winner_played & Hp & Hn).
    exists row.2. split; [by apply list_elem_of_fmap_2|done].
Qed.

(** X9.  After [round_delete] the round is no longer planned and no player
    is credited with it, while the other rounds stay as they were (round
    numbers are unique among the round records). *)
Theorem round_delete_removes is_admin round_no db db' :
  NoDup (RoundInfo.number <$> round_rows db) →
  round_delete is_admin round_no db = Committed db' →
  planned_rounds (store_of db') = planned_rounds (store_of db) ∖ {[round_no]}
  ∧ ∀ pid, credited_rounds (store_of db') pid
           = credited_rounds (store_of db) pid ∖ {[round_no]}.
Proof.
  intros Hnd. unfold round_delete. destruct is_admin; simpl; [|done]. intros [= <-].
  assert (∀ n, n ∈ RoundInfo.number <$> remove_first (is_round round_no) (round_rows db)
               ↔ n ∈ RoundInfo.number <$> round_rows db ∧ n ≠ round_no) as Hri.
  { intros n. destruct (find (is_round round_no) (round_rows db)) as [ri|] eqn:E.
    - apply find_Some_split in E as (l1 & l2 & Hrows & Hri%Z.eqb_eq & Hl1).
      rewrite Hrows in Hnd |- *. rewrite remove_first_split by (done || by apply Z.eqb_eq).
      rewrite fmap_app, fmap_cons, Hri in Hnd.
      apply NoDup_app in Hnd as (_ & Hdisj & [Hnot _]%NoDup_cons).
      rewrite !fmap_app, fmap_cons, Hri, !elem_of_app, elem_of_cons. split.
      + intros [H|H]; (split; [tauto|]); intros ->; [|done].
        apply (Hdisj round_no H). left.
      + intros [[H|[H|H]] Hne]; tauto.
    - rewrite remove_first_None by done.
      rewrite find_None_Forall, Forall_forall in E. split; [|tauto].
      intros (ri & -> & Hri)%list_elem_of_fmap. split; [by apply list_elem_of_fmap_2|].
      specialize (E ri Hri). unfold is_round in E. by apply Z.eqb_neq in E. }
  split.
  - apply set_eq. intros n.
    rewrite elem_of_difference, elem_of_singleton, !planned_rounds_store_of. simpl.
    rewrite Hri, !list_elem_of_fmap. setoid_rewrite list_elem_of_filter.
    unfold in_round. split.
    + intros [[? ?]|(row & -> & Hr%Z.eqb_neq & Hrow)]; [tauto|].
      split; [right; by exists row|done].
    + intros [[?|(row & -> & Hrow)] Hne]; [tauto|]. right.
      exists row. split; [done|]. split; [by apply Z.eqb_neq|done].
  - intros pid. apply set_eq. intros n.
    rewrite elem_of_difference, elem_of_singleton, !credited_rounds_store_of. simpl.
    setoid_rewrite list_elem_of_filter. unfold in_round. split.
    + intros (row & [Hr%Z.eqb_neq Hrow] & Hw & Hp & <-). split; [by exists row|done].
    + intros [(row & Hrow & Hw & Hp & <-) Hne]. exists row.
      split; [|done]. split; [by apply Z.eqb_neq|done].
Qed.

Lemma round_delete_removes_witness :
  ∃ db', round_delete true 1 league = Committed db'
    ∧ planned_rounds (store_of db') = planned_rounds (store_of league) ∖ {[1]}
    ∧ ∀ pid, credited_rounds (store_of db') pid
             = credited_rounds (store_of league) pid ∖ {[1]}.
Proof.
  eexists. split; [reflexivity|].
  apply (round_delete_removes true); [|reflexivity].
  apply (bool_decide_unpack _). vm_compute. exact I.
Defined.

(** ** [game_reset], [round_clear] and [game_delete] *)

Lemma has_winner_clear_game g : has_winner (clear_game g) = false.
Proof.
  unfold has_winner, clear_game. simpl. rewrite orb_false_r.
  induction (Game.results g) as [|r rs IH]; [done|]. by rewrite fmap_cons.
Qed.

Lemma score_at_clear_game pid g : score_at pid (clear_game g) = 0.
Proof.
  unfold score_at, clear_game. simpl.
  induction (Game.results g) as [|r rs IH]; [done|].
  rewrite fmap_cons, Zsum_cons, IH. simpl. by case_decide.
Qed.

Lemma save_at_clear_game pid g : save_at pid (clear_game g) = 0.
Proof. done. Qed.

Lemma participant_ids_clear_game g : participant_ids (clear_game g) = participant_ids g.
Proof.
  unfold participant_ids, clear_game. simpl. rewrite <- list_fmap_compose.
  by apply list_fmap_ext.
Qed.

(** X10.  [round_clear] keeps the set of planned rounds; afterwards no
    player is credited with the cleared round, and the points of finish
    positions and the save bonuses of every player are those of the tables
    of the other rounds. *)
Theorem round_clear_effect is_admin round_no db db' :
  round_clear is_admin round_no db = Committed db' →
  planned_rounds (store_of db') = planned_rounds (store_of db)
  ∧ ∀ pid,
      credited_rounds (store_of db') pid
      = credited_rounds (store_of db) pid ∖ {[round_no]}
      ∧ Zsum (score_at pid) (games (store_of db'))
        = Zsum (score_at pid)
            (filter (λ g, Game.round_number g ≠ round_no) (games (store_of db)))
      ∧ Zsum (save_at pid) (games (store_of db'))
        = Zsum (save_at pid)
            (filter (λ g, Game.round_number g ≠ round_no) (games (store_of db))).
Proof.
  unfold round_clear. destruct is_admin; simpl; [|done]. intros [= <-].
  split; [|intros pid; split; [|split]].
  - apply set_eq. intros n. rewrite !planned_rounds_store_of. simpl.
    rewrite <- !list_fmap_compose.
    rewrite (list_fmap_ext _ (λ row, Game.round_number row.2) (game_rows db)); [done|].
    intros i row _. simpl. by destruct (in_round round_no row.2).
  - apply set_eq. intros n.
    rewrite elem_of_difference, elem_of_singleton, !credited_rounds_store_of. simpl.
    setoid_rewrite list_elem_of_fmap. unfold in_round. split.
    + intros (row' & (row & -> & Hrow) & Hw & Hp & <-).
      destruct (Z.eqb_spec (Game.round_number row.2) round_no) as [Heq|Hne]; simpl in *.
      * by rewrite has_winner_clear_game in Hw.
      * split; [by exists row|done].
    + intros [(row & Hrow & Hw & Hp & <-) Hne]. exists row.
      split; [|done]. exists row. split; [|done].
      by destruct (Z.eqb_spec (Game.round_number row.2) round_no).
  - simpl. induction (game_rows db) as [|row rows IH]; [done|].
    rewrite !fmap_cons, filter_cons, Zsum_cons, IH. unfold in_round.
    destruct (Z.eqb_spec (Game.round_number row.2) round_no) as [Heq|Hne]; simpl.
    + rewrite decide_False by (intros ?; done). by rewrite score_at_clear_game.
    + by rewrite decide_True by done.
  - simpl. induction (game_rows db) as [|row rows IH]; [done|].
    rewrite !fmap_cons, filter_cons, Zsum_cons, IH. unfold in_round.
    destruct (Z.eqb_spec (Game.round_number row.2) round_no) as [Heq|Hne]; simpl.
    + rewrite decide_False by (intros ?; done). done.
    + by rewrite decide_True by done.
Qed.

Lemma round_clear_effect_witness :
  ∃ db', round_clear true 1 league = Committed db'
    ∧ planned_rounds (store_of db') = planned_rounds (store_of league)
    ∧ ∀ pid,
        credited_rounds (store_of db') pid
        = credited_rounds (store_of league) pid ∖ {[1]}
        ∧ Zsum (score_at pid) (games (store_of db'))
          = Zsum (score_at pid)
              (filter (λ g, Game.round_number g ≠ 1) (games (store_of league)))
        ∧ Zsum (save_at pid) (games (store_of db'))
          = Zsum (save_at pid)
              (filter (λ g, Game.round_number g ≠ 1) (games (store_of league))).
Proof.
  eexists. split; [reflexivity|]. by apply (round_clear_effect true).
Defined.

(** X11.  A committed [game_reset] leaves the table with the same players
    seated, no winner, no points and no save bonus for anybody, and every
    other row of the database as it was. *)
Theorem game_reset_blank is_admin game_id db db' :
  game_reset is_admin game_id db = Committed db' →
  ∃ l1 row l2,
    game_rows db = l1 ++ row :: l2
    ∧ game_rows db' = l1 ++ (row.1, clear_game row.2) :: l2
    ∧ row.1 = game_id
    ∧ Forall (λ other, other.1 ≠ game_id) l1
    ∧ player_rows db' = player_rows db
    ∧ round_rows db' = round_rows db
    ∧ participant_ids (clear_game row.2) = participant_ids row.2
    ∧ has_winner (clear_game row.2) = false
    ∧ ∀ pid, score_at pid (clear_game row.2) = 0 ∧ save_at pid (clear_game row.2) = 0.
Proof.
  unfold game_reset. destruct is_admin; simpl; [|done].
  destruct (find (has_id game_id) (game_rows db)) as [row|] eqn:E; [|done].
  intros [= <-]. simpl.
  apply find_Some_split in E as (l1 & l2 & Hrows & Hid%Z.eqb_eq & Hl1).
  exists l1, row, l2. split; [done|]. split.
  { rewrite Hrows. by rewrite update_first_split by (done || by apply Z.eqb_eq). }
  split; [done|]. split.
  { eapply Forall_impl; [exact Hl1|]. intros other H. by apply Z.eqb_neq in H. }
  split; [done|]. split; [done|].
  split; [apply participant_ids_clear_game|].
  split; [apply has_winner_clear_game|].
  intros pid. split; [apply score_at_clear_game|done].
Qed.

Lemma game_reset_blank_witness :
  ∃ db', game_reset true 2 league = Committed db'
    ∧ ∃ l1 row l2,
        game_rows league = l1 ++ row :: l2
        ∧ game_rows db' = l1 ++ (row.1, clear_game row.2) :: l2
        ∧ row.1 = 2
        ∧ Forall (λ other, other.1 ≠ 2) l1
        ∧ player_rows db' = player_rows league
        ∧ round_rows db' = round_rows league
        ∧ participant_ids (clear_game row.2) = participant_ids row.2
        ∧ has_winner (clear_game row.2) = false
        ∧ ∀ pid, score_at pid (clear_game row.2) = 0
                 ∧ save_at pid (clear_game row.2) = 0.
Proof.
  eexists. split; [reflexivity|]. by apply (game_reset_blank true 2 league).
Defined.

(** X12.  After a committed [game_delete] the table is gone: [game_reset],
    [game_delete] and [game_edit] for the same id answer NotFound (game ids
    are unique). *)
Theorem game_delete_gone is_admin game_id db db' :
  NoDup (fst <$> game_rows db) →
  game_delete is_admin game_id db = Committed db' →
  find (has_id game_id) (game_rows db') = None
  ∧ game_reset true game_id db' = Refused NotFound
  ∧ game_delete true game_id db' = Refused NotFound
  ∧ ∀ sweep save winner second third,
      game_edit true game_id sweep save winner second third db' = Refused NotFound.
Proof.
  intros Hnd. unfold game_delete. destruct is_admin; simpl; [|done].
  destruct (find (has_id game_id) (game_rows db)) as [row|] eqn:E; [|done].
  intros [= <-].
  assert (find (has_id game_id) (remove_first (has_id game_id) (game_rows db)) = None)
    as Hgone.
  { apply find_Some_split in E as (l1 & l2 & Hrows & Hid%Z.eqb_eq & Hl1).
    rewrite Hrows in Hnd |- *. rewrite remove_first_split by (done || by apply Z.eqb_eq).
    rewrite fmap_app, fmap_cons in Hnd.
    apply NoDup_app in Hnd as (_ & _ & [Hnot _]%NoDup_cons).
    apply find_None_Forall, Forall_app. split; [done|].
    apply Forall_forall. intros other Hother. unfold has_id. apply Z.eqb_neq.
    intros Heq. apply Hnot. rewrite Hid, <- Heq. by apply list_elem_of_fmap_2. }
  unfold game_reset, game_delete, game_edit. simpl. by rewrite Hgone.
Qed.

Lemma game_delete_gone_witness :
  ∃ db', game_delete true 1 league = Committed db'
    ∧ find (has_id 1) (game_rows db') = None
    ∧ game_reset true 1 db' = Refused NotFound
    ∧ game_delete true 1 db' = Refused NotFound
    ∧ ∀ sweep save winner second third,
        game_edit true 1 sweep save winner second third db' = Refused NotFound.
Proof.
  eexists. split; [reflexivity|].
  apply (game_delete_gone true 1 league); [|reflexivity].
  apply (bool_decide_unpack _). vm_compute. exact I.
Defined.

(** ** [round_set_bye] *)

Lemma find_write_bye_same round_no bye rows :
  ∃ ri, find (is_round round_no) (write_bye round_no bye rows) = Some ri
    ∧ RoundInfo.number ri = round_no ∧ RoundInfo.bye_player_id ri = bye.
Proof.
  unfold write_bye. destruct (find (is_round round_no) rows) as [ri|] eqn:E.
  - rewrite find_update_first, E by done. simpl. eexists. split; [done|].
    apply find_elem_of in E as [_ E%Z.eqb_eq]. done.
  - rewrite find_app_None by done. simpl. unfold is_round. simpl.
    rewrite Z.eqb_refl. by eexists.
Qed.

Lemma find_update_first_other {A} (P Q : A → bool) (f : A → A) (l : list A) :
  (∀ x, P x = true → Q x = false ∧ Q (f x) = false) →
  find Q (update_first P f l) = find Q l.
Proof.
  intros H. induction l as [|y l IH]; simpl; [done|].
  destruct (P y) eqn:E; simpl.
  - destruct (H y E) as [-> ->]. done.
  - by rewrite IH.
Qed.

Lemma find_write_bye_other round_no bye rows m :
  m ≠ round_no →
  find (is_round m) (write_bye round_no bye rows) = find (is_round m) rows.
Proof.
  intros Hne. unfold write_bye. destruct (find (is_round round_no) rows) as [ri|] eqn:E.
  - apply find_update_first_other. intros x Hx%Z.eqb_eq. unfold is_round. simpl.
    split; apply Z.eqb_neq; congruence.
  - destruct (find (is_round m) rows) as [ri|] eqn:E'.
    + by apply find_app_Some.
    + rewrite find_app_None by done. simpl. unfold is_round. simpl.
      by destruct (Z.eqb_spec round_no m).
Qed.

Lemma write_bye_numbers round_no bye rows n :
  n ∈ RoundInfo.number <$> write_bye round_no bye rows
  ↔ n ∈ RoundInfo.number <$> rows ∨ n = round_no.
Proof.
  unfold write_bye. destruct (find (is_round round_no) rows) as [ri|] eqn:E.
  - apply find_Some_split in E as (l1 & l2 & -> & Hri%Z.eqb_eq & Hl1).
    rewrite update_first_split by (done || by apply Z.eqb_eq).
    rewrite !fmap_app, !fmap_cons, !elem_of_app, !elem_of_cons. simpl.
    rewrite Hri. tauto.
  - rewrite fmap_app, elem_of_app. simpl. by rewrite list_elem_of_singleton.
Qed.

(** X13.  After [round_set_bye] the first record of the round holds the bye
    that was written, the first record of every other round is the one it
    was, and the set of planned rounds has gained the round. *)
Theorem round_set_bye_read is_admin round_no bye db db' :
  round_set_bye is_admin round_no bye db = Committed db' →
  (∃ ri, find (is_round round_no) (round_rows db') = Some ri
         ∧ RoundInfo.bye_player_id ri = bye)
  ∧ (∀ m, m ≠ round_no →
       find (is_round m) (round_rows db') = find (is_round m) (round_rows db))
  ∧ planned_rounds (store_of db') = planned_rounds (store_of db) ∪ {[round_no]}.
Proof.
  unfold round_set_bye. destruct is_admin; simpl; [|done]. intros [= <-]. simpl.
  split; [|split].
  - destruct (find_write_bye_same round_no bye (round_rows db)) as (ri & ? & _ & ?).
    by exists ri.
  - intros m Hm. by apply find_write_bye_other.
  - apply set_eq. intros n.
    rewrite elem_of_union, elem_of_singleton, !planned_rounds_store_of. simpl.
    rewrite write_bye_numbers. tauto.
Qed.

Lemma round_set_bye_read_witness :
  ∃ db', round_set_bye true 2 (Some 3) league = Committed db'
    ∧ (∃ ri, find (is_round 2) (round_rows db') = Some ri
             ∧ RoundInfo.bye_player_id ri = Some 3)
    ∧ (∀ m, m ≠ 2 →
         find (is_round m) (round_rows db') = find (is_round m) (round_rows league))
    ∧ planned_rounds (store_of db') = planned_rounds (store_of league) ∪ {[2]}.
Proof.
  eexists. split; [reflexivity|]. by apply (round_set_bye_read true 2 (Some 3) league).
Defined.

(** ** [game_edit] *)

Lemma size_list_to_set_le (l : list Z) : (size (list_to_set l : gset Z) ≤ length l)%nat.
Proof.
  induction l as [|x l IH]; [by rewrite list_to_set_nil, size_empty|].
  rewrite list_to_set_cons.
  pose proof (size_union_alt ({[x]} : gset Z) (list_to_set l)) as H.
  pose proof (subseteq_size (list_to_set l ∖ {[x]}) (list_to_set l : gset Z)) as H'.
  rewrite size_singleton in H. rewrite H. etrans; [|apply le_n_S, IH].
  simpl. apply le_n_S, H'. set_solver.
Qed.

Lemma size_list_to_set_NoDup (l : list Z) :
  size (list_to_set l : gset Z) = length l → NoDup l.
Proof.
  induction l as [|x l IH]; [constructor|].
  rewrite list_to_set_cons. intros H. simpl in H. constructor.
  - intros Hx. pose proof (size_list_to_set_le l) as Hle.
    assert ({[x]} ∪ list_to_set l = (list_to_set l : gset Z)) as E.
    { assert (x ∈ (list_to_set l : gset Z)) by (by apply elem_of_list_to_set). set_solver. }
    rewrite E in H. lia.
  - apply IH. pose proof (size_list_to_set_le l) as Hle.
    pose proof (size_union_alt ({[x]} : gset Z) (list_to_set l)) as H1.
    pose proof (subseteq_size (list_to_set l ∖ {[x]}) (list_to_set l : gset Z)) as H2.
    rewrite size_singleton in H1. rewrite H1 in H.
    assert (list_to_set l ∖ {[x]} ⊆ (list_to_set l : gset Z)) as Hs by set_solver.
    specialize (H2 Hs). lia.
Qed.

Lemma chosen_distinct winner_id second_id third_id :
  NoDup (chosen winner_id second_id third_id) →
  (truthy second_id = true → second_id ≠ Some winner_id)
  ∧ (truthy third_id = true → third_id ≠ Some winner_id)
  ∧ (truthy second_id = true → truthy third_id = true → second_id ≠ third_id).
Proof.
  unfold chosen. destruct second_id as [s|], third_id as [t|]; simpl;
    destruct (Z.eqb_spec winner_id 0) as [Hw|Hw]; simpl;
    repeat match goal with
    | |- context [?x =? 0] => destruct (Z.eqb_spec x 0); simpl
    end;
    rewrite ?NoDup_cons, ?elem_of_cons, ?elem_of_nil;
    intros H; repeat split; intros; try done; try congruence;
    intros [= ?]; subst; tauto.
Qed.

Lemma assign_positions_podium sweep winner_id second_id third_id rs :
  assign_positions sweep winner_id second_id third_id rs
  = (λ r, GameResult.mk (GameResult.player_id r)
            (podium sweep winner_id second_id third_id (GameResult.player_id r)))
    <$> rs.
Proof.
  unfold assign_positions, podium.
  destruct sweep; simpl; rewrite <- !list_fmap_compose; apply list_fmap_ext;
    intros i r _; simpl.
  - by destruct (GameResult.player_id r =? winner_id).
  - destruct (GameResult.player_id r =? winner_id); simpl;
      destruct (truthy second_id && bool_decide (Some (GameResult.player_id r) = second_id));
      simpl;
      by destruct (truthy third_id && bool_decide (Some (GameResult.player_id r) = third_id)).
Qed.

(** What a committed [edit_game] has checked and written. *)
Lemma edit_game_Committed sweep save_player_id winner_id second_id third_id g g' :
  edit_game sweep save_player_id winner_id second_id third_id g = Committed g' →
  ∃ w, winner_id = Some w
    ∧ w ∈ participant_ids g
    ∧ (sweep = false → NoDup (chosen w second_id third_id))
    ∧ (sweep = false → ∀ pid, second_id = Some pid ∨ third_id = Some pid →
         pid ∈ participant_ids g)
    ∧ (truthy save_player_id = true → save_player_id ∈ Some <$> participant_ids g)
    ∧ g' = Game.mk (Game.round_number g) (Game.table_no g) sweep save_player_id
             ((λ r, GameResult.mk (GameResult.player_id r)
                      (podium sweep w (if sweep then None else second_id)
                         (if sweep then None else third_id) (GameResult.player_id r)))
              <$> Game.results g).
Proof.
  unfold edit_game. destruct winner_id as [w|]; [|done].
  destruct (bool_decide (w ∈ participant_ids g)) eqn:Hw; simpl; [|done].
  apply bool_decide_eq_true in Hw.
  destruct sweep; simpl.
  - destruct (truthy save_player_id
              && negb (bool_decide (save_player_id ∈ Some <$> participant_ids g))) eqn:Hs;
      [done|].
    intros [= <-]. exists w. repeat split; try done.
    + intros Ht. rewrite Ht in Hs. simpl in Hs.
      by apply negb_false_iff, bool_decide_eq_true in Hs.
    + by rewrite assign_positions_podium.
  - destruct (size (list_to_set (chosen w second_id third_id) : gset Z)
              =? length (chosen w second_id third_id))%nat eqn:Hc; simpl; [|done].
    apply Nat.eqb_eq, size_list_to_set_NoDup in Hc.
    destruct (match second_id with
              | Some pid => negb (bool_decide (pid ∈ participant_ids g))
              | None => false
              end) eqn:H2; simpl; [done|].
    destruct (match third_id with
              | Some pid => negb (bool_decide (pid ∈ participant_ids g))
              | None => false
              end) eqn:H3; simpl; [done|].
    destruct (truthy save_player_id
              && negb (bool_decide (save_player_id ∈ Some <$> participant_ids g))) eqn:Hs;
      [done|].
    intros [= <-]. exists w. repeat split; try done.
    + intros _ pid [->| ->].
      * by apply negb_false_iff, bool_decide_eq_true in H2.
      * by apply negb_false_iff, bool_decide_eq_true in H3.
    + intros Ht. rewrite Ht in Hs. simpl in Hs.
      by apply negb_false_iff, bool_decide_eq_true in Hs.
    + by rewrite assign_positions_podium.
Qed.

Lemma filter_none {A} (P : A → Prop) `{!∀ x, Decision (P x)} (l : list A) :
  (∀ x, x ∈ l → ¬ P x) → filter P l = [].
Proof.
  induction l as [|x l IH]; intros Hl; [done|]. rewrite filter_cons.
  destruct (decide (P x)) as [Hx|_]; [by destruct (Hl x (list_elem_of_here _ _))|].
  apply IH. intros y Hy. apply Hl. by right.
Qed.

Section one_per_player.
Context (P : GameResult.t → Prop) `{!∀ r, Decision (P r)}.

Lemma filter_at_most_one (x : Z) (rs : list GameResult.t) :
  NoDup (GameResult.player_id <$> rs) →
  (∀ r, r ∈ rs → P r → GameResult.player_id r = x) →
  (length (filter P rs) ≤ 1)%nat.
Proof.
  induction rs as [|r rs IH]; simpl; [lia|].
  rewrite NoDup_cons. intros [Hr Hnd] HP. rewrite filter_cons.
  assert (∀ r', r' ∈ rs → P r' → GameResult.player_id r' = x) as HP'.
  { intros r' Hr'. apply HP. by right. }
  destruct (decide (P r)) as [Hpr|_]; [|by apply IH].
  assert (filter P rs = []) as ->; [|simpl; lia].
  apply filter_none. intros r' Hr' Hpr'. apply Hr.
  rewrite (HP r (list_elem_of_here _ _) Hpr), <- (HP' r' Hr' Hpr').
  by apply list_elem_of_fmap_2.
Qed.

Lemma filter_exactly_one (x : Z) (rs : list GameResult.t) :
  NoDup (GameResult.player_id <$> rs) →
  x ∈ GameResult.player_id <$> rs →
  (∀ r, r ∈ rs → P r ↔ GameResult.player_id r = x) →
  length (filter P rs) = 1%nat.
Proof.
  intros Hnd Hx HP.
  pose proof (filter_at_most_one x rs Hnd (λ r Hr, proj1 (HP r Hr))) as Hle.
  apply list_elem_of_fmap in Hx as (r & -> & Hr).
  assert (r ∈ filter P rs) as Hin.
  { apply list_elem_of_filter. split; [by apply HP|done]. }
  destruct (filter P rs); [by apply elem_of_nil in Hin|simpl in *; lia].
Qed.

End one_per_player.

Lemma Zsum_indicator (x : Z) (c : Z) (rs : list GameResult.t) :
  NoDup (GameResult.player_id <$> rs) →
  x ∈ GameResult.player_id <$> rs →
  Zsum (λ r, if decide (GameResult.player_id r = x) then c else 0) rs = c.
Proof.
  induction rs as [|r rs IH]; simpl; [by intros _ ?%elem_of_nil|].
  rewrite NoDup_cons, elem_of_cons. intros [Hr Hnd] Hx.
  destruct (decide (GameResult.player_id r = x)) as [E|E].
  - assert (Zsum (λ r, if decide (GameResult.player_id r = x) then c else 0) rs = 0) as H0.
    { clear IH Hx Hnd. induction rs as [|r' rs IH]; simpl; [done|].
      rewrite fmap_cons, not_elem_of_cons in Hr. destruct Hr as [Hne Hr].
      fold (Zsum (λ r, if decide (GameResult.player_id r = x) then c else 0) rs).
      rewrite (IH Hr). destruct (decide (GameResult.player_id r' = x)); [congruence|lia]. }
    fold (Zsum (λ r, if decide (GameResult.player_id r = x) then c else 0) rs).
    rewrite H0. lia.
  - fold (Zsum (λ r, if decide (GameResult.player_id r = x) then c else 0) rs).
    rewrite IH; [lia|done|]. destruct Hx as [->|Hx]; [done|done].
Qed.

Lemma Zsum_plus {A} (f g : A → Z) (l : list A) :
  Zsum (λ x, f x + g x) l = Zsum f l + Zsum g l.
Proof. induction l as [|x l IH]; simpl; [done|]. unfold Zsum in *. simpl. lia. Qed.

Lemma Zsum_ext {A} (f g : A → Z) (l : list A) :
  (∀ x, x ∈ l → f x = g x) → Zsum f l = Zsum g l.
Proof.
  induction l as [|x l IH]; intros H; [done|]. rewrite !Zsum_cons.
  rewrite (H x (list_elem_of_here _ _)), IH; [done|]. intros y Hy. apply H. by right.
Qed.

Lemma Zsum_zero {A} (l : list A) : Zsum (λ _, 0) l = 0.
Proof. induction l as [|x l IH]; [done|]. rewrite Zsum_cons. lia. Qed.

(** The positions [podium] hands out once the choices are known to be
    distinct. *)
Lemma podium_first sweep w s t p :
  (truthy s = true → s ≠ Some w) → (truthy t = true → t ≠ Some w) →
  podium sweep w s t p = Some 1 ↔ p = w.
Proof.
  intros Hs Ht. unfold podium.
  destruct (negb sweep && truthy t && bool_decide (Some p = t)) eqn:E3.
  { apply andb_true_iff in E3 as [[_ Tt]%andb_true_iff E%bool_decide_eq_true].
    split; [done|]. intros ->. by destruct (Ht Tt). }
  destruct (negb sweep && truthy s && bool_decide (Some p = s)) eqn:E2.
  { apply andb_true_iff in E2 as [[_ Ts]%andb_true_iff E%bool_decide_eq_true].
    split; [done|]. intros ->. by destruct (Hs Ts). }
  destruct (Z.eqb_spec p w); split; congruence.
Qed.

Lemma podium_second sweep w s t p :
  (truthy s = true → truthy t = true → s ≠ t) →
  podium sweep w s t p = Some 2 ↔ sweep = false ∧ truthy s = true ∧ s = Some p.
Proof.
  intros Hst. unfold podium.
  destruct (negb sweep && truthy t && bool_decide (Some p = t)) eqn:E3.
  { apply andb_true_iff in E3 as [[_ Tt]%andb_true_iff E%bool_decide_eq_true].
    split; [done|]. intros (_ & Ts & ->). by destruct (Hst Ts Tt). }
  destruct (negb sweep && truthy s && bool_decide (Some p = s)) eqn:E2.
  { apply andb_true_iff in E2 as [[Hsw%negb_true_iff Ts]%andb_true_iff E%bool_decide_eq_true].
    done. }
  split.
  - destruct (p =? w); congruence.
  - intros (-> & Ts & ->). rewrite Ts, bool_decide_eq_true_2 in E2; done.
Qed.

Lemma podium_third sweep w s t p :
  podium sweep w s t p = Some 3 ↔ sweep = false ∧ truthy t = true ∧ t = Some p.
Proof.
  unfold podium.
  destruct (negb sweep && truthy t && bool_decide (Some p = t)) eqn:E3.
  { apply andb_true_iff in E3 as [[Hsw%negb_true_iff Tt]%andb_true_iff E%bool_decide_eq_true].
    done. }
  split.
  - destruct (negb sweep && truthy s && bool_decide (Some p = s)); [done|].
    destruct (p =? w); congruence.
  - intros (-> & Tt & ->). rewrite Tt, bool_decide_eq_true_2 in E3; done.
Qed.

Lemma podium_range sweep w s t p :
  podium sweep w s t p ∈ [None; Some 1; Some 2; Some 3].
Proof.
  unfold podium.
  destruct (negb sweep && truthy t && bool_decide (Some p = t)); [set_solver|].
  destruct (negb sweep && truthy s && bool_decide (Some p = s)); [set_solver|].
  destruct (p =? w); set_solver.
Qed.

(** The choices a committed [edit_game] works with are pairwise distinct. *)
Lemma effective_distinct (sweep : bool) w (s t : option Z) :
  (sweep = false → NoDup (chosen w s t)) →
  let s' := if sweep then None else s in
  let t' := if sweep then None else t in
  (truthy s' = true → s' ≠ Some w)
  ∧ (truthy t' = true → t' ≠ Some w)
  ∧ (truthy s' = true → truthy t' = true → s' ≠ t').
Proof.
  destruct sweep; simpl; [done|]. intros H. by apply chosen_distinct, H.
Qed.

(** X14.  [game_edit] (lines 426-468), one table: when the table holds a
    player at most once and the form is accepted, the participants, the
    round and the table number stay as they were, exactly one result has
    position 1, at most one has position 2 and at most one position 3, no
    other position is stored, a sweep leaves no position 2 or 3, the stored
    sweep flag and save designation are those of the form, and a non-empty
    save designation names a participant. *)
Theorem game_edit_podium sweep save_player_id winner_id second_id third_id g g' :
  NoDup (participant_ids g) →
  edit_game sweep save_player_id winner_id second_id third_id g = Committed g' →
  participant_ids g' = participant_ids g
  ∧ Game.round_number g' = Game.round_number g
  ∧ Game.table_no g' = Game.table_no g
  ∧ Game.sweep g' = sweep
  ∧ Game.save_player_id g' = save_player_id
  ∧ (truthy save_player_id = true → save_player_id ∈ Some <$> participant_ids g')
  ∧ count_position 1 g' = 1%nat
  ∧ (count_position 2 g' ≤ 1)%nat
  ∧ (count_position 3 g' ≤ 1)%nat
  ∧ (sweep = true → count_position 2 g' = 0%nat ∧ count_position 3 g' = 0%nat)
  ∧ (∀ r, r ∈ Game.results g' →
       GameResult.position r ∈ [None; Some 1; Some 2; Some 3]).
Proof.
  intros Hnd H.
  apply edit_game_Committed in H as (w & -> & Hw & Hch & Hin & Hsave & ->).
  pose proof (effective_distinct sweep w second_id third_id Hch) as (Ha & Hb & Hc).
  set (s := if sweep then None else second_id) in *.
  set (t := if sweep then None else third_id) in *.
  set (f := λ r, GameResult.mk (GameResult.player_id r)
                   (podium sweep w s t (GameResult.player_id r))).
  assert (participant_ids (Game.mk (Game.round_number g) (Game.table_no g) sweep
            save_player_id (f <$> Game.results g)) = participant_ids g) as Hpart.
  { unfold participant_ids. simpl. rewrite <- list_fmap_compose.
    by apply list_fmap_ext. }
  assert (NoDup (GameResult.player_id <$> (f <$> Game.results g))) as Hnd'.
  { unfold participant_ids in Hpart. simpl in Hpart. by rewrite Hpart. }
  assert (∀ r, r ∈ f <$> Game.results g →
            GameResult.position r = podium sweep w s t (GameResult.player_id r)) as Hpos.
  { intros r (r0 & -> & _)%list_elem_of_fmap. done. }
  split; [done|]. do 4 (split; [done|]).
  split; [by rewrite Hpart|].
  unfold count_position. simpl.
  split; [|split; [|split; [|split]]].
  - apply (filter_exactly_one _ w); [done|by rewrite <- Hpart in Hw|].
    intros r Hr. rewrite (Hpos r Hr). by apply podium_first.
  - destruct (decide (truthy s = true ∧ ∃ p, s = Some p)) as [[Ts [p Hp]]|Hn].
    + apply (filter_at_most_one _ p); [done|].
      intros r Hr. rewrite (Hpos r Hr). intros (_ & _ & E)%podium_second; [|done].
      congruence.
    + apply (filter_at_most_one _ 0); [done|].
      intros r Hr. rewrite (Hpos r Hr). intros (_ & Ts & E)%podium_second; [|done].
      destruct Hn. eauto.
  - destruct (decide (truthy t = true ∧ ∃ p, t = Some p)) as [[Tt [p Hp]]|Hn].
    + apply (filter_at_most_one _ p); [done|].
      intros r Hr. rewrite (Hpos r Hr). intros (_ & _ & E)%podium_third. congruence.
    + apply (filter_at_most_one _ 0); [done|].
      intros r Hr. rewrite (Hpos r Hr). intros (_ & Tt & E)%podium_third.
      destruct Hn. eauto.
  - intros ->. split; apply length_zero_iff_nil, filter_none;
      intros r Hr; rewrite (Hpos r Hr).
    + by intros (? & _)%podium_second.
    + by intros (? & _)%podium_third.
  - intros r Hr. rewrite (Hpos r Hr). apply podium_range.
Qed.

Lemma game_edit_podium_witness :
  ∃ g', edit_game false (Some 5) (Some 7) (Some 2) None
          (Game.mk 1 1 false None
             [ GameResult.mk 2 (Some 1); GameResult.mk 5 None;
               GameResult.mk 7 None; GameResult.mk 8 (Some 2) ]) = Committed g'
    ∧ count_position 1 g' = 1%nat.
Proof.
  eexists. split; [vm_compute; reflexivity|].
  eapply (game_edit_podium false (Some 5) (Some 7) (Some 2) None
            (Game.mk 1 1 false None
               [ GameResult.mk 2 (Some 1); GameResult.mk 5 None;
                 GameResult.mk 7 None; GameResult.mk 8 (Some 2) ]));
    [|vm_compute; reflexivity].
  apply (bool_decide_unpack _). vm_compute. exact I.
Defined.

Lemma podium_sweep w s t p :
  podium true w s t p = if p =? w then Some 1 else None.
Proof. done. Qed.

Lemma podium_effective sweep w s t p :
  podium sweep w (if sweep then None else s) (if sweep then None else t) p
  = podium sweep w s t p.
Proof. by destruct sweep. Qed.

(** Sum over the results of a table of what one podium choice is worth. *)
Lemma Zsum_choice (sweep : bool) (o : option Z) (c : Z) (rs : list GameResult.t) :
  NoDup (GameResult.player_id <$> rs) →
  (sweep = false → ∀ q, o = Some q → q ∈ GameResult.player_id <$> rs) →
  Zsum (λ r, if negb sweep && truthy o && bool_decide (Some (GameResult.player_id r) = o)
             then c else 0) rs
  = if negb sweep && truthy o then c else 0.
Proof.
  intros Hnd Hin. destruct (negb sweep && truthy o) eqn:E; simpl; [|apply Zsum_zero].
  apply andb_true_iff in E as [Hsw%negb_true_iff To].
  destruct o as [q|]; [|done].
  etrans; [|exact (Zsum_indicator q c rs Hnd (Hin Hsw q eq_refl))].
  apply Zsum_ext. intros r _.
  destruct (decide (GameResult.player_id r = q)) as [Heq|Hne].
  - rewrite bool_decide_eq_true_2; [done|]. by rewrite Heq.
  - rewrite bool_decide_eq_false_2; [done|]. congruence.
Qed.

Lemma podium_points sweep w s t p :
  (sweep = false → NoDup (chosen w s t)) →
  points_for_position (podium sweep w s t p) sweep
  = (if decide (p = w) then 3 else 0)
    + (if negb sweep && truthy s && bool_decide (Some p = s) then 2 else 0)
    + (if negb sweep && truthy t && bool_decide (Some p = t) then 1 else 0).
Proof.
  destruct sweep; simpl.
  - intros _. rewrite podium_sweep.
    destruct (Z.eqb_spec p w), (decide (p = w)); done.
  - intros H. destruct (chosen_distinct w s t (H eq_refl)) as (Ha & Hb & Hc).
    unfold podium. simpl.
    destruct (truthy t && bool_decide (Some p = t)) eqn:E3.
    { apply andb_true_iff in E3 as [Tt E%bool_decide_eq_true]. simpl.
      rewrite decide_False; [|intros ->; by destruct (Hb Tt)].
      destruct (truthy s && bool_decide (Some p = s)) eqn:E2; [|done].
      apply andb_true_iff in E2 as [Ts E'%bool_decide_eq_true].
      destruct (Hc Ts Tt). congruence. }
    destruct (truthy s && bool_decide (Some p = s)) eqn:E2.
    { apply andb_true_iff in E2 as [Ts E%bool_decide_eq_true]. simpl.
      rewrite decide_False; [done|]. intros ->. by destruct (Ha Ts). }
    destruct (Z.eqb_spec p w), (decide (p = w)); done.
Qed.

(** X15.  [game_edit] (lines 426-468) with [points_for_position]: on a
    table that holds a player at most once, an accepted form hands out 3
    points for the winner, 2 more when a second is given and 1 more when a
    third is given, a sweep giving the 3 points only. *)
Theorem game_edit_points sweep save_player_id winner_id second_id third_id g g' :
  NoDup (participant_ids g) →
  edit_game sweep save_player_id winner_id second_id third_id g = Committed g' →
  table_points g'
  = 3 + (if negb sweep && truthy second_id then 2 else 0)
      + (if negb sweep && truthy third_id then 1 else 0).
Proof.
  intros Hnd H.
  apply edit_game_Committed in H as (w & -> & Hw & Hch & Hin & _ & ->).
  unfold table_points. simpl.
  set (f := λ r, GameResult.mk (GameResult.player_id r) _).
  transitivity
    (Zsum (λ r, (if decide (GameResult.player_id r = w) then 3 else 0)
                + (if negb sweep && truthy second_id
                      && bool_decide (Some (GameResult.player_id r) = second_id)
                   then 2 else 0)
                + (if negb sweep && truthy third_id
                      && bool_decide (Some (GameResult.player_id r) = third_id)
                   then 1 else 0)) (Game.results g)).
  { generalize (Game.results g). intros rs.
    induction rs as [|r rs IH]; [done|]. rewrite fmap_cons, !Zsum_cons, IH.
    f_equal. unfold f. simpl. rewrite podium_effective. by apply podium_points. }
  rewrite (Zsum_plus (λ r, _ + _)), (Zsum_plus (λ r, if decide _ then _ else _)).
  rewrite (Zsum_indicator w 3), !Zsum_choice; try done.
  - intros Hsw q ->. apply Hin; auto.
  - intros Hsw q ->. apply Hin; auto.
Qed.

Lemma game_edit_points_witness :
  ∃ g', edit_game false (Some 5) (Some 7) (Some 2) None
          (Game.mk 1 1 false None
             [ GameResult.mk 2 (Some 1); GameResult.mk 5 None;
               GameResult.mk 7 None; GameResult.mk 8 (Some 2) ]) = Committed g'
    ∧ table_points g' = 5.
Proof.
  eexists. split; [vm_compute; reflexivity|].
  apply (game_edit_points false (Some 5) (Some 7) (Some 2) None
           (Game.mk 1 1 false None
              [ GameResult.mk 2 (Some 1); GameResult.mk 5 None;
                GameResult.mk 7 None; GameResult.mk 8 (Some 2) ]));
    [|vm_compute; reflexivity].
  apply (bool_decide_unpack _). vm_compute. exact I.
Defined.

(** What a committed [game_edit] has found and written. *)
Lemma game_edit_Committed is_admin game_id sweep save_player_id winner_id second_id
    third_id db db' :
  game_edit is_admin game_id sweep save_player_id winner_id second_id third_id db
  = Committed db' →
  ∃ row g' l1 l2,
    is_admin = true
    ∧ find (has_id game_id) (game_rows db) = Some row
    ∧ edit_game sweep save_player_id winner_id second_id third_id row.2 = Committed g'
    ∧ game_rows db = l1 ++ row :: l2
    ∧ has_id game_id row = true
    ∧ Forall (λ y, has_id game_id y = false) l1
    ∧ db' = {| player_rows := player_rows db; round_rows := round_rows db;
               game_rows := l1 ++ (row.1, g') :: l2 |}.
Proof.
  unfold game_edit. destruct is_admin; simpl; [|done].
  destruct (find (has_id game_id) (game_rows db)) as [row|] eqn:Hf; [|done].
  destruct (edit_game sweep save_player_id winner_id second_id third_id row.2)
    as [g'|] eqn:He; [|done].
  intros [= <-]. destruct (find_Some_split _ _ _ Hf) as (l1 & l2 & Hl & Hrow & Hl1).
  exists row, g', l1, l2. repeat split; try done.
  f_equal. rewrite Hl. by rewrite update_first_split.
Qed.

Lemma edit_game_has_winner sweep save_player_id winner_id second_id third_id g g' :
  edit_game sweep save_player_id winner_id second_id third_id g = Committed g' →
  has_winner g' = true.
Proof.
  intros (w & -> & Hw & Hch & _ & _ & ->)%edit_game_Committed.
  pose proof (effective_distinct sweep w second_id third_id Hch) as (Ha & Hb & _).
  unfold has_winner. simpl. apply orb_true_iff. left.
  apply existsb_exists. apply list_elem_of_fmap in Hw as (r & -> & Hr).
  eexists. split.
  - apply list_elem_of_In, list_elem_of_fmap_2, Hr.
  - simpl. apply bool_decide_eq_true. by apply podium_first.
Qed.

(** X16.  [game_edit] with the participation rule of [index] (lines
    207-209): once a form is accepted the table is a played one, so every
    player sitting at it is credited with the round of the table. *)
Theorem game_edit_credits is_admin game_id sweep save_player_id winner_id second_id
    third_id db db' :
  game_edit is_admin game_id sweep save_player_id winner_id second_id third_id db
  = Committed db' →
  ∃ row, find (has_id game_id) (game_rows db) = Some row
    ∧ ∀ pid, pid ∈ participant_ids row.2 →
        Game.round_number row.2 ∈ credited_rounds (store_of db') pid.
Proof.
  intros (row & g' & l1 & l2 & _ & Hf & He & _ & _ & _ & ->)%game_edit_Committed.
  exists row. split; [done|]. intros pid Hpid.
  apply credited_rounds_store_of. exists (row.1, g'). simpl.
  split; [apply elem_of_app; right; apply list_elem_of_here|].
  split; [by eapply edit_game_has_winner|].
  apply edit_game_Committed in He as (w & _ & _ & _ & _ & _ & ->). simpl.
  split; [|done]. unfold participates. simpl.
  rewrite <- list_fmap_compose. exact Hpid.
Qed.

Lemma game_edit_credits_witness :
  ∃ db', game_edit true 1 false (Some 5) (Some 7) (Some 2) None league = Committed db'
    ∧ ∃ row, find (has_id 1) (game_rows league) = Some row
        ∧ ∀ pid, pid ∈ participant_ids row.2 →
            Game.round_number row.2 ∈ credited_rounds (store_of db') pid.
Proof.
  eexists. split; [vm_compute; reflexivity|].
  apply (game_edit_credits true 1 false (Some 5) (Some 7) (Some 2) None league).
  vm_compute. reflexivity.
Defined.

(** X17.  [game_reset] (lines 487-506) after [game_edit]: clearing a table
    whose form has just been accepted gives the database that clearing it
    before the edit gives; nothing the edit wrote survives. *)
Theorem game_reset_after_edit is_admin game_id sweep save_player_id winner_id second_id
    third_id db db1 :
  game_edit is_admin game_id sweep save_player_id winner_id second_id third_id db
  = Committed db1 →
  game_reset is_admin game_id db1 = game_reset is_admin game_id db.
Proof.
  intros (row & g' & l1 & l2 & -> & Hf & He & Hl & Hrow & Hl1 & ->)%game_edit_Committed.
  unfold game_reset. simpl. rewrite Hf, Hl.
  rewrite (find_split (has_id game_id) l1 l2 (row.1, g') Hl1 Hrow).
  rewrite !update_first_split by done. simpl. do 3 f_equal.
  apply edit_game_Committed in He as (w & _ & _ & _ & _ & _ & ->).
  unfold clear_game. simpl. f_equal. by rewrite <- list_fmap_compose.
Qed.

Lemma game_reset_after_edit_witness :
  ∃ db1, game_edit true 1 false (Some 5) (Some 7) (Some 2) None league = Committed db1
    ∧ game_reset true 1 db1 = game_reset true 1 league.
Proof.
  eexists. split; [vm_compute; reflexivity|].
  apply (game_reset_after_edit true 1 false (Some 5) (Some 7) (Some 2) None league).
  vm_compute. reflexivity.
Defined.

(** ** [reset_tournament] *)

Lemma tally_empty s :
  round_infos s = [] → games s = [] →
  tally s = Ok (init_totals (active_players s), ∅, ∅, ∅).
Proof.
  intros Hr Hg. unfold tally, ordered_games, sorted. by rewrite Hr, Hg.
Qed.

Lemma rivals_elem_of pp pid me :
  me ∈ rivals pp pid → ∃ q, (q, me) ∈ pp.
Proof.
  unfold rivals. intros ([q me'] & -> & [_ H]%list_elem_of_filter)%list_elem_of_fmap.
  by exists q.
Qed.

(** The rows of [per_player] when no round and no table is stored. *)
Lemma standings_empty s pp tr q me :
  round_infos s = [] → games s = [] →
  standings s = Ok (pp, tr) → (q, me) ∈ pp →
  tr = 0
  ∧ PerPlayer.points me = 0 ∧ PerPlayer.wins me = 0 ∧ PerPlayer.seconds me = 0
  ∧ PerPlayer.thirds me = 0 ∧ PerPlayer.saves me = 0
  ∧ PerPlayer.played me = 0 ∧ PerPlayer.rests me = 0
  ∧ PerPlayer.planned_to_play me = 0 ∧ PerPlayer.remaining me = 0
  ∧ PerPlayer.status me = None.
Proof.
  intros Hr Hg Hst Hin.
  destruct (standings_medals s pp tr q me Hst Hin) as (Hw & Hs & Ht).
  rewrite Hg in Hw, Hs, Ht.
  apply standings_inv in Hst as (T & P & A & R & Htally & -> & _ & _ & Hrows).
  rewrite (tally_empty s Hr Hg) in Htally. injection Htally as <- <- <- <-.
  assert (∀ q me, (q, me) ∈ pp →
            PerPlayer.points me = 0 ∧ PerPlayer.saves me = 0
            ∧ PerPlayer.played me = 0 ∧ PerPlayer.rests me = 0
            ∧ PerPlayer.planned_to_play me = 0 ∧ PerPlayer.remaining me = 0
            ∧ PerPlayer.lb me = 0 ∧ PerPlayer.ub me = 0) as Hzero.
  { intros q' me' Hin'. destruct (Hrows q' me' Hin') as [(t & Ht' & Hrow) _].
    apply init_totals_lookup in Ht' as [Hp0 Hs0].
    rewrite !lookup_empty in Hrow. cbn [default from_option id] in Hrow.
    rewrite !size_empty in Hrow. lia. }
  destruct (Hzero q me Hin) as (Hp & Hsv & Hpl & Hre & Hpp & Hrem & Hlb & Hub).
  do 10 (split; [done|]).
  destruct (Hrows q me Hin) as [_ (LB & UB & HLB & HUB & ->)].
  assert (LB = 0) as ->.
  { apply list_elem_of_lookup_2 in HLB. unfold sorted in HLB.
    rewrite stable_sort_elem_of in HLB.
    apply list_elem_of_fmap in HLB as (me' & -> & [q' Hme']%rivals_elem_of).
    by destruct (Hzero q' me' Hme') as (_ & _ & _ & _ & _ & _ & ? & _). }
  assert (UB = 0) as ->.
  { apply list_elem_of_lookup_2 in HUB. unfold sorted in HUB.
    rewrite stable_sort_elem_of in HUB.
    apply list_elem_of_fmap in HUB as (me' & -> & [q' Hme']%rivals_elem_of).
    by destruct (Hzero q' me' Hme') as (_ & _ & _ & _ & _ & _ & _ & ?). }
  by rewrite Hlb, Hub.
Qed.

Lemma make_table_source pp r :
  r ∈ make_table pp →
  ∃ e, e ∈ pp
    ∧ r = set_pos (make_row e) (competition_rank (sorted_rows pp) (row_key (make_row e)))
    ∧ ∀ r', r' ∈ sorted_rows pp → ∃ e', e' ∈ pp ∧ r' = make_row e'.
Proof.
  rewrite make_table_eq. intros (t & -> & Ht)%list_elem_of_fmap.
  assert (∀ r', r' ∈ sorted_rows pp → ∃ e', e' ∈ pp ∧ r' = make_row e') as Hall.
  { intros r' Hr'. unfold sorted_rows, sorted in Hr'. rewrite !stable_sort_elem_of in Hr'.
    apply list_elem_of_fmap in Hr' as (e' & -> & He'). by exists e'. }
  destruct (Hall t Ht) as (e & He & ->). by exists e.
Qed.

(** The standings of a store without rounds and tables. *)
Lemma index_empty s :
  round_infos s = [] → games s = [] →
  ((0 < size (active_ids s) < 5)%nat → index s = Raise IndexError)
  ∧ (¬ (0 < size (active_ids s) < 5)%nat →
     ∃ ctx, index s = Ok ctx
       ∧ total_rounds ctx = 0
       ∧ (∀ r, r ∈ table ctx →
            Row.points r = 0 ∧ Row.wins r = 0 ∧ Row.seconds r = 0 ∧ Row.thirds r = 0
            ∧ Row.saves r = 0 ∧ Row.status r = None ∧ Row.pos r = 1)
       ∧ (∀ row, row ∈ participation ctx →
            Participation.played row = 0 ∧ Participation.remaining row = 0
            ∧ Participation.rests row = 0 ∧ Participation.planned_to_play row = 0)).
Proof.
  intros Hr Hg.
  assert (results_within (active_ids s) (games s)) as Hres.
  { rewrite Hg. apply Forall_nil_2. }
  split; [by apply index_few|]. intros Hn.
  destruct (index_total s Hres) as [ctx Hctx]; [lia|].
  exists ctx. split; [done|].
  apply index_Ok in Hctx as (pp & tr & Hst & ->). simpl.
  assert (∀ e, e ∈ pp → row_key (make_row e) = (0, 0, 0, 0) ∧ tr = 0) as Hkey.
  { intros [q me] He.
    destruct (standings_empty s pp tr q me Hr Hg Hst He)
      as (? & Hp & Hw & Hs & Ht & _). unfold row_key. simpl. split; [|done].
    by rewrite Hp, Hw, Hs, Ht. }
  split; [|split].
  - destruct pp as [|e pp'] eqn:Epp.
    + apply standings_inv in Hst as (T & P & A & R & Htally & -> & _).
      rewrite (tally_empty s Hr Hg) in Htally. injection Htally as <- <- <- <-.
      by rewrite size_empty.
    + apply (Hkey e). apply list_elem_of_here.
  - intros r (e & He & -> & Hall)%make_table_source. destruct e as [q me].
    destruct (standings_empty s pp tr q me Hr Hg Hst He)
      as (_ & Hp & Hw & Hs & Ht & Hsv & _ & _ & _ & _ & Hstat).
    simpl. do 6 (split; [done|]).
    unfold competition_rank. rewrite filter_none; [done|].
    intros r' (e' & He' & ->)%Hall.
    destruct (Hkey _ He) as [-> _]. destruct (Hkey _ He') as [-> _].
    apply key_lt_irrefl.
  - intros row ([q me] & He & Hpl & Hrem & Hre & Hpp)%make_participation_elem_of.
    destruct (standings_empty s pp tr q me Hr Hg Hst He)
      as (_ & _ & _ & _ & _ & _ & ? & ? & ? & ? & _).
    simpl in *. repeat split; congruence.
Qed.

(** X18.  After [reset_tournament] the players are as before and [index]
    never stops at a stored result: with one to four active players it
    raises IndexError, and otherwise it completes with total_rounds 0, every
    row of the table at 0 points, no medals, no saves, no verdict and
    position 1, and every row of the participation list at 0. *)
Theorem reset_tournament_index is_admin db db' :
  reset_tournament is_admin db = Committed db' →
  player_rows db' = player_rows db
  ∧ ((0 < size (active_ids (store_of db')) < 5)%nat →
     index (store_of db') = Raise IndexError)
  ∧ (¬ (0 < size (active_ids (store_of db')) < 5)%nat →
     ∃ ctx, index (store_of db') = Ok ctx
       ∧ total_rounds ctx = 0
       ∧ (∀ r, r ∈ table ctx →
            Row.points r = 0 ∧ Row.wins r = 0 ∧ Row.seconds r = 0 ∧ Row.thirds r = 0
            ∧ Row.saves r = 0 ∧ Row.status r = None ∧ Row.pos r = 1)
       ∧ (∀ row, row ∈ participation ctx →
            Participation.played row = 0 ∧ Participation.remaining row = 0
            ∧ Participation.rests row = 0 ∧ Participation.planned_to_play row = 0)).
Proof.
  unfold reset_tournament. destruct is_admin; simpl; [|done]. intros [= <-].
  split; [done|]. by apply index_empty.
Qed.

Lemma reset_tournament_index_witness :
  ∃ db', reset_tournament true league = Committed db'
    ∧ player_rows db' = player_rows league
    ∧ ((0 < size (active_ids (store_of db')) < 5)%nat →
       index (store_of db') = Raise IndexError)
    ∧ (¬ (0 < size (active_ids (store_of db')) < 5)%nat →
       ∃ ctx, index (store_of db') = Ok ctx
         ∧ total_rounds ctx = 0
         ∧ (∀ r, r ∈ table ctx →
              Row.points r = 0 ∧ Row.wins r = 0 ∧ Row.seconds r = 0 ∧ Row.thirds r = 0
              ∧ Row.saves r = 0 ∧ Row.status r = None ∧ Row.pos r = 1)
         ∧ (∀ row, row ∈ participation ctx →
              Participation.played row = 0 ∧ Participation.remaining row = 0
              ∧ Participation.rests row = 0 ∧ Participation.planned_to_play row = 0)).
Proof.
  eexists. split; [vm_compute; reflexivity|].
  apply (reset_tournament_index true league). vm_compute. reflexivity.
Defined.

(** ** [round_edit] *)

Lemma all_ids_active s p :
  p ∈ Player.id <$> active_players s ↔ p ∈ active_ids s.
Proof.
  unfold active_players, sorted, active_ids.
  by rewrite stable_sort_perm, elem_of_list_to_set.
Qed.

(** What the loop over [all_ids] collects. *)
Lemma read_slots_spec form ids :
  ∃ t1 t2 b, read_slots form ids = (t1, t2, b)
    ∧ (∀ p, p ∈ t1 ↔ p ∈ ids ∧ form p = "1"%string)
    ∧ (∀ p, p ∈ t2 ↔ p ∈ ids ∧ form p = "2"%string)
    ∧ (∀ x, b = Some x → x ∈ ids ∧ form x = "bye"%string).
Proof.
  induction ids as [|x ids IH] using rev_ind.
  - exists ∅, ∅, None. split; [done|]. set_solver.
  - destruct IH as (t1 & t2 & b & E & H1 & H2 & Hb).
    unfold read_slots in *. rewrite foldl_app, E. simpl.
    destruct (String.eqb_spec (form x) "1") as [E1|N1].
    { exists (t1 ∪ {[x]}), t2, b. split; [done|]. split; [|split].
      - intros p. rewrite elem_of_union, elem_of_singleton, H1, elem_of_app, list_elem_of_singleton.
        naive_solver.
      - intros p. rewrite H2, elem_of_app, list_elem_of_singleton.
        split; [naive_solver|]. intros [[?| ->] ?]; [done|congruence].
      - intros y Hy. destruct (Hb y Hy). split; [|done]. apply elem_of_app. by left. }
    destruct (String.eqb_spec (form x) "2") as [E2|N2].
    { exists t1, (t2 ∪ {[x]}), b. split; [done|]. split; [|split].
      - intros p. rewrite H1, elem_of_app, list_elem_of_singleton.
        split; [naive_solver|]. intros [[?| ->] ?]; [done|congruence].
      - intros p. rewrite elem_of_union, elem_of_singleton, H2, elem_of_app, list_elem_of_singleton.
        naive_solver.
      - intros y Hy. destruct (Hb y Hy). split; [|done]. apply elem_of_app. by left. }
    destruct (String.eqb_spec (form x) "bye") as [E3|N3].
    { exists t1, t2, (Some x). split; [done|]. split; [|split].
      - intros p. rewrite H1, elem_of_app, list_elem_of_singleton.
        split; [naive_solver|]. intros [[?| ->] ?]; [done|congruence].
      - intros p. rewrite H2, elem_of_app, list_elem_of_singleton.
        split; [naive_solver|]. intros [[?| ->] ?]; [done|congruence].
      - intros y [= <-]. split; [|done]. apply elem_of_app. right. by apply list_elem_of_singleton. }
    exists t1, t2, b. split; [done|]. split; [|split].
    + intros p. rewrite H1, elem_of_app, list_elem_of_singleton.
      split; [naive_solver|]. intros [[?| ->] ?]; [done|congruence].
    + intros p. rewrite H2, elem_of_app, list_elem_of_singleton.
      split; [naive_solver|]. intros [[?| ->] ?]; [done|congruence].
    + intros y Hy. destruct (Hb y Hy). split; [|done]. apply elem_of_app. by left.
Qed.

Lemma deduce_bye_spec ids (t1 t2 : gset Z) bn b :
  deduce_bye ids t1 t2 bn = Some b →
  bn = Some b ∨ (bn = None ∧ b ∈ ids ∧ (b ∉ t1) ∧ (b ∉ t2)).
Proof.
  unfold deduce_bye. destruct bn as [x|]; [intros [= ->]; by left|].
  destruct (elements (list_to_set ids ∖ t1 ∖ t2 : gset Z)) as [|y [|z l]] eqn:E; try done.
  intros [= ->]. right.
  assert (b ∈ (list_to_set ids ∖ t1 ∖ t2 : gset Z)) as Hb.
  { apply elem_of_elements. rewrite E. apply list_elem_of_here. }
  set_solver.
Qed.

(** The bye that [round_edit] settles on sits at neither table, and the
    two tables share no player. *)
Lemma slots_apart form ids (t1 t2 : gset Z) bn b :
  read_slots form ids = (t1, t2, bn) →
  deduce_bye ids t1 t2 bn = Some b →
  t1 ∩ t2 = ∅ ∧ (b ∉ t1) ∧ (b ∉ t2) ∧ b ∈ ids
  ∧ (∀ p, p ∈ t1 ↔ p ∈ ids ∧ form p = "1"%string)
  ∧ (∀ p, p ∈ t2 ↔ p ∈ ids ∧ form p = "2"%string).
Proof.
  intros E Hb. destruct (read_slots_spec form ids) as (t1' & t2' & b' & E' & H1 & H2 & H3).
  rewrite E in E'. injection E' as <- <- <-.
  assert (t1 ∩ t2 = ∅) as Hd.
  { apply set_eq. intros p. rewrite elem_of_intersection, H1, H2.
    split; [|by intros ?%elem_of_empty]. intros [[_ Ea] [_ Eb]]. congruence. }
  split; [done|].
  apply deduce_bye_spec in Hb as [->|(-> & Hin & Hn1 & Hn2)].
  - destruct (H3 b eq_refl) as [Hin Hbye].
    split; [rewrite H1; intros [_ ?]; congruence|].
    split; [rewrite H2; intros [_ ?]; congruence|]. done.
  - done.
Qed.

Lemma slots_nine (t1 t2 : gset Z) b :
  size t1 = 4%nat → size t2 = 4%nat → t1 ∩ t2 = ∅ → b ∉ t1 → b ∉ t2 →
  size (t1 ∪ t2 ∪ {[b]}) = 9%nat.
Proof.
  intros S1 S2 Hd Hb1 Hb2.
  rewrite size_union by set_solver. rewrite size_union by set_solver.
  rewrite size_singleton. lia.
Qed.

(** X19.  [round_edit] refuses a form for three reasons only: no admin
    session, no unique bye, or a table that does not have four players.  The
    checks of lines 694-699 on repeated or missing players and on a player
    at both tables never fail once the two tables have four players each. *)
Theorem round_edit_refusals is_admin round_no form db why :
  round_edit is_admin round_no form db = Refused why →
  why = Unauthorized ∨ why = ByeNotUnique ∨ why = TableNotFour.
Proof.
  unfold round_edit. destruct is_admin; simpl; [|intros [= <-]; by left].
  destruct (read_slots form (Player.id <$> active_players (store_of db)))
    as [[t1 t2] bn] eqn:E.
  destruct (deduce_bye _ t1 t2 bn) as [b|] eqn:Hb; [|intros [= <-]; auto].
  destruct (slots_apart _ _ _ _ _ _ E Hb) as (Hd & Hb1 & Hb2 & _).
  destruct (Nat.eqb_spec (size t1) 4) as [S1|]; simpl; [|intros [= <-]; auto].
  destruct (Nat.eqb_spec (size t2) 4) as [S2|]; simpl; [|intros [= <-]; auto].
  rewrite (slots_nine t1 t2 b S1 S2 Hd Hb1 Hb2). simpl.
  rewrite bool_decide_eq_true_2 by done. simpl.
  destruct (get_or_create_game round_no 1 (game_rows db)) as [g1 rows1].
  destruct (get_or_create_game round_no 2 rows1) as [g2 rows2]. done.
Qed.

Lemma round_edit_refusals_witness :
  round_edit true 1 (λ _, EmptyString) league = Refused ByeNotUnique
  ∧ (ByeNotUnique = Unauthorized ∨ ByeNotUnique = ByeNotUnique
     ∨ ByeNotUnique = TableNotFour).
Proof.
  split; [vm_compute; reflexivity|].
  apply (round_edit_refusals true 1 (λ _, EmptyString) league).
  vm_compute. reflexivity.
Defined.

Lemma round_edit_Committed is_admin round_no form db db' :
  round_edit is_admin round_no form db = Committed db' →
  ∃ t1 t2 bn b g1 rows1 g2 rows2,
    is_admin = true
    ∧ read_slots form (Player.id <$> active_players (store_of db)) = (t1, t2, bn)
    ∧ deduce_bye (Player.id <$> active_players (store_of db)) t1 t2 bn = Some b
    ∧ size t1 = 4%nat ∧ size t2 = 4%nat
    ∧ get_or_create_game round_no 1 (game_rows db) = (g1, rows1)
    ∧ get_or_create_game round_no 2 rows1 = (g2, rows2)
    ∧ db' = {| player_rows := player_rows db;
               round_rows := write_bye round_no (Some b) (round_rows db);
               game_rows := update_first (has_id g2.1) (seat t2)
                              (update_first (has_id g1.1) (seat t1) rows2) |}.
Proof.
  unfold round_edit. destruct is_admin; simpl; [|done].
  destruct (read_slots form (Player.id <$> active_players (store_of db)))
    as [[t1 t2] bn] eqn:E.
  destruct (deduce_bye _ t1 t2 bn) as [b|] eqn:Hb; [|done].
  destruct (Nat.eqb_spec (size t1) 4) as [S1|]; simpl; [|done].
  destruct (Nat.eqb_spec (size t2) 4) as [S2|]; simpl; [|done].
  destruct (negb (size (t1 ∪ t2 ∪ {[b]}) =? 9)%nat); [done|].
  destruct (negb (bool_decide (t1 ∩ t2 = ∅))); [done|].
  destruct (get_or_create_game round_no 1 (game_rows db)) as [g1 rows1] eqn:G1.
  destruct (get_or_create_game round_no 2 rows1) as [g2 rows2] eqn:G2.
  intros [= <-]. by exists t1, t2, bn, b, g1, rows1, g2, rows2.
Qed.

(** X20.  [round_edit] accepts a form only when at least nine players are
    active. *)
Theorem round_edit_needs_nine is_admin round_no form db db' :
  round_edit is_admin round_no form db = Committed db' →
  (9 ≤ size (active_ids (store_of db)))%nat.
Proof.
  intros (t1 & t2 & bn & b & g1 & rows1 & g2 & rows2 & _ & E & Hb & S1 & S2 & _)
    %round_edit_Committed.
  destruct (slots_apart _ _ _ _ _ _ E Hb) as (Hd & Hb1 & Hb2 & Hin & H1 & H2).
  rewrite <- (slots_nine t1 t2 b S1 S2 Hd Hb1 Hb2).
  apply subseteq_size. intros p.
  rewrite !elem_of_union, elem_of_singleton, H1, H2, <- all_ids_active.
  intros [[[? _]|[? _]]| ->]; done.
Qed.

Lemma round_edit_needs_nine_witness :
  ∃ db', round_edit true 2 two_tables league = Committed db'
    ∧ (9 ≤ size (active_ids (store_of league)))%nat.
Proof.
  eexists. split; [vm_compute; reflexivity|].
  eapply (round_edit_needs_nine true 2 two_tables league). vm_compute. reflexivity.
Defined.

Lemma fresh_id_above (rows : list (Z * Game.t)) i : i ∈ fst <$> rows → i < fresh_id rows.
Proof.
  unfold fresh_id. destruct (fst <$> rows) as [|z l]; [by intros ?%elem_of_nil|]. simpl.
  destruct (foldl_max_ge l z) as [H1 H2].
  intros [->|Hx]%elem_of_cons; [lia|]. specialize (H2 i Hx). lia.
Qed.

Lemma get_or_create_game_spec round_no table_no rows g rows' :
  get_or_create_game round_no table_no rows = (g, rows') →
  NoDup (fst <$> rows) →
  NoDup (fst <$> rows')
  ∧ find (at_table round_no table_no) rows' = Some g
  ∧ (∀ r, r ∈ rows → r ∈ rows')
  ∧ (∀ (P : Z * Game.t → bool) x, find P rows = Some x → find P rows' = Some x)
  ∧ match find (at_table round_no table_no) rows with
    | Some old => g = old
    | None => g.2 = Game.mk round_no table_no false None []
    end.
Proof.
  unfold get_or_create_game.
  destruct (find (at_table round_no table_no) rows) as [old|] eqn:E.
  - intros [= <- <-] Hnd. done.
  - intros [= <- <-] Hnd. split; [|split; [|split; [|split]]].
    + rewrite fmap_app. simpl. apply NoDup_app. split; [done|]. split.
      * intros i Hi%fresh_id_above [= Hf]%list_elem_of_singleton. lia.
      * apply NoDup_singleton.
    + rewrite find_app_None by done. simpl. unfold at_table. simpl.
      by rewrite !Z.eqb_refl.
    + intros r Hr. apply elem_of_app. by left.
    + intros P x Hx. by apply find_app_Some.
    + done.
Qed.

(** With unique keys, updating the first row with a key updates the only
    one. *)
Lemma update_first_has_id (f : Z * Game.t → Z * Game.t) i rows :
  NoDup (fst <$> rows) →
  update_first (has_id i) f rows = (λ r, if has_id i r then f r else r) <$> rows.
Proof.
  induction rows as [|r rows IH]; simpl; [done|].
  rewrite NoDup_cons. intros [Hr Hnd].
  destruct (has_id i r) eqn:E; [|by rewrite IH].
  f_equal. clear IH. apply Z.eqb_eq in E.
  induction rows as [|r' rows IH]; simpl; [done|].
  simpl in Hr. apply not_elem_of_cons in Hr as [Hne Hr].
  apply NoDup_cons in Hnd as [_ Hnd].
  rewrite <- IH by done. unfold has_id at 1.
  destruct (Z.eqb_spec r'.1 i); [congruence|done].
Qed.

Lemma find_fmap_same {A} (P : A → bool) (h : A → A) (l : list A) :
  (∀ x, P (h x) = P x) → find P (h <$> l) = h <$> find P l.
Proof.
  intros H. induction l as [|x l IH]; simpl; [done|].
  rewrite H. by destruct (P x).
Qed.

Lemma rows_functional (rows : list (Z * Game.t)) x y :
  NoDup (fst <$> rows) → x ∈ rows → y ∈ rows → x.1 = y.1 → x = y.
Proof.
  destruct x as [i g], y as [j g']. simpl. intros Hnd Hx Hy <-.
  f_equal. by apply (dict_functional rows i g g').
Qed.

Lemma seat_participants (t : gset Z) row :
  (∀ p, p ∈ participant_ids (seat t row).2 ↔ p ∈ t)
  ∧ length (participant_ids (seat t row).2) = size t
  ∧ NoDup (participant_ids (seat t row).2)
  ∧ (∀ r, r ∈ Game.results (seat t row).2 → GameResult.position r = None).
Proof.
  assert (∀ l : list Z,
            GameResult.player_id <$> ((λ pid, GameResult.mk pid None) <$> l) = l) as Hid.
  { intros l. rewrite <- list_fmap_compose. rewrite <- (list_fmap_id l) at 2.
    by apply list_fmap_ext. }
  unfold participant_ids, seat, sorted. simpl. rewrite Hid.
  split; [|split; [|split]].
  - intros p. by rewrite stable_sort_elem_of, elem_of_elements.
  - by rewrite stable_sort_length.
  - rewrite stable_sort_perm. apply NoDup_elements.
  - by intros r (p & -> & _)%list_elem_of_fmap.
Qed.

(** The two tables of the round after a committed [round_edit]. *)
Lemma round_edit_tables round_no (t1 t2 : gset Z) rows g1 rows1 g2 rows2 :
  NoDup (fst <$> rows) →
  get_or_create_game round_no 1 rows = (g1, rows1) →
  get_or_create_game round_no 2 rows1 = (g2, rows2) →
  let final := update_first (has_id g2.1) (seat t2)
                 (update_first (has_id g1.1) (seat t1) rows2) in
  find (at_table round_no 1) final = Some (seat t1 g1)
  ∧ find (at_table round_no 2) final = Some (seat t2 g2)
  ∧ fst <$> final = fst <$> rows2
  ∧ NoDup (fst <$> final)
  ∧ (∀ r, r ∈ rows → Game.round_number r.2 ≠ round_no → r ∈ final)
  ∧ match find (at_table round_no 1) rows with
    | Some old => g1 = old
    | None => g1.2 = Game.mk round_no 1 false None []
    end
  ∧ match find (at_table round_no 2) rows with
    | Some old => g2 = old
    | None => g2.2 = Game.mk round_no 2 false None []
    end.
Proof.
  intros Hnd G1 G2.
  destruct (get_or_create_game_spec _ _ _ _ _ G1 Hnd) as (Hnd1 & F1 & In1 & K1 & O1).
  destruct (get_or_create_game_spec _ _ _ _ _ G2 Hnd1) as (Hnd2 & F2 & In2 & K2 & O2).
  pose proof (K2 _ _ F1) as F1'.
  destruct (find_elem_of _ _ _ F1') as [Hg1 A1].
  destruct (find_elem_of _ _ _ F2) as [Hg2 A2].
  assert (g1.1 ≠ g2.1) as Hne.
  { intros Heq. pose proof (rows_functional rows2 g1 g2 Hnd2 Hg1 Hg2 Heq) as <-.
    unfold at_table in A1, A2.
    apply andb_true_iff in A1 as [_ ?%Z.eqb_eq].
    apply andb_true_iff in A2 as [_ ?%Z.eqb_eq]. lia. }
  set (h1 := λ r : Z * Game.t, if has_id g1.1 r then seat t1 r else r).
  set (h2 := λ r : Z * Game.t, if has_id g2.1 r then seat t2 r else r).
  assert (∀ r, (h1 r).1 = r.1) as Hh1. { intros r. unfold h1. by destruct (has_id _ r). }
  assert (∀ r, (h2 r).1 = r.1) as Hh2. { intros r. unfold h2. by destruct (has_id _ r). }
  assert (fst <$> (h1 <$> rows2) = fst <$> rows2) as Hk1.
  { rewrite <- list_fmap_compose. apply list_fmap_ext. intros i r _. apply Hh1. }
  assert (fst <$> (h2 <$> (h1 <$> rows2)) = fst <$> rows2) as Hk2.
  { etrans; [|exact Hk1]. rewrite <- (list_fmap_compose h2 fst). apply list_fmap_ext.
    intros i r _. apply Hh2. }
  simpl.
  rewrite (update_first_has_id (seat t1) g1.1 rows2 Hnd2). fold h1.
  rewrite (update_first_has_id (seat t2) g2.1 (h1 <$> rows2)) by (by rewrite Hk1).
  fold h2.
  assert (∀ k r, at_table round_no k (h1 r) = at_table round_no k r) as Ha1.
  { intros k r. unfold h1. by destruct (has_id _ r). }
  assert (∀ k r, at_table round_no k (h2 r) = at_table round_no k r) as Ha2.
  { intros k r. unfold h2. by destruct (has_id _ r). }
  assert (h2 (h1 g1) = seat t1 g1) as E1.
  { unfold h1, h2, has_id. rewrite Z.eqb_refl. simpl.
    destruct (Z.eqb_spec g1.1 g2.1); [done|done]. }
  assert (h2 (h1 g2) = seat t2 g2) as E2.
  { unfold h1, h2, has_id. destruct (Z.eqb_spec g2.1 g1.1); [congruence|].
    by rewrite Z.eqb_refl. }
  split; [|split; [|split; [|split; [|split; [|split]]]]].
  - rewrite !find_fmap_same by (intros; apply Ha1 || apply Ha2).
    rewrite F1'. simpl. by rewrite E1.
  - rewrite !find_fmap_same by (intros; apply Ha1 || apply Ha2).
    rewrite F2. simpl. by rewrite E2.
  - done.
  - by rewrite Hk2.
  - intros r Hr Hround.
    assert (h2 (h1 r) = r) as <-.
    { assert (r.1 ≠ g1.1) as N1.
      { intros Heq. pose proof (rows_functional rows2 r g1 Hnd2 (In2 _ (In1 _ Hr)) Hg1 Heq)
          as ->. unfold at_table in A1. apply andb_true_iff in A1 as [?%Z.eqb_eq _]. done. }
      assert (r.1 ≠ g2.1) as N2.
      { intros Heq. pose proof (rows_functional rows2 r g2 Hnd2 (In2 _ (In1 _ Hr)) Hg2 Heq)
          as ->. unfold at_table in A2. apply andb_true_iff in A2 as [?%Z.eqb_eq _]. done. }
      unfold h1, h2, has_id.
      destruct (Z.eqb_spec r.1 g1.1); [done|]. by destruct (Z.eqb_spec r.1 g2.1). }
    do 2 apply list_elem_of_fmap_2. auto.
  - done.
  - destruct (find (at_table round_no 2) rows) as [old|] eqn:E.
    + pose proof (K1 _ _ E) as E'. by rewrite E' in O2.
    + destruct (find (at_table round_no 2) rows1) as [old|] eqn:E'; [|done].
      subst old. unfold get_or_create_game in G1.
      destruct (find (at_table round_no 1) rows) as [o|] eqn:Eo.
      * injection G1 as <- <-. congruence.
      * injection G1 as <- <-. rewrite find_app_None in E' by done.
        simpl in E'. unfold at_table in E'. simpl in E'.
        rewrite Z.eqb_refl in E'. simpl in E'. done.
Qed.

(** X21.  A committed [round_edit] (game ids are unique) leaves the round
    with a first table 1 and a first table 2 of four players each and a bye
    recorded in the round's first record: the nine players are pairwise
    distinct and active, table 1 holds the active players whose slot is 1
    and table 2 those whose slot is 2, every position of the two tables is
    null, the players and the tables of the other rounds are kept, and the
    game ids stay unique. *)
Theorem round_edit_seats is_admin round_no form db db' :
  NoDup (fst <$> game_rows db) →
  round_edit is_admin round_no form db = Committed db' →
  ∃ row1 row2 ri bye,
    player_rows db' = player_rows db
    ∧ find (at_table round_no 1) (game_rows db') = Some row1
    ∧ find (at_table round_no 2) (game_rows db') = Some row2
    ∧ find (is_round round_no) (round_rows db') = Some ri
    ∧ RoundInfo.bye_player_id ri = Some bye
    ∧ length (participant_ids row1.2) = 4%nat
    ∧ length (participant_ids row2.2) = 4%nat
    ∧ NoDup (participant_ids row1.2 ++ participant_ids row2.2 ++ [bye])
    ∧ (∀ pid, pid ∈ participant_ids row1.2 ++ participant_ids row2.2 ++ [bye] →
         pid ∈ active_ids (store_of db))
    ∧ (∀ pid, pid ∈ participant_ids row1.2
         ↔ pid ∈ active_ids (store_of db) ∧ form pid = "1"%string)
    ∧ (∀ pid, pid ∈ participant_ids row2.2
         ↔ pid ∈ active_ids (store_of db) ∧ form pid = "2"%string)
    ∧ (∀ r, r ∈ Game.results row1.2 ++ Game.results row2.2 →
         GameResult.position r = None)
    ∧ NoDup (fst <$> game_rows db')
    ∧ (∀ row, row ∈ game_rows db → Game.round_number row.2 ≠ round_no →
         row ∈ game_rows db').
Proof.
  intros Hnd (t1 & t2 & bn & b & g1 & rows1 & g2 & rows2 & _ & E & Hb & S1 & S2
              & G1 & G2 & ->)%round_edit_Committed.
  destruct (slots_apart _ _ _ _ _ _ E Hb) as (Hd & Hb1 & Hb2 & Hin & H1 & H2).
  destruct (round_edit_tables round_no t1 t2 _ _ _ _ _ Hnd G1 G2)
    as (F1 & F2 & _ & Hnd' & Hkeep & _).
  destruct (seat_participants t1 g1) as (P1 & L1 & N1 & Z1).
  destruct (seat_participants t2 g2) as (P2 & L2 & N2 & Z2).
  destruct (find_write_bye_same round_no (Some b) (round_rows db)) as (ri & Hri & _ & Hbye).
  exists (seat t1 g1), (seat t2 g2), ri, b.
  do 5 (split; [done|]).
  split; [by rewrite L1|]. split; [by rewrite L2|].
  split; [|split; [|split; [|split; [|split; [|split]]]]].
  - apply NoDup_app. split; [done|]. split.
    + intros p Hp1%P1 [Hp2%P2| ->%list_elem_of_singleton]%elem_of_app; [|done].
      set_solver.
    + apply NoDup_app. split; [done|]. split; [|apply NoDup_singleton].
      intros p Hp2%P2 ->%list_elem_of_singleton. done.
  - intros p. rewrite !elem_of_app, P1, P2, list_elem_of_singleton, H1, H2,
      <- all_ids_active.
    intros [[? _]|[[? _]| ->]]; done.
  - intros p. by rewrite P1, H1, all_ids_active.
  - intros p. by rewrite P2, H2, all_ids_active.
  - intros r [Hr|Hr]%elem_of_app; [by apply Z1|by apply Z2].
  - done.
  - done.
Qed.

Lemma round_edit_seats_witness :
  ∃ db', round_edit true 2 two_tables league = Committed db'
    ∧ ∃ row1 row2 ri bye,
        player_rows db' = player_rows league
        ∧ find (at_table 2 1) (game_rows db') = Some row1
        ∧ find (at_table 2 2) (game_rows db') = Some row2
        ∧ find (is_round 2) (round_rows db') = Some ri
        ∧ RoundInfo.bye_player_id ri = Some bye
        ∧ length (participant_ids row1.2) = 4%nat
        ∧ length (participant_ids row2.2) = 4%nat
        ∧ NoDup (participant_ids row1.2 ++ participant_ids row2.2 ++ [bye])
        ∧ (∀ pid, pid ∈ participant_ids row1.2 ++ participant_ids row2.2 ++ [bye] →
             pid ∈ active_ids (store_of league))
        ∧ (∀ pid, pid ∈ participant_ids row1.2
             ↔ pid ∈ active_ids (store_of league) ∧ two_tables pid = "1"%string)
        ∧ (∀ pid, pid ∈ participant_ids row2.2
             ↔ pid ∈ active_ids (store_of league) ∧ two_tables pid = "2"%string)
        ∧ (∀ r, r ∈ Game.results row1.2 ++ Game.results row2.2 →
             GameResult.position r = None)
        ∧ NoDup (fst <$> game_rows db')
        ∧ (∀ row, row ∈ game_rows league → Game.round_number row.2 ≠ 2 →
             row ∈ game_rows db').
Proof.
  eexists. split; [vm_compute; reflexivity|].
  apply (round_edit_seats true 2 two_tables league).
  - apply (bool_decide_unpack _). vm_compute. exact I.
  - vm_compute. reflexivity.
Defined.

(** X22.  [round_edit] keeps the id, the sweep flag and the save designation
    of a table that exists already (game ids are unique).  A table whose
    sweep flag is set therefore stays a played table: the players the form
    seats at it are credited with the round although every position is
    null. *)
Theorem round_edit_keeps_flags is_admin round_no form db db' table_no old :
  NoDup (fst <$> game_rows db) →
  round_edit is_admin round_no form db = Committed db' →
  table_no = 1 ∨ table_no = 2 →
  find (at_table round_no table_no) (game_rows db) = Some old →
  ∃ row, find (at_table round_no table_no) (game_rows db') = Some row
    ∧ row.1 = old.1
    ∧ Game.sweep row.2 = Game.sweep old.2
    ∧ Game.save_player_id row.2 = Game.save_player_id old.2
    ∧ (∀ pid, pid ∈ participant_ids row.2 ↔
         pid ∈ active_ids (store_of db)
         ∧ form pid = (if (table_no =? 1)%Z then "1"%string else "2"%string))
    ∧ (Game.sweep old.2 = true →
       ∀ pid, pid ∈ participant_ids row.2 →
         round_no ∈ credited_rounds (store_of db') pid).
Proof.
  intros Hnd (t1 & t2 & bn & b & g1 & rows1 & g2 & rows2 & _ & E & Hb & S1 & S2
              & G1 & G2 & ->)%round_edit_Committed Hk Hold.
  destruct (slots_apart _ _ _ _ _ _ E Hb) as (_ & _ & _ & _ & H1 & H2).
  destruct (round_edit_tables round_no t1 t2 _ _ _ _ _ Hnd G1 G2)
    as (F1 & F2 & _ & _ & _ & O1 & O2).
  destruct (seat_participants t1 g1) as (P1 & _).
  destruct (seat_participants t2 g2) as (P2 & _).
  simpl.
  assert (∀ (t : gset Z) g,
            find (at_table round_no table_no)
              (update_first (has_id g2.1) (seat t2)
                 (update_first (has_id g1.1) (seat t1) rows2)) = Some (seat t g) →
            Game.sweep g.2 = true →
            ∀ pid, pid ∈ participant_ids (seat t g).2 →
              round_no ∈ credited_rounds
                (store_of {| player_rows := player_rows db;
                             round_rows := write_bye round_no (Some b) (round_rows db);
                             game_rows := update_first (has_id g2.1) (seat t2)
                                (update_first (has_id g1.1) (seat t1) rows2) |}) pid)
    as Hcredit.
  { intros t g Hf Hsw pid Hpid. apply credited_rounds_store_of.
    destruct (find_elem_of _ _ _ Hf) as [Hin Ha]. exists (seat t g). simpl.
    split; [done|]. split; [|split; [done|]].
    - unfold has_winner. simpl. rewrite Hsw. apply orb_true_r.
    - unfold at_table in Ha. simpl in Ha.
      by apply andb_true_iff in Ha as [?%Z.eqb_eq _]. }
  destruct Hk as [-> | ->].
  - rewrite Hold in O1. subst g1. exists (seat t1 old). simpl.
    do 4 (split; [done|]). split.
    + intros p. by rewrite P1, H1, all_ids_active.
    + by apply Hcredit.
  - rewrite Hold in O2. subst g2. exists (seat t2 old). simpl.
    do 4 (split; [done|]). split.
    + intros p. by rewrite P2, H2, all_ids_active.
    + by apply Hcredit.
Qed.

Lemma round_edit_keeps_flags_witness :
  ∃ db' old, round_edit true 1 two_tables league = Committed db'
    ∧ find (at_table 1 2) (game_rows league) = Some old
    ∧ Game.sweep old.2 = true
    ∧ ∃ row, find (at_table 1 2) (game_rows db') = Some row
        ∧ row.1 = old.1
        ∧ Game.sweep row.2 = Game.sweep old.2
        ∧ Game.save_player_id row.2 = Game.save_player_id old.2
        ∧ (∀ pid, pid ∈ participant_ids row.2 ↔
             pid ∈ active_ids (store_of league)
             ∧ two_tables pid = (if (2 =? 1)%Z then "1"%string else "2"%string))
        ∧ (Game.sweep old.2 = true →
           ∀ pid, pid ∈ participant_ids row.2 →
             1 ∈ credited_rounds (store_of db') pid).
Proof.
  eexists _, _. split; [vm_compute; reflexivity|].
  split; [vm_compute; reflexivity|]. split; [reflexivity|].
  apply (round_edit_keeps_flags true 1 two_tables league _ 2).
  - apply (bool_decide_unpack _). vm_compute. exact I.
  - vm_compute. reflexivity.
  - by right.
  - vm_compute. reflexivity.
Defined.

(** ** The editor and [index] *)

Lemma results_within_store_of (D : gset Z) db :
  results_within D (games (store_of db))
  ↔ ∀ row p, row ∈ game_rows db → p ∈ participant_ids row.2 → p ∈ D.
Proof.
  unfold results_within, participant_ids. simpl. rewrite Forall_fmap, Forall_forall.
  split.
  - intros H row p Hrow (r & -> & Hr)%list_elem_of_fmap.
    specialize (H row Hrow). simpl in H. rewrite Forall_forall in H. by apply H.
  - intros H row Hrow. simpl. apply Forall_forall. intros r Hr.
    apply (H row); [done|]. by apply list_elem_of_fmap_2.
Qed.

(** [index] keeps completing when the players stay as they are and every
    player of a table is active or sat at a table before. *)
Lemma index_kept db db' ctx :
  index (store_of db) = Ok ctx →
  player_rows db' = player_rows db →
  (∀ row' p, row' ∈ game_rows db' → p ∈ participant_ids row'.2 →
     p ∈ active_ids (store_of db)
     ∨ ∃ row, row ∈ game_rows db ∧ p ∈ participant_ids row.2) →
  ∃ ctx', index (store_of db') = Ok ctx'.
Proof.
  intros Hctx Hp Hrows.
  assert (active_ids (store_of db') = active_ids (store_of db)) as Ha.
  { unfold active_ids. simpl. by rewrite Hp. }
  apply (index_completes_same (store_of db) (store_of db') ctx Hctx Ha).
  apply index_Ok_inv in Hctx as [Hres _].
  rewrite results_within_store_of in Hres. apply results_within_store_of.
  intros row' p Hrow' Hpid.
  destruct (Hrows row' p Hrow' Hpid) as [?|(row & Hrow & Hin)]; [done|].
  by apply (Hres row).
Qed.

Lemma get_or_create_game_elem_of round_no table_no rows g rows' r :
  get_or_create_game round_no table_no rows = (g, rows') →
  r ∈ rows' → r ∈ rows ∨ Game.results r.2 = [].
Proof.
  unfold get_or_create_game.
  destruct (find (at_table round_no table_no) rows) as [old|].
  - intros [= <- <-]. by left.
  - intros [= <- <-] [?| ->%list_elem_of_singleton]%elem_of_app; [by left|by right].
Qed.

(** X23.  The writes to rounds and tables never take the standings away:
    when [index] completes on a database, it completes on the database left
    by a committed [game_edit], [game_reset], [game_delete], [round_clear],
    [reset_tournament], [round_add], [round_delete], [round_set_bye] or
    [round_edit]. *)
Theorem index_survives_edits db db' ctx :
  index (store_of db) = Ok ctx →
  (∃ a game_id sweep save winner second third,
     game_edit a game_id sweep save winner second third db = Committed db')
  ∨ (∃ a game_id, game_reset a game_id db = Committed db')
  ∨ (∃ a game_id, game_delete a game_id db = Committed db')
  ∨ (∃ a round_no, round_clear a round_no db = Committed db')
  ∨ (∃ a, reset_tournament a db = Committed db')
  ∨ (∃ a, round_add a db = Committed db')
  ∨ (∃ a round_no, round_delete a round_no db = Committed db')
  ∨ (∃ a round_no bye, round_set_bye a round_no bye db = Committed db')
  ∨ (∃ a round_no form, round_edit a round_no form db = Committed db') →
  ∃ ctx', index (store_of db') = Ok ctx'.
Proof.
  intros Hctx H. apply (index_kept db db' ctx Hctx).
  - destruct H as [(a & i & sw & sv & w & s & t & H)|[(a & i & H)|[(a & i & H)|
      [(a & n & H)|[(a & H)|[(a & H)|[(a & n & H)|[(a & n & b & H)|(a & n & f & H)]]]]]]]].
    + by apply game_edit_Committed in H as (? & ? & ? & ? & _ & _ & _ & _ & _ & _ & ->).
    + unfold game_reset in H. destruct a; simpl in H; [|done].
      destruct (find _ _); [|done]. by injection H as <-.
    + unfold game_delete in H. destruct a; simpl in H; [|done].
      destruct (find _ _); [|done]. by injection H as <-.
    + unfold round_clear in H. destruct a; simpl in H; [|done]. by injection H as <-.
    + unfold reset_tournament in H. destruct a; simpl in H; [|done]. by injection H as <-.
    + unfold round_add in H. destruct a; simpl in H; [|done]. by injection H as <-.
    + unfold round_delete in H. destruct a; simpl in H; [|done]. by injection H as <-.
    + unfold round_set_bye in H. destruct a; simpl in H; [|done]. by injection H as <-.
    + by apply round_edit_Committed in H
        as (? & ? & ? & ? & ? & ? & ? & ? & _ & _ & _ & _ & _ & _ & _ & ->).
  - intros row' p Hrow' Hp.
    destruct H as [(a & i & sw & sv & w & s & t & H)|[(a & i & H)|[(a & i & H)|
      [(a & n & H)|[(a & H)|[(a & H)|[(a & n & H)|[(a & n & b & H)|(a & n & f & H)]]]]]]]].
    + apply game_edit_Committed in H
        as (row & g' & l1 & l2 & _ & _ & He & Hl & _ & _ & ->). simpl in Hrow'.
      right. rewrite Hl.
      apply elem_of_app in Hrow' as [?|[->|?]%elem_of_cons].
      * exists row'. split; [|done]. apply elem_of_app. by left.
      * exists row. split; [apply elem_of_app; right; apply list_elem_of_here|].
        apply edit_game_Committed in He as (? & _ & _ & _ & _ & _ & ->).
        unfold participant_ids in Hp |- *. simpl in Hp.
        by rewrite <- list_fmap_compose in Hp.
      * exists row'. split; [|done]. apply elem_of_app. right. by right.
    + unfold game_reset in H. destruct a; simpl in H; [|done].
      destruct (find _ _); [|done]. injection H as <-. simpl in Hrow'. right.
      apply update_first_elem_of in Hrow' as [?|(row & Hrow & _ & ->)]; [by exists row'|].
      exists row. split; [done|]. simpl in Hp. by rewrite participant_ids_clear_game in Hp.
    + unfold game_delete in H. destruct a; simpl in H; [|done].
      destruct (find _ _); [|done]. injection H as <-. simpl in Hrow'. right.
      apply remove_first_elem_of in Hrow'. by exists row'.
    + unfold round_clear in H. destruct a; simpl in H; [|done]. injection H as <-.
      simpl in Hrow'. right. apply list_elem_of_fmap in Hrow' as (row & -> & Hrow).
      exists row. split; [done|]. destruct (in_round n row.2); [|done].
      simpl in Hp. by rewrite participant_ids_clear_game in Hp.
    + unfold reset_tournament in H. destruct a; simpl in H; [|done]. injection H as <-.
      by apply elem_of_nil in Hrow'.
    + unfold round_add in H. destruct a; simpl in H; [|done]. injection H as <-.
      right. by exists row'.
    + unfold round_delete in H. destruct a; simpl in H; [|done]. injection H as <-.
      simpl in Hrow'. apply list_elem_of_filter in Hrow' as [_ Hrow']. right. by exists row'.
    + unfold round_set_bye in H. destruct a; simpl in H; [|done]. injection H as <-.
      right. by exists row'.
    + apply round_edit_Committed in H
        as (t1 & t2 & bn & b & g1 & rows1 & g2 & rows2 & _ & E & Hb & _ & _
            & G1 & G2 & ->).
      destruct (slots_apart _ _ _ _ _ _ E Hb) as (_ & _ & _ & _ & H1 & H2).
      simpl in Hrow'.
      assert (∀ r, r ∈ rows2 → p ∈ participant_ids r.2 →
                ∃ row, row ∈ game_rows db ∧ p ∈ participant_ids row.2) as Hold.
      { intros r Hr Hpr.
        destruct (get_or_create_game_elem_of _ _ _ _ _ r G2 Hr) as [Hr1|Hnil].
        - destruct (get_or_create_game_elem_of _ _ _ _ _ r G1 Hr1) as [Hr0|Hnil].
          + by exists r.
          + unfold participant_ids in Hpr. rewrite Hnil in Hpr. by apply elem_of_nil in Hpr.
        - unfold participant_ids in Hpr. rewrite Hnil in Hpr. by apply elem_of_nil in Hpr. }
      apply update_first_elem_of in Hrow' as [Hrow'|(y & Hy & _ & ->)].
      * apply update_first_elem_of in Hrow' as [Hrow'|(y & Hy & _ & ->)].
        -- right. by apply (Hold row').
        -- left. destruct (seat_participants t1 y) as (P1 & _).
           apply P1, H1 in Hp as [Hp _]. by apply all_ids_active.
      * left. destruct (seat_participants t2 y) as (P2 & _).
        apply P2, H2 in Hp as [Hp _]. by apply all_ids_active.
Qed.

Lemma index_survives_edits_witness :
  ∃ ctx db', index (store_of league) = Ok ctx
    ∧ round_edit true 2 two_tables league = Committed db'
    ∧ ∃ ctx', index (store_of db') = Ok ctx'.
Proof.
  eexists _, _. split; [vm_compute; reflexivity|]. split; [vm_compute; reflexivity|].
  eapply (index_survives_edits league); [vm_compute; reflexivity|].
  do 8 right. exists true, 2, two_tables. vm_compute. reflexivity.
Defined.

(** ** [rounds_view] *)

Lemma player_of_is_Some db pid :
  is_Some (player_of db pid) ↔ pid ∈ Player.id <$> player_rows db.
Proof.
  unfold player_of. split.
  - intros [p [Hp Hid%Z.eqb_eq]%find_elem_of]. rewrite <- Hid. by apply list_elem_of_fmap_2.
  - intros (p & -> & Hp)%list_elem_of_fmap.
    destruct (find (λ p0, Player.id p0 =? Player.id p) (player_rows db)) eqn:E; [done|].
    rewrite find_None_Forall, Forall_forall in E. specialize (E p Hp). simpl in E.
    by rewrite Z.eqb_refl in E.
Qed.

Lemma name_at_is_Some db k rs :
  (∀ r, r ∈ rs → is_Some (player_of db (GameResult.player_id r))) →
  ∃ o, name_at db k rs = Some o
    ∧ (is_Some o ↔ ∃ r, r ∈ rs ∧ GameResult.position r = Some k).
Proof.
  intros H. unfold name_at.
  destruct (find (λ r, bool_decide (GameResult.position r = Some k)) rs) as [r|] eqn:E.
  - apply find_elem_of in E as [Hr Hk%bool_decide_eq_true].
    destruct (H r Hr) as [p ->]. simpl. eexists. split; [done|].
    split; [|done]. intros _. by exists r.
  - exists None. split; [done|]. split; [by intros [? ?]|].
    intros (r & Hr & Hk). rewrite find_None_Forall, Forall_forall in E.
    specialize (E r Hr). simpl in E. by rewrite bool_decide_eq_true_2 in E.
Qed.

Lemma seat_of_is_Some db r :
  is_Some (seat_of db r) ↔ is_Some (player_of db (GameResult.player_id r)).
Proof.
  unfold seat_of. destruct (player_of db (GameResult.player_id r)); simpl.
  - split; eauto.
  - split; by intros [? ?].
Qed.

(** What the view says of a table it shows. *)
Lemma game_view_Some db row gv :
  game_view db row = Some gv →
  (∀ r, r ∈ Game.results row.2 → is_Some (player_of db (GameResult.player_id r)))
  ∧ GameView.id gv = row.1
  ∧ GameView.table gv = Game.table_no row.2
  ∧ GameView.sweep gv = Game.sweep row.2
  ∧ GameView.played gv = has_winner row.2
  ∧ (is_Some (GameView.winner gv)
     ↔ ∃ r, r ∈ Game.results row.2 ∧ GameResult.position r = Some 1)
  ∧ Forall2 (λ r s, seat_of db r = Some s)
      (sorted Z.leb position_key false (Game.results row.2)) (GameView.participants gv).
Proof.
  unfold game_view.
  destruct (mapM (seat_of db) (sorted Z.leb position_key false (Game.results row.2)))
    as [participants|] eqn:Em; [|done]. simpl.
  assert (∀ r, r ∈ Game.results row.2 →
            is_Some (player_of db (GameResult.player_id r))) as Hall.
  { intros r Hr. apply seat_of_is_Some.
    assert (is_Some (mapM (seat_of db)
              (sorted Z.leb position_key false (Game.results row.2)))) as Hs by eauto.
    apply mapM_is_Some in Hs. rewrite Forall_forall in Hs. apply Hs.
    unfold sorted. by rewrite stable_sort_elem_of. }
  destruct (name_at_is_Some db 1 _ Hall) as (w & -> & Hw).
  destruct (name_at_is_Some db 2 _ Hall) as (s2 & -> & _).
  destruct (name_at_is_Some db 3 _ Hall) as (s3 & -> & _). simpl.
  intros [= <-]. simpl. repeat split; try done; try apply Hw.
  by apply mapM_Some.
Qed.

Lemma game_view_is_Some db row :
  is_Some (game_view db row)
  ↔ ∀ r, r ∈ Game.results row.2 → is_Some (player_of db (GameResult.player_id r)).
Proof.
  split.
  - intros [gv Hgv]. by apply game_view_Some in Hgv as [? _].
  - intros Hall. unfold game_view.
    assert (is_Some (mapM (seat_of db)
              (sorted Z.leb position_key false (Game.results row.2)))) as [ps ->].
    { apply mapM_is_Some, Forall_forall. intros r Hr. apply seat_of_is_Some, Hall.
      unfold sorted in Hr. by rewrite stable_sort_elem_of in Hr. }
    simpl.
    destruct (name_at_is_Some db 1 _ Hall) as (w & -> & _).
    destruct (name_at_is_Some db 2 _ Hall) as (s2 & -> & _).
    destruct (name_at_is_Some db 3 _ Hall) as (s3 & -> & _). simpl. eauto.
Qed.

Lemma view_loop_snoc db gs row rounds0 :
  view_loop db (gs ++ [row]) rounds0
  = (rounds ← view_loop db gs rounds0;
     gv ← game_view db row;
     Some (add_to_round rounds (Game.round_number row.2)
             (default (None, None) (bye_by_round db !! Game.round_number row.2)) gv)).
Proof.
  revert rounds0. induction gs as [|row' gs IH]; intros rounds0; simpl.
  - by destruct (game_view db row).
  - destruct (game_view db row'); simpl; [apply IH|done].
Qed.

Lemma view_loop_is_Some db gs rounds0 :
  is_Some (view_loop db gs rounds0) ↔ Forall (λ row, is_Some (game_view db row)) gs.
Proof.
  revert rounds0. induction gs as [|row gs IH]; intros rounds0; simpl.
  - split; [constructor|eauto].
  - rewrite Forall_cons. destruct (game_view db row) as [gv|]; simpl.
    + rewrite IH. split; [eauto|tauto].
    + split; [by intros [? ?]|by intros [[? ?] _]].
Qed.

Lemma add_to_round_keys rounds n bye gv k :
  k ∈ keys (add_to_round rounds n bye gv) ↔ k ∈ keys rounds ∨ k = n.
Proof.
  unfold keys. induction rounds as [|[k' r] rounds IH]; simpl.
  - rewrite list_elem_of_singleton, elem_of_nil. tauto.
  - destruct (decide (k' = n)) as [->|Hne]; simpl.
    + rewrite !elem_of_cons. tauto.
    + rewrite !elem_of_cons, IH. tauto.
Qed.

Lemma add_to_round_NoDup rounds n bye gv :
  NoDup (keys rounds) → NoDup (keys (add_to_round rounds n bye gv)).
Proof.
  unfold keys. induction rounds as [|[k' r] rounds IH]; simpl.
  - intros _. apply NoDup_singleton.
  - rewrite NoDup_cons. intros [Hk Hnd].
    destruct (decide (k' = n)) as [->|Hne]; simpl.
    + by apply NoDup_cons.
    + apply NoDup_cons. split; [|by apply IH].
      intros [H|H]%(add_to_round_keys rounds n bye gv k'); [done|congruence].
Qed.

Lemma add_to_round_elem_of rounds n bye gv k r' :
  NoDup (keys rounds) →
  (k, r') ∈ add_to_round rounds n bye gv →
  (k ≠ n ∧ (k, r') ∈ rounds)
  ∨ (k = n ∧ ((∃ r, (n, r) ∈ rounds
                  ∧ r' = RoundView.mk (RoundView.number r) (RoundView.bye r)
                           (RoundView.bye_id r) (RoundView.games r ++ [gv]))
              ∨ ((n ∉ keys rounds) ∧ r' = RoundView.mk n bye.1 bye.2 [gv]))).
Proof.
  unfold keys. induction rounds as [|[k' r] rounds IH]; simpl.
  - intros _ [= -> ->]%list_elem_of_singleton. right. split; [done|]. right.
    split; [apply not_elem_of_nil|done].
  - rewrite NoDup_cons. intros [Hk Hnd].
    destruct (decide (k' = n)) as [->|Hne].
    + intros [[= -> ->]|Hin]%elem_of_cons.
      * right. split; [done|]. left. exists r. split; [apply list_elem_of_here|done].
      * left. split; [|by right]. intros ->. apply Hk.
        by apply (list_elem_of_fmap_2 fst) in Hin.
    + intros [[= -> ->]|Hin]%elem_of_cons.
      * left. split; [done|apply list_elem_of_here].
      * destruct (IH Hnd Hin) as [[? ?]|[-> [(r0 & Hr0 & ->)|[Hn ->]]]].
        -- left. split; [done|by right].
        -- right. split; [done|]. left. exists r0. split; [by right|done].
        -- right. split; [done|]. right. split; [|done].
           rewrite not_elem_of_cons. done.
Qed.

(** The dictionary [rounds] after the loop over the tables. *)
Lemma view_loop_inv db gs rounds :
  view_loop db gs [] = Some rounds →
  NoDup (keys rounds)
  ∧ (∀ n, n ∈ keys rounds ↔ ∃ row, row ∈ gs ∧ Game.round_number row.2 = n)
  ∧ ∀ n r, (n, r) ∈ rounds →
      RoundView.number r = n
      ∧ (RoundView.bye r, RoundView.bye_id r)
        = default (None, None) (bye_by_round db !! n)
      ∧ Forall2 (λ row gv, game_view db row = Some gv)
          (filter (λ row : Z * Game.t, Game.round_number row.2 = n) gs)
          (RoundView.games r).
Proof.
  revert rounds. induction gs as [|row gs IH] using rev_ind; intros rounds.
  - intros [= <-]. split; [constructor|]. split.
    + intros n. split; [by intros ?%elem_of_nil|]. by intros (? & ?%elem_of_nil & _).
    + by intros n r ?%elem_of_nil.
  - rewrite view_loop_snoc.
    destruct (view_loop db gs []) as [rounds1|]; [|done]. simpl.
    destruct (game_view db row) as [gv|] eqn:Hgv; [|done]. simpl. intros [= <-].
    destruct (IH rounds1 eq_refl) as (Hnd & Hkeys & Hrows).
    split; [by apply add_to_round_NoDup|]. split.
    + intros n. rewrite add_to_round_keys, Hkeys. setoid_rewrite elem_of_app.
      setoid_rewrite list_elem_of_singleton. naive_solver.
    + intros n r Hin. rewrite filter_app.
      apply add_to_round_elem_of in Hin
        as [[Hne Hin]|[-> [(r0 & Hr0 & ->)|[Hnew ->]]]]; [| | |done].
      * destruct (Hrows n r Hin) as (? & ? & Hf). do 2 (split; [done|]).
        rewrite filter_cons, decide_False, filter_nil, app_nil_r by done. done.
      * destruct (Hrows _ r0 Hr0) as (? & ? & Hf). simpl. do 2 (split; [done|]).
        rewrite filter_cons, decide_True, filter_nil by done.
        apply Forall2_app; [done|]. by constructor.
      * simpl. split; [done|]. split; [by destruct (default _ _)|].
        rewrite filter_cons, decide_True, filter_nil by done.
        assert (filter (λ row0 : Z * Game.t,
                   Game.round_number row0.2 = Game.round_number row.2) gs = []) as ->.
        { apply filter_none. intros row0 Hrow0 Heq. apply Hnew, Hkeys. by exists row0. }
        simpl. by constructor.
Qed.

Lemma sorted_games_perm db :
  sorted pair_leb (λ row : Z * Game.t, (Game.round_number row.2, Game.table_no row.2))
    false (game_rows db) ≡ₚ game_rows db.
Proof. apply stable_sort_perm. Qed.

Lemma rounds_view_Some db rounds ps :
  rounds_view db = Some (rounds, ps) →
  ∃ d, view_loop db
         (sorted pair_leb (λ row : Z * Game.t, (Game.round_number row.2, Game.table_no row.2))
            false (game_rows db)) [] = Some d
    ∧ rounds = (λ e : Z * RoundView.t,
                  RoundView.mk e.1 (RoundView.bye e.2) (RoundView.bye_id e.2)
                    (sorted Z.leb GameView.table false (RoundView.games e.2)))
               <$> sorted Z.leb fst false d
    ∧ ps = active_players (store_of db).
Proof.
  unfold rounds_view. destruct (view_loop db _ []) as [d|]; [|done]. simpl.
  intros [= <- <-]. by exists d.
Qed.

(** X24.  [rounds_view] completes exactly when every stored result belongs
    to a player that exists, active or not; otherwise reading the name of
    the player raises AttributeError.  In particular it completes whenever
    [index] completes. *)
Theorem rounds_view_completes db :
  (is_Some (rounds_view db)
   ↔ ∀ row r, row ∈ game_rows db → r ∈ Game.results row.2 →
       GameResult.player_id r ∈ Player.id <$> player_rows db)
  ∧ (∀ ctx, index (store_of db) = Ok ctx → is_Some (rounds_view db)).
Proof.
  assert (is_Some (rounds_view db)
          ↔ ∀ row r, row ∈ game_rows db → r ∈ Game.results row.2 →
              GameResult.player_id r ∈ Player.id <$> player_rows db) as Hiff.
  { transitivity (is_Some (view_loop db
       (sorted pair_leb (λ row : Z * Game.t, (Game.round_number row.2, Game.table_no row.2))
          false (game_rows db)) [])).
    { unfold rounds_view. destruct (view_loop db _ []); simpl; [split; eauto|].
      split; by intros [? ?]. }
    rewrite view_loop_is_Some, Forall_forall. unfold sorted.
    setoid_rewrite stable_sort_elem_of. setoid_rewrite game_view_is_Some.
    setoid_rewrite player_of_is_Some.
    split; intros H row; [intros r Hrow Hr; by apply (H row)|intros Hrow r Hr; by apply (H row)]. }
  split; [done|]. intros ctx [Hres _]%index_Ok_inv. apply Hiff.
  intros row r Hrow Hr. rewrite results_within_store_of in Hres.
  assert (GameResult.player_id r ∈ active_ids (store_of db)) as Ha.
  { apply (Hres row); [done|]. by apply list_elem_of_fmap_2. }
  apply active_ids_store_of in Ha as (p & Hp & _ & <-). by apply list_elem_of_fmap_2.
Qed.

Lemma Sorted_le_NoDup_lt (l : list Z) :
  Sorted (λ x y, (x <=? y) = true) l → NoDup l → Sorted Z.lt l.
Proof.
  intros Hs Hnd.
  apply Sorted_StronglySorted in Hs; [|intros x y z ?%Z.leb_le ?%Z.leb_le; apply Z.leb_le; lia].
  apply StronglySorted_Sorted.
  induction Hs as [|x l Hs IH Hx]; [constructor|].
  apply NoDup_cons in Hnd as [Hnot Hnd]. constructor; [by apply IH|].
  rewrite Forall_forall in Hx |- *. intros y Hy.
  specialize (Hx y Hy). apply Z.leb_le in Hx.
  assert (x ≠ y) by (intros ->; done). lia.
Qed.

(** X25.  When [rounds_view] completes, the rounds it lists are exactly the
    round numbers that have a table, each once and in increasing order: a
    round that only has a round record is not listed, although [index]
    counts it in total_rounds.  The bye shown with a round is the entry of
    [bye_by_round]; [players_all] are the active players by name. *)
Theorem rounds_view_rounds db rounds ps :
  rounds_view db = Some (rounds, ps) →
  ps = active_players (store_of db)
  ∧ Sorted Z.lt (RoundView.number <$> rounds)
  ∧ (∀ n, n ∈ RoundView.number <$> rounds
          ↔ ∃ row, row ∈ game_rows db ∧ Game.round_number row.2 = n)
  ∧ (∀ rv, rv ∈ rounds →
       (RoundView.bye rv, RoundView.bye_id rv)
       = default (None, None) (bye_by_round db !! RoundView.number rv))
  ∧ (∀ n, n ∈ RoundView.number <$> rounds → n ∈ planned_rounds (store_of db)).
Proof.
  intros (d & Hd & -> & ->)%rounds_view_Some.
  apply view_loop_inv in Hd as (Hnd & Hkeys & Hrows).
  assert (RoundView.number <$>
            ((λ e : Z * RoundView.t,
                RoundView.mk e.1 (RoundView.bye e.2) (RoundView.bye_id e.2)
                  (sorted Z.leb GameView.table false (RoundView.games e.2)))
             <$> sorted Z.leb fst false d)
          = sorted Z.leb id false (keys d)) as Hnum.
  { rewrite <- list_fmap_compose. unfold keys, sorted.
    rewrite (stable_sort_fmap fst (λ x y : Z * RoundView.t, x.1 <=? y.1)
               (λ x y : Z, id x <=? id y)) by done.
    by apply list_fmap_ext. }
  assert (∀ n, n ∈ sorted Z.leb id false (keys d)
               ↔ ∃ row, row ∈ game_rows db ∧ Game.round_number row.2 = n) as Hmem.
  { intros n. unfold sorted at 1. rewrite stable_sort_elem_of, Hkeys.
    unfold sorted. by setoid_rewrite stable_sort_elem_of. }
  split; [done|]. rewrite Hnum. split; [|split; [done|split]].
  - apply Sorted_le_NoDup_lt.
    + apply (stable_sort_Sorted (λ x y : Z, id x <=? id y)).
      intros x y H. unfold id in *. apply Z.leb_gt in H. apply Z.leb_le. lia.
    + unfold sorted. by rewrite stable_sort_perm.
  - intros rv ([n r] & -> & Hin)%list_elem_of_fmap. simpl.
    unfold sorted in Hin. rewrite stable_sort_elem_of in Hin.
    by destruct (Hrows n r Hin) as (_ & ? & _).
  - intros n (row & Hrow & <-)%Hmem. apply planned_rounds_store_of. right.
    by apply (list_elem_of_fmap_2 (λ row, Game.round_number row.2)).
Qed.

Lemma rounds_view_rounds_witness :
  ∃ rounds ps, rounds_view league = Some (rounds, ps)
    ∧ ps = active_players (store_of league)
    ∧ Sorted Z.lt (RoundView.number <$> rounds)
    ∧ (∀ n, n ∈ RoundView.number <$> rounds
            ↔ ∃ row, row ∈ game_rows league ∧ Game.round_number row.2 = n)
    ∧ (∀ rv, rv ∈ rounds →
         (RoundView.bye rv, RoundView.bye_id rv)
         = default (None, None) (bye_by_round league !! RoundView.number rv))
    ∧ (∀ n, n ∈ RoundView.number <$> rounds → n ∈ planned_rounds (store_of league)).
Proof.
  eexists _, _. split; [vm_compute; reflexivity|].
  apply (rounds_view_rounds league). vm_compute. reflexivity.
Defined.

Lemma Forall2_elem_of_r {A B} (R : A → B → Prop) (l : list A) (k : list B) y :
  Forall2 R l k → y ∈ k → ∃ x, x ∈ l ∧ R x y.
Proof.
  induction 1 as [|x y' l k Hxy _ IH]; [by intros ?%elem_of_nil|].
  intros [->|Hy]%elem_of_cons.
  - exists x. split; [apply list_elem_of_here|done].
  - destruct (IH Hy) as (x' & ? & ?). exists x'. split; [by right|done].
Qed.

Lemma Forall2_fmap_eq {A B C} (f : A → C) (g : B → C) (l : list A) (k : list B) :
  Forall2 (λ x y, g y = f x) l k → g <$> k = f <$> l.
Proof.
  induction 1 as [|x y l k Hxy _ IH]; [done|]. rewrite !fmap_cons. by f_equal.
Qed.

(** X26.  When [rounds_view] completes, the tables listed with a round are
    the stored tables of the round, each once, ordered by table number.  Of
    a table the view shows its id, its table number and its sweep flag; the
    flag [played] is the value of the participation rule of [index]; a
    winner is named exactly when a result has position 1; and the
    participants carry the stored positions. *)
Theorem rounds_view_games db rounds ps rv :
  rounds_view db = Some (rounds, ps) → rv ∈ rounds →
  Sorted (λ a b, GameView.table a ≤ GameView.table b) (RoundView.games rv)
  ∧ GameView.id <$> RoundView.games rv
    ≡ₚ fst <$> filter (λ row : Z * Game.t, Game.round_number row.2 = RoundView.number rv)
                 (game_rows db)
  ∧ ∀ gv, gv ∈ RoundView.games rv →
      ∃ row, row ∈ game_rows db
        ∧ Game.round_number row.2 = RoundView.number rv
        ∧ GameView.id gv = row.1
        ∧ GameView.table gv = Game.table_no row.2
        ∧ GameView.sweep gv = Game.sweep row.2
        ∧ GameView.played gv = has_winner row.2
        ∧ (is_Some (GameView.winner gv)
           ↔ ∃ r, r ∈ Game.results row.2 ∧ GameResult.position r = Some 1)
        ∧ Seat.pos <$> GameView.participants gv
          ≡ₚ GameResult.position <$> Game.results row.2.
Proof.
  intros (d & Hd & -> & ->)%rounds_view_Some ([n r] & -> & Hin)%list_elem_of_fmap.
  apply view_loop_inv in Hd as (Hnd & Hkeys & Hrows).
  unfold sorted in Hin. rewrite stable_sort_elem_of in Hin.
  destruct (Hrows n r Hin) as (_ & _ & Hf). simpl. split; [|split].
  - eapply Sorted_weaken;
      [|apply (stable_sort_Sorted (λ x y, GameView.table x <=? GameView.table y))].
    + intros x y H. by apply Z.leb_le in H.
    + intros x y H. apply Z.leb_gt in H. apply Z.leb_le. lia.
  - unfold sorted at 1. rewrite stable_sort_perm.
    rewrite (Forall2_fmap_eq fst GameView.id _ _
               (Forall2_impl _ _ _ _ Hf
                  (λ row gv H, proj1 (proj2 (game_view_Some db row gv H))))).
    apply fmap_Permutation, filter_Permutation, stable_sort_perm.
  - intros gv Hgv. unfold sorted in Hgv. rewrite stable_sort_elem_of in Hgv.
    destruct (Forall2_elem_of_r _ _ _ _ Hf Hgv) as (row & Hrow & Hview).
    apply list_elem_of_filter in Hrow as [Hround Hrow].
    unfold sorted in Hrow. rewrite stable_sort_elem_of in Hrow.
    destruct (game_view_Some db row gv Hview) as (_ & ? & ? & ? & ? & ? & Hseats).
    exists row. do 7 (split; [done|]).
    assert (Forall2 (λ res s, Seat.pos s = GameResult.position res)
              (sorted Z.leb position_key false (Game.results row.2))
              (GameView.participants gv)) as Hpos.
    { eapply Forall2_impl; [exact Hseats|]. intros res s. unfold seat_of.
      destruct (player_of db (GameResult.player_id res)); simpl; [|done].
      by intros [= <-]. }
    rewrite (Forall2_fmap_eq GameResult.position Seat.pos _ _ Hpos).
    apply fmap_Permutation, stable_sort_perm.
Qed.

Lemma rounds_view_games_witness :
  ∃ rounds ps rv, rounds_view league = Some (rounds, ps) ∧ rv ∈ rounds
    ∧ Sorted (λ a b, GameView.table a ≤ GameView.table b) (RoundView.games rv)
    ∧ GameView.id <$> RoundView.games rv
      ≡ₚ fst <$> filter (λ row : Z * Game.t,
                           Game.round_number row.2 = RoundView.number rv)
                   (game_rows league)
    ∧ ∀ gv, gv ∈ RoundView.games rv →
        ∃ row, row ∈ game_rows league
          ∧ Game.round_number row.2 = RoundView.number rv
          ∧ GameView.id gv = row.1
          ∧ GameView.table gv = Game.table_no row.2
          ∧ GameView.sweep gv = Game.sweep row.2
          ∧ GameView.played gv = has_winner row.2
          ∧ (is_Some (GameView.winner gv)
             ↔ ∃ r, r ∈ Game.results row.2 ∧ GameResult.position r = Some 1)
          ∧ Seat.pos <$> GameView.participants gv
            ≡ₚ GameResult.position <$> Game.results row.2.
Proof.
  eexists _, _, _. split; [vm_compute; reflexivity|].
  split; [apply list_elem_of_here|].
  eapply (rounds_view_games league); [vm_compute; reflexivity|apply list_elem_of_here].
Defined.

(** ** Seeding and the import of the first rounds *)

Lemma named_true n p : named n p = true ↔ Player.name p = n.
Proof. unfold named. apply String.eqb_eq. Qed.

Lemma find_named_None n ps :
  find (named n) ps = None ↔ n ∉ Player.name <$> ps.
Proof.
  rewrite find_None_Forall, Forall_forall. split.
  - intros H (p & -> & Hp)%list_elem_of_fmap. specialize (H p Hp).
    unfold named in H. by rewrite String.eqb_refl in H.
  - intros H p Hp. destruct (named n p) eqn:E; [|done].
    apply named_true in E. destruct H. rewrite <- E. by apply list_elem_of_fmap_2.
Qed.

Lemma add_player_spec name db p db' :
  add_player name db = (p, db') →
  player_rows db' = player_rows db ++ [p]
  ∧ round_rows db' = round_rows db ∧ game_rows db' = game_rows db
  ∧ Player.name p = name ∧ Player.active p = true
  ∧ Player.id p ∉ Player.id <$> player_rows db.
Proof.
  unfold add_player. intros [= <- <-]. simpl. do 5 (split; [done|]).
  intros Hin. destruct (Player.id <$> player_rows db) as [|z l]; [by apply elem_of_nil in Hin|].
  simpl in Hin. destruct (foldl_max_ge l z) as [H1 H2].
  apply elem_of_cons in Hin as [Hin|Hin]; [lia|]. specialize (H2 _ Hin). lia.
Qed.

Lemma add_player_unique name db p db' :
  add_player name db = (p, db') → name ∉ Player.name <$> player_rows db →
  unique_players db → unique_players db'.
Proof.
  intros (Hrows & _ & _ & Hname & _ & Hid)%add_player_spec Hnew [Hn Hi].
  unfold unique_players. rewrite Hrows, !fmap_app. simpl. split.
  - apply NoDup_app. split; [done|]. split; [|apply NoDup_singleton].
    intros n Hin ->%list_elem_of_singleton. by rewrite Hname in Hin.
  - apply NoDup_app. split; [done|]. split; [|apply NoDup_singleton].
    by intros i Hin ->%list_elem_of_singleton.
Qed.

(** What [get_or_create_player] returns and leaves behind. *)
Lemma get_or_create_player_spec name db p db' :
  get_or_create_player name db = (p, db') →
  p ∈ player_rows db'
  ∧ (Player.name p = default name (NAME_FIX !! name) ∨ Player.name p = name)
  ∧ (∃ extra, player_rows db' = player_rows db ++ extra
              ∧ Forall (λ q, Player.active q = true) extra)
  ∧ round_rows db' = round_rows db ∧ game_rows db' = game_rows db
  ∧ (unique_players db → unique_players db').
Proof.
  unfold get_or_create_player.
  destruct (find (named (default name (NAME_FIX !! name))) (player_rows db))
    as [q|] eqn:E1.
  { intros [= <- <-]. apply find_elem_of in E1 as [Hq Hn%named_true].
    split; [done|]. split; [by left|]. split; [|done].
    exists []. by rewrite app_nil_r. }
  destruct (find (named name) (player_rows db)) as [q|] eqn:E2.
  { intros [= <- <-]. apply find_elem_of in E2 as [Hq Hn%named_true].
    split; [done|]. split; [by right|]. split; [|done].
    exists []. by rewrite app_nil_r. }
  intros Hadd. pose proof (add_player_spec _ _ _ _ Hadd) as (Hrows & ? & ? & Hname & Hact & _).
  split; [rewrite Hrows; apply elem_of_app; right; apply list_elem_of_here|].
  split; [by left|]. split; [exists [p]; split; [done|by constructor]|].
  do 2 (split; [done|]).
  apply (add_player_unique _ _ _ _ Hadd). by apply find_named_None.
Qed.

Lemma norm_cases (a : string) :
  (a = "Goldor"%string ∧ default a (NAME_FIX !! a) = "Gordor"%string)
  ∨ (a = "Xephy"%string ∧ default a (NAME_FIX !! a) = "Xephi"%string)
  ∨ (a ≠ "Goldor"%string ∧ a ≠ "Xephy"%string ∧ default a (NAME_FIX !! a) = a).
Proof.
  unfold NAME_FIX.
  destruct (decide (a = "Goldor"%string)) as [->|N1]; [by left|].
  destruct (decide (a = "Xephy"%string)) as [->|N2]; [right; by left|].
  right. right. do 2 (split; [done|]).
  rewrite lookup_insert_ne by done. by rewrite lookup_singleton_ne by done.
Qed.

(** Two names with different normal forms are resolved to players with
    different names. *)
Lemma resolved_names_distinct (a b na nb : string) :
  default a (NAME_FIX !! a) ≠ default b (NAME_FIX !! b) →
  na = default a (NAME_FIX !! a) ∨ na = a →
  nb = default b (NAME_FIX !! b) ∨ nb = b →
  na ≠ nb.
Proof.
  destruct (norm_cases a) as [[-> ->]|[[-> ->]|(Ha1 & Ha2 & ->)]];
    destruct (norm_cases b) as [[-> ->]|[[-> ->]|(Hb1 & Hb2 & ->)]];
    intros Hne [->| ->] [->| ->]; try done; congruence.
Qed.

Lemma Forall2_elem_of_l {A B} (R : A → B → Prop) (l : list A) (k : list B) x :
  Forall2 R l k → x ∈ l → ∃ y, y ∈ k ∧ R x y.
Proof.
  induction 1 as [|x' y l k Hxy _ IH]; [by intros ?%elem_of_nil|].
  intros [->|Hx]%elem_of_cons.
  - exists y. split; [apply list_elem_of_here|done].
  - destruct (IH Hx) as (y' & ? & ?). exists y'. split; [by right|done].
Qed.

Lemma results_fold_spec (positions : gmap string Z) db0 rs0 players :
  ∀ db1 rs1,
    foldl (λ '(db, results) name,
             let '(p, db) := get_or_create_player name db in
             (db, results ++ [GameResult.mk (Player.id p) (positions !! name)]))
          (db0, rs0) players = (db1, rs1) →
    ∃ ps,
      Forall2 (λ p name,
                 p ∈ player_rows db1
                 ∧ (Player.name p = default name (NAME_FIX !! name) ∨ Player.name p = name))
              ps players
      ∧ rs1 = rs0 ++ zip_with (λ p name, GameResult.mk (Player.id p) (positions !! name))
                       ps players
      ∧ (∃ extra, player_rows db1 = player_rows db0 ++ extra
                  ∧ Forall (λ q, Player.active q = true) extra)
      ∧ round_rows db1 = round_rows db0 ∧ game_rows db1 = game_rows db0
      ∧ (unique_players db0 → unique_players db1).
Proof.
  revert db0 rs0. induction players as [|name players IH]; intros db0 rs0 db1 rs1; simpl.
  - intros [= <- <-]. exists []. split; [constructor|]. split; [by rewrite app_nil_r|].
    split; [exists []; by rewrite app_nil_r|]. done.
  - destruct (get_or_create_player name db0) as [p db'] eqn:Hp. intros Hfold.
    destruct (get_or_create_player_spec _ _ _ _ Hp)
      as (Hin & Hname & (extra & Hrows & Hact) & Hr & Hg & Hu).
    destruct (IH _ _ _ _ Hfold)
      as (ps & Hps & -> & (extra' & Hrows' & Hact') & Hr' & Hg' & Hu').
    exists (p :: ps). split; [|split; [|split; [|split; [|split]]]].
    + constructor; [|done]. split; [|done]. rewrite Hrows'. apply elem_of_app. by left.
    + simpl. by rewrite <- app_assoc.
    + exists (extra ++ extra'). split; [by rewrite Hrows', Hrows, app_assoc|].
      by apply Forall_app.
    + congruence.
    + congruence.
    + auto.
Qed.

(** Players resolved from names with pairwise different normal forms have
    pairwise different ids. *)
Lemma resolved_ids_distinct db (ps : list Player.t) (players : list string) :
  Forall2 (λ p name,
             p ∈ player_rows db
             ∧ (Player.name p = default name (NAME_FIX !! name) ∨ Player.name p = name))
          ps players →
  NoDup ((λ name, default name (NAME_FIX !! name)) <$> players) →
  unique_players db →
  NoDup (Player.id <$> ps).
Proof.
  intros Hps Hnd [_ Hids].
  assert (NoDup (Player.name <$> ps)) as Hnames.
  { induction Hps as [|p name ps players [_ Hp] Hrest IH]; [constructor|].
    rewrite fmap_cons in Hnd. apply NoDup_cons in Hnd as [Hnot Hnd].
    rewrite fmap_cons. apply NoDup_cons. split; [|by apply IH].
    intros (q & Hq & Hin)%list_elem_of_fmap.
    destruct (Forall2_elem_of_l _ _ _ _ Hrest Hin) as (name' & Hname' & _ & Hq').
    refine (resolved_names_distinct name name' (Player.name p) (Player.name q) _ Hp Hq' Hq).
    intros Heq. apply Hnot. rewrite Heq.
    by apply (list_elem_of_fmap_2 (λ name, default name (NAME_FIX !! name))). }
  apply NoDup_fmap_2_strong; [|by apply NoDup_fmap_1 in Hnames].
  intros p q Hp Hq Heq.
  destruct (Forall2_elem_of_l _ _ _ _ Hps Hp) as (? & _ & Hp' & _).
  destruct (Forall2_elem_of_l _ _ _ _ Hps Hq) as (? & _ & Hq' & _).
  apply list_elem_of_lookup in Hp' as [i Hi]. apply list_elem_of_lookup in Hq' as [j Hj].
  assert (i = j) as ->.
  { apply (NoDup_lookup _ i j (Player.id p) Hids); rewrite list_lookup_fmap.
    - by rewrite Hi.
    - by rewrite Hj, Heq. }
  congruence.
Qed.

Lemma zip_with_ids (R : Player.t → string → Prop) (f : string → option Z)
    (ps : list Player.t) (players : list string) :
  Forall2 R ps players →
  GameResult.player_id <$> zip_with (λ p name, GameResult.mk (Player.id p) (f name)) ps players
  = Player.id <$> ps
  ∧ length (zip_with (λ p name, GameResult.mk (Player.id p) (f name)) ps players)
    = length players
  ∧ GameResult.position <$> zip_with (λ p name, GameResult.mk (Player.id p) (f name)) ps players
    = f <$> players.
Proof.
  induction 1 as [|p name ps players _ _ (IH1 & IH2 & IH3)]; [done|].
  cbn [zip_with]. rewrite !fmap_cons. cbn [length]. by rewrite IH1, IH2, IH3.
Qed.

Lemma update_first_fmap_same {A C} (P : A → bool) (f : A → A) (g : A → C) (l : list A) :
  (∀ x, g (f x) = g x) → g <$> update_first P f l = g <$> l.
Proof.
  intros H. induction l as [|x l IH]; simpl; [done|].
  destruct (P x); rewrite !fmap_cons; by rewrite ?H, ?IH.
Qed.

Lemma positions_of_None winner second third name :
  given winner = false →
  positions_of winner second third !! name ≠ Some 1.
Proof.
  unfold positions_of. intros Hw.
  destruct winner as [w|]; rewrite ?Hw;
    destruct second as [s|]; try destruct (given (Some s));
    destruct third as [t|]; try destruct (given (Some t));
    rewrite ?lookup_insert_Some, ?lookup_empty; naive_solver.
Qed.

(** The database [add_game] leaves behind. *)
Lemma add_game_spec round_no table_no players winner second third bye db :
  unique_players db → NoDup (fst <$> game_rows db) →
  NoDup ((λ name, default name (NAME_FIX !! name)) <$> players) →
  unique_players (add_game round_no table_no players winner second third bye db)
  ∧ (∃ extra,
       player_rows (add_game round_no table_no players winner second third bye db)
       = player_rows db ++ extra
       ∧ Forall (λ q, Player.active q = true) extra)
  ∧ NoDup (fst <$> game_rows (add_game round_no table_no players winner second third bye db))
  ∧ round_no ∈ RoundInfo.number
               <$> round_rows (add_game round_no table_no players winner second third bye db)
  ∧ ∃ g,
      game_rows (add_game round_no table_no players winner second third bye db)
      = game_rows db ++ [(fresh_id (game_rows db), g)]
      ∧ Game.round_number g = round_no ∧ Game.table_no g = table_no
      ∧ Game.save_player_id g = None
      ∧ Game.sweep g
        = given winner && bool_decide (second = None) && bool_decide (third = None)
      ∧ length (Game.results g) = length players
      ∧ NoDup (participant_ids g)
      ∧ (∀ pid, pid ∈ participant_ids g →
           pid ∈ Player.id
                 <$> player_rows (add_game round_no table_no players winner second third
                                    bye db))
      ∧ GameResult.position <$> Game.results g
        = (λ name, positions_of winner second third !! name) <$> players.
Proof.
  intros Hu Hg Hnd. unfold add_game.
  set (db1 := match find (is_round round_no) (round_rows db) with
              | Some _ => db
              | None => {| player_rows := player_rows db;
                           round_rows := round_rows db ++ [RoundInfo.mk round_no None];
                           game_rows := game_rows db |}
              end).
  assert (player_rows db1 = player_rows db ∧ game_rows db1 = game_rows db
          ∧ round_no ∈ RoundInfo.number <$> round_rows db1) as (Hp1 & Hg1 & Hr1).
  { unfold db1. destruct (find (is_round round_no) (round_rows db)) as [ri|] eqn:E.
    - do 2 (split; [done|]). apply find_elem_of in E as [Hri Hn%Z.eqb_eq].
      rewrite <- Hn. by apply list_elem_of_fmap_2.
    - simpl. do 2 (split; [done|]). rewrite fmap_app. apply elem_of_app. right.
      apply list_elem_of_here. }
  assert (unique_players db1) as Hu1.
  { unfold unique_players. by rewrite Hp1. }
  set (db2 := match bye with
              | Some b =>
                  if given bye then
                    let '(p, db0) := get_or_create_player b db1 in
                    {| player_rows := player_rows db0;
                       round_rows := update_first (is_round round_no)
                                       (set_bye (Some (Player.id p))) (round_rows db0);
                       game_rows := game_rows db0 |}
                  else db1
              | None => db1
              end).
  assert (unique_players db2
          ∧ (∃ extra, player_rows db2 = player_rows db ++ extra
                      ∧ Forall (λ q, Player.active q = true) extra)
          ∧ game_rows db2 = game_rows db
          ∧ round_no ∈ RoundInfo.number <$> round_rows db2) as (Hu2 & Hp2 & Hg2 & Hr2).
  { assert (unique_players db1
            ∧ (∃ extra, player_rows db1 = player_rows db ++ extra
                        ∧ Forall (λ q, Player.active q = true) extra)
            ∧ game_rows db1 = game_rows db
            ∧ round_no ∈ RoundInfo.number <$> round_rows db1) as Hsame.
    { split; [done|]. split; [exists []; by rewrite app_nil_r|]. done. }
    unfold db2. destruct bye as [b|]; [|done]. destruct (given (Some b)); [|done].
    destruct (get_or_create_player b db1) as [p db0] eqn:Hp.
    destruct (get_or_create_player_spec _ _ _ _ Hp)
      as (_ & _ & (extra & Hrows & Hact) & Hr0 & Hg0 & Hu0).
    split; [by apply Hu0|]. simpl.
    split; [exists extra; by rewrite Hrows, Hp1|].
    split; [congruence|].
    rewrite (update_first_fmap_same _ _ RoundInfo.number) by done. by rewrite Hr0. }
  rewrite Hg2 in *.
  unfold add_results.
  destruct (foldl _ (db2, []) players) as [db3 rs] eqn:Hfold.
  destruct (results_fold_spec _ _ _ _ _ _ Hfold)
    as (ps & Hps & -> & (extra3 & Hp3 & Hact3) & Hr3 & Hg3 & Hu3).
  destruct Hp2 as (extra2 & Hp2 & Hact2).
  destruct (zip_with_ids _ (λ name, positions_of winner second third !! name) ps players Hps)
    as (Hids & Hlen & Hpos).
  simpl. split; [by apply Hu3|].
  split; [exists (extra2 ++ extra3); split;
            [by rewrite Hp3, Hp2, app_assoc|by apply Forall_app]|].
  rewrite Hg3, Hg2, Hr3. split; [|split; [done|]].
  - rewrite fmap_app. simpl. apply NoDup_app. split; [done|]. split; [|apply NoDup_singleton].
    intros i Hi%fresh_id_above ->%list_elem_of_singleton. lia.
  - eexists. split; [done|]. simpl. do 4 (split; [done|]).
    split; [done|]. unfold participant_ids. simpl. rewrite Hids.
    split; [by apply (resolved_ids_distinct db3 ps players Hps Hnd), Hu3|].
    split; [|done].
    intros pid (p & -> & Hp)%list_elem_of_fmap.
    destruct (Forall2_elem_of_l _ _ _ _ Hps Hp) as (? & _ & Hin & _).
    by apply list_elem_of_fmap_2.
Qed.

Lemma seed_fold_spec (l : list string) db :
  (∃ extra,
     player_rows (foldl (λ db n, match find (named n) (player_rows db) with
                                 | Some _ => db
                                 | None => (add_player n db).2
                                 end) db l)
     = player_rows db ++ extra
     ∧ Forall (λ q, Player.active q = true ∧ Player.name q ∈ l) extra)
  ∧ (∀ n, n ∈ l →
       n ∈ Player.name
           <$> player_rows (foldl (λ db n, match find (named n) (player_rows db) with
                                           | Some _ => db
                                           | None => (add_player n db).2
                                           end) db l))
  ∧ round_rows (foldl (λ db n, match find (named n) (player_rows db) with
                               | Some _ => db
                               | None => (add_player n db).2
                               end) db l) = round_rows db
  ∧ game_rows (foldl (λ db n, match find (named n) (player_rows db) with
                              | Some _ => db
                              | None => (add_player n db).2
                              end) db l) = game_rows db
  ∧ (unique_players db →
     unique_players (foldl (λ db n, match find (named n) (player_rows db) with
                                    | Some _ => db
                                    | None => (add_player n db).2
                                    end) db l)).
Proof.
  set (step := λ (db : Db) (n : string),
                 match find (named n) (player_rows db) with
                 | Some _ => db
                 | None => (add_player n db).2
                 end).
  revert db. induction l as [|n l IH]; intros db.
  - simpl. split; [exists []; by rewrite app_nil_r|].
    split; [by intros n ?%elem_of_nil|done].
  - cbn [foldl]. set (db1 := step db n).
    assert ((∃ extra, player_rows db1 = player_rows db ++ extra
                      ∧ Forall (λ q, Player.active q = true ∧ Player.name q ∈ n :: l) extra)
            ∧ n ∈ Player.name <$> player_rows db1
            ∧ round_rows db1 = round_rows db ∧ game_rows db1 = game_rows db
            ∧ (unique_players db → unique_players db1))
      as ((extra1 & Hp1 & Ha1) & Hn1 & Hr1 & Hg1 & Hu1).
    { unfold db1, step. destruct (find (named n) (player_rows db)) as [p|] eqn:E.
      - split; [exists []; by rewrite app_nil_r|].
        apply find_elem_of in E as [Hp Hn%named_true].
        split; [|done]. rewrite <- Hn. by apply list_elem_of_fmap_2.
      - destruct (add_player n db) as [p db'] eqn:Hadd. simpl.
        pose proof (add_player_spec _ _ _ _ Hadd) as (Hrows & ? & ? & Hname & Hact & _).
        split; [exists [p]; split; [done|]|].
        { constructor; [|done]. split; [done|]. rewrite Hname. apply list_elem_of_here. }
        split; [rewrite Hrows, fmap_app, <- Hname; apply elem_of_app; right;
                apply list_elem_of_here|].
        do 2 (split; [done|]).
        apply (add_player_unique _ _ _ _ Hadd). by apply find_named_None. }
    destruct (IH db1) as ((extra & Hp & Ha) & Hn & Hr & Hg & Hu).
    split; [|split; [|split; [|split]]].
    + exists (extra1 ++ extra). split; [by rewrite Hp, Hp1, app_assoc|].
      apply Forall_app. split; [done|].
      eapply Forall_impl; [exact Ha|]. intros q [? ?]. split; [done|by right].
    + intros m [->|Hm]%elem_of_cons; [|by apply Hn].
      rewrite Hp, fmap_app. apply elem_of_app. by left.
    + congruence.
    + congruence.
    + auto.
Qed.

Lemma seed_fold_fixed (l : list string) db :
  (∀ n, n ∈ l → n ∈ Player.name <$> player_rows db) →
  foldl (λ db n, match find (named n) (player_rows db) with
                 | Some _ => db
                 | None => (add_player n db).2
                 end) db l = db.
Proof.
  induction l as [|n l IH]; intros H; simpl; [done|].
  destruct (find (named n) (player_rows db)) as [p|] eqn:E.
  - apply IH. intros m Hm. apply H. by right.
  - apply find_named_None in E. destruct E. apply H. apply list_elem_of_here.
Qed.

(** X27.  [seed_players] is idempotent.  It keeps the rows that exist and
    appends active players with seed names only, after which every seed
    name is the name of a player; rounds and tables are not touched, and
    unique names and keys stay unique. *)
Theorem seed_players_idempotent db :
  seed_players (seed_players db) = seed_players db
  ∧ (∀ n, n ∈ seed_names → n ∈ Player.name <$> player_rows (seed_players db))
  ∧ (∃ extra, player_rows (seed_players db) = player_rows db ++ extra
              ∧ Forall (λ q, Player.active q = true ∧ Player.name q ∈ seed_names) extra)
  ∧ round_rows (seed_players db) = round_rows db
  ∧ game_rows (seed_players db) = game_rows db
  ∧ (unique_players db → unique_players (seed_players db)).
Proof.
  destruct (seed_fold_spec seed_names db) as (Hp & Hn & Hr & Hg & Hu).
  split; [|done]. unfold seed_players at 1. by apply seed_fold_fixed.
Qed.

Lemma given_false (s : string) : given (Some s) = false → s = EmptyString.
Proof. unfold given. by destruct (String.eqb_spec s EmptyString). Qed.

(** One conditional assignment to the dictionary [positions]. *)
Lemma assigned_first (o : option string) (k : Z) (d : gmap string Z) (name : string) :
  k ≠ 1 → (d !! name = Some 1 → name ≠ EmptyString) →
  match o with
  | Some s => if given o then <[s := k]> d else d
  | None => d
  end !! name = Some 1
  ↔ d !! name = Some 1 ∧ o ≠ Some name.
Proof.
  intros Hk Hne. destruct o as [s|]; [destruct (given (Some s)) eqn:G|].
  - rewrite lookup_insert_Some. split.
    + intros [[_ ?]|[? ?]]; [done|]. split; [done|congruence].
    + intros [? ?]. right. split; [congruence|done].
  - apply given_false in G as ->. split; [|tauto].
    intros H. split; [done|]. intros [= <-]. by apply Hne.
  - split; [|tauto]. by intros H.
Qed.

Lemma positions_of_first winner second third name :
  positions_of winner second third !! name = Some 1
  ↔ given winner = true ∧ winner = Some name ∧ second ≠ Some name ∧ third ≠ Some name.
Proof.
  assert (match winner with
          | Some w => if given winner then <[w := 1]> (∅ : gmap string Z) else ∅
          | None => ∅
          end !! name = Some 1
          ↔ given winner = true ∧ winner = Some name) as H1.
  { destruct winner as [w|]; [destruct (given (Some w)) eqn:G|].
    - rewrite lookup_insert_Some, lookup_empty. split.
      + intros [[-> _]|[_ ?]]; done.
      + intros [_ [= ->]]. by left.
    - rewrite lookup_empty. split; [done|]. by intros [? _].
    - rewrite lookup_empty. split; [done|]. by intros [? _]. }
  assert (match winner with
          | Some w => if given winner then <[w := 1]> (∅ : gmap string Z) else ∅
          | None => ∅
          end !! name = Some 1 → name ≠ EmptyString) as Hne1.
  { intros [G ->]%H1 ->. done. }
  unfold positions_of. cbv zeta.
  rewrite assigned_first; [|done|].
  - rewrite assigned_first by done. rewrite H1. tauto.
  - intros [H _]%assigned_first; [by apply Hne1|done|done].
Qed.

(** X28.  [add_game] on a database with unique player names and keys and
    unique game ids, for players whose names stay different under NAME_FIX:
    one table is appended under an unused id, for the round and table
    number given and without save designation, holding one result per name
    with pairwise different players, all of whom exist afterwards; the round
    has a round record; new players are active; uniqueness is kept.  The
    table is stored as a sweep exactly when a winner but no second and
    no third is given, and it counts as played for [index] exactly when a
    winner is given and either it is such a sweep or the winner is one of
    the players and not also given as second or third. *)
Theorem add_game_table round_no table_no players winner second third bye db :
  unique_players db → NoDup (fst <$> game_rows db) →
  NoDup ((λ name, default name (NAME_FIX !! name)) <$> players) →
  unique_players (add_game round_no table_no players winner second third bye db)
  ∧ NoDup (fst <$> game_rows (add_game round_no table_no players winner second third bye db))
  ∧ (∃ extra,
       player_rows (add_game round_no table_no players winner second third bye db)
       = player_rows db ++ extra
       ∧ Forall (λ q, Player.active q = true) extra)
  ∧ round_no ∈ RoundInfo.number
               <$> round_rows (add_game round_no table_no players winner second third bye db)
  ∧ ∃ game_id g,
      game_rows (add_game round_no table_no players winner second third bye db)
      = game_rows db ++ [(game_id, g)]
      ∧ (game_id ∉ fst <$> game_rows db)
      ∧ Game.round_number g = round_no ∧ Game.table_no g = table_no
      ∧ Game.save_player_id g = None
      ∧ length (Game.results g) = length players
      ∧ NoDup (participant_ids g)
      ∧ (∀ pid, pid ∈ participant_ids g →
           pid ∈ Player.id
                 <$> player_rows (add_game round_no table_no players winner second third
                                    bye db))
      ∧ (Game.sweep g = true ↔ given winner = true ∧ second = None ∧ third = None)
      ∧ (has_winner g = true
         ↔ given winner = true
           ∧ ((second = None ∧ third = None)
              ∨ ∃ w, winner = Some w ∧ w ∈ players
                     ∧ second ≠ Some w ∧ third ≠ Some w)).
Proof.
  intros Hu Hg Hnd.
  destruct (add_game_spec round_no table_no players winner second third bye db Hu Hg Hnd)
    as (Hu' & Hgrow & Hg' & Hround & g & Hrows & Hrn & Htn & Hsave & Hsweep & Hlen & Hdist
        & Hexist & Hpos).
  do 4 (split; [done|]). exists (fresh_id (game_rows db)), g.
  split; [done|]. split; [intros Hin%fresh_id_above; lia|].
  do 6 (split; [done|]).
  assert (Game.sweep g = true ↔ given winner = true ∧ second = None ∧ third = None)
    as Hsw.
  { rewrite Hsweep, !andb_true_iff, !bool_decide_eq_true. tauto. }
  split; [done|]. unfold has_winner. rewrite orb_true_iff, Hsw.
  assert (existsb (λ r, bool_decide (GameResult.position r = Some 1)) (Game.results g) = true
          ↔ ∃ w, w ∈ players ∧ positions_of winner second third !! w = Some 1) as ->.
  { rewrite existsb_exists. split.
    - intros (r & Hr%list_elem_of_In & Hp%bool_decide_eq_true).
      assert (Some 1 ∈ GameResult.position <$> Game.results g) as Hin.
      { rewrite <- Hp. by apply list_elem_of_fmap_2. }
      rewrite Hpos in Hin. apply list_elem_of_fmap in Hin as (w & Hw & Hin). eauto.
    - intros (w & Hw & Hp).
      assert (Some 1 ∈ GameResult.position <$> Game.results g) as Hin.
      { rewrite Hpos, <- Hp. by apply (list_elem_of_fmap_2 (λ name, _ !! name)). }
      apply list_elem_of_fmap in Hin as (r & Hr & Hin). exists r.
      split; [by apply list_elem_of_In|]. by apply bool_decide_eq_true. }
  setoid_rewrite positions_of_first. split.
  - intros [(w & Hw & Gw & E & N2 & N3)|(Gw & S & T)]; (split; [done|]);
      [right; by exists w|by left].
  - intros [Gw [[S T]|(w & E & Hw & N2 & N3)]]; [by right|left; by exists w].
Qed.

Lemma add_game_table_witness :
  unique_players league
  ∧ unique_players (add_game 2 1 ["Negro"; "Xephy"; "Richard"; "Gueta"]%string
                      None None None (Some "Mauro"%string) league).
Proof.
  assert (unique_players league) as Hu.
  { split; apply (bool_decide_unpack _); vm_compute; exact I. }
  split; [exact Hu|].
  apply (add_game_table 2 1 ["Negro"; "Xephy"; "Richard"; "Gueta"]%string
           None None None (Some "Mauro"%string) league Hu);
    apply (bool_decide_unpack _); vm_compute; exact I.
Defined.

Lemma add_game_length round_no table_no players winner second third bye db :
  length (game_rows (add_game round_no table_no players winner second third bye db))
  = S (length (game_rows db)).
Proof.
  unfold add_game.
  set (db1 := match find (is_round round_no) (round_rows db) with
              | Some _ => db
              | None => _
              end).
  assert (game_rows db1 = game_rows db) as Hg1.
  { unfold db1. by destruct (find (is_round round_no) (round_rows db)). }
  set (db2 := match bye with Some b => _ | None => db1 end).
  assert (game_rows db2 = game_rows db) as Hg2.
  { unfold db2. destruct bye as [b|]; [|done]. destruct (given (Some b)); [|done].
    destruct (get_or_create_player b db1) as [p db0] eqn:Hp. simpl.
    destruct (get_or_create_player_spec _ _ _ _ Hp) as (_ & _ & _ & _ & Hg0 & _).
    congruence. }
  unfold add_results.
  destruct (foldl _ (db2, []) players) as [db3 rs] eqn:Hfold.
  destruct (results_fold_spec _ _ _ _ _ _ Hfold) as (_ & _ & _ & _ & _ & Hg3 & _).
  simpl. rewrite length_app, Hg3, Hg2. simpl. lia.
Qed.

Lemma four_seated_grow db db' g :
  (∀ pid, pid ∈ Player.id <$> player_rows db → pid ∈ Player.id <$> player_rows db') →
  four_seated db g → four_seated db' g.
Proof. intros H (? & ? & Hin). repeat split; [done|done|]. intros pid Hp. auto. Qed.

(** One call of [add_game] in [import_initial_rounds]. *)
Lemma add_game_step (db0 : Db) (k : nat) round_no table_no players winner second third
    bye db :
  length players = 4%nat →
  NoDup ((λ name, default name (NAME_FIX !! name)) <$> players) →
  well_seated db
  ∧ length (game_rows db) = k
  ∧ (∃ extra, player_rows db = player_rows db0 ++ extra
              ∧ Forall (λ q, Player.active q = true) extra) →
  well_seated (add_game round_no table_no players winner second third bye db)
  ∧ length (game_rows (add_game round_no table_no players winner second third bye db))
    = S k
  ∧ (∃ extra,
       player_rows (add_game round_no table_no players winner second third bye db)
       = player_rows db0 ++ extra
       ∧ Forall (λ q, Player.active q = true) extra).
Proof.
  intros Hlen Hnd ((Hu & Hg & Hall) & Hk & (extra0 & Hp0 & Ha0)).
  destruct (add_game_spec round_no table_no players winner second third bye db Hu Hg Hnd)
    as (Hu' & (extra & Hp & Ha) & Hg' & _ & g & Hrows & _ & _ & _ & _ & Hl & Hdist
        & Hexist & _).
  split; [|split].
  - split; [done|]. split; [done|]. rewrite Hrows. apply Forall_app. split.
    + eapply Forall_impl; [exact Hall|]. intros row. apply four_seated_grow.
      intros pid Hpid. rewrite Hp, fmap_app. apply elem_of_app. by left.
    + constructor; [|done]. simpl. split; [congruence|]. done.
  - by rewrite add_game_length, Hk.
  - exists (extra0 ++ extra). split; [by rewrite Hp, Hp0, app_assoc|by apply Forall_app].
Qed.

Lemma import_length db :
  game_rows db = [] → length (game_rows (import_initial_rounds db)) = 18%nat.
Proof.
  intros Hg. unfold import_initial_rounds. rewrite Hg. cbn [length Nat.ltb Nat.leb].
  cbv zeta. by rewrite !add_game_length, Hg.
Qed.

Lemma import_tables db :
  game_rows db = [] → unique_players db →
  well_seated (import_initial_rounds db)
  ∧ length (game_rows (import_initial_rounds db)) = 18%nat
  ∧ (∃ extra, player_rows (import_initial_rounds db) = player_rows db ++ extra
              ∧ Forall (λ q, Player.active q = true) extra).
Proof.
  intros Hg Hu. unfold import_initial_rounds. rewrite Hg. cbn [length Nat.ltb Nat.leb].
  cbv zeta.
  repeat (apply add_game_step;
          [reflexivity|apply (bool_decide_unpack _); vm_compute; exact I|]).
  split; [|split].
  - split; [done|]. rewrite Hg. split; [constructor|constructor].
  - by rewrite Hg.
  - exists []. split; [by rewrite app_nil_r|constructor].
Qed.

(** X29.  [import_initial_rounds] is idempotent.  On a database without
    tables whose player names and keys are unique it stores eighteen
    tables, each of four different players who all exist afterwards, under
    unique ids; it keeps the player rows that exist, adds active players
    only and keeps names and keys unique. *)
Theorem import_initial_rounds_tables db :
  import_initial_rounds (import_initial_rounds db) = import_initial_rounds db
  ∧ (game_rows db = [] → unique_players db →
     well_seated (import_initial_rounds db)
     ∧ length (game_rows (import_initial_rounds db)) = 18%nat
     ∧ (∃ extra, player_rows (import_initial_rounds db) = player_rows db ++ extra
                 ∧ Forall (λ q, Player.active q = true) extra)).
Proof.
  split; [|apply import_tables].
  destruct (game_rows db) as [|row rows] eqn:Hg.
  - pose proof (import_length db Hg) as Hlen.
    unfold import_initial_rounds at 1.
    destruct (game_rows (import_initial_rounds db)) as [|row rows]; [done|].
    by cbn [length Nat.ltb Nat.leb].
  - assert (import_initial_rounds db = db) as E.
    { unfold import_initial_rounds. rewrite Hg. by cbn [length Nat.ltb Nat.leb]. }
    by rewrite !E.
Qed.

Lemma all_active_ids db :
  Forall (λ q, Player.active q = true) (player_rows db) →
  NoDup (Player.id <$> player_rows db) →
  (∀ pid, pid ∈ Player.id <$> player_rows db → pid ∈ active_ids (store_of db))
  ∧ size (active_ids (store_of db)) = length (player_rows db).
Proof.
  intros Hall Hnd. unfold active_ids. simpl.
  rewrite filter_all_true by (rewrite Forall_forall in Hall; done).
  split; [intros pid; by rewrite elem_of_list_to_set|].
  by rewrite size_list_to_set, length_fmap.
Qed.

(** X30.  [init_db_and_import] on a database without players and without
    tables, whatever round records it holds: afterwards every seed name is
    the name of a player, all players are active and there are at least
    nine, names and keys are unique, eighteen tables of four different
    existing players are stored, and [index] completes. *)
Theorem init_db_and_import_ready db :
  player_rows db = [] → game_rows db = [] →
  (∀ n, n ∈ seed_names → n ∈ Player.name <$> player_rows (init_db_and_import db))
  ∧ Forall (λ q, Player.active q = true) (player_rows (init_db_and_import db))
  ∧ (9 ≤ length (player_rows (init_db_and_import db)))%nat
  ∧ well_seated (init_db_and_import db)
  ∧ length (game_rows (init_db_and_import db)) = 18%nat
  ∧ ∃ ctx, index (store_of (init_db_and_import db)) = Ok ctx.
Proof.
  intros Hp Hg. unfold init_db_and_import. rewrite Hp. cbn [length Nat.eqb].
  destruct (seed_fold_spec seed_names db) as ((seeded & Hs & Hsa) & Hn & _ & Hsg & Hsu).
  fold (seed_players db) in Hs, Hn, Hsg, Hsu.
  rewrite Hp in Hs. simpl in Hs. rewrite Hg in Hsg.
  assert (unique_players (seed_players db)) as Hu.
  { apply Hsu. unfold unique_players. rewrite Hp. split; constructor. }
  destruct (import_tables (seed_players db) Hsg Hu) as (Hw & Hlen & extra & Hrows & Hact).
  set (db' := import_initial_rounds (seed_players db)) in *.
  assert (∀ n, n ∈ seed_names → n ∈ Player.name <$> player_rows db') as Hnames.
  { intros n Hin. rewrite Hrows, fmap_app. apply elem_of_app. left. by apply Hn. }
  assert (Forall (λ q, Player.active q = true) (player_rows db')) as Hall.
  { rewrite Hrows, Hs. apply Forall_app. split; [|done].
    eapply Forall_impl; [exact Hsa|]. by intros q [? _]. }
  assert (9 ≤ length (player_rows db'))%nat as Hnine.
  { rewrite <- (length_fmap Player.name).
    change 9%nat with (length seed_names).
    apply submseteq_length, NoDup_submseteq; [|done].
    apply (bool_decide_unpack _). vm_compute. exact I. }
  do 5 (split; [done|]).
  destruct Hw as ([_ Hids] & _ & Hseated).
  destruct (all_active_ids db' Hall Hids) as [Hactive Hsize].
  apply index_total; [|right; lia].
  apply results_within_store_of. intros row p Hrow Hpid.
  rewrite Forall_forall in Hseated. destruct (Hseated row Hrow) as (_ & _ & Hex).
  by apply Hactive, Hex.
Qed.

Lemma init_db_and_import_ready_witness :
  ∃ ctx,
    index (store_of (init_db_and_import
                       {| player_rows := []; round_rows := []; game_rows := [] |}))
    = Ok ctx.
Proof.
  apply (init_db_and_import_ready {| player_rows := []; round_rows := []; game_rows := [] |});
    reflexivity.
Defined.
